(** * MCP Pointer (multi-instance): URL routing and the element sender

    A shallow embedding of the Chrome extension's routing code
    ([utils/config.ts], the background script), of its WebSocket sender
    ([services/element-sender-service.ts]) and of the service that stores
    the configuration ([services/config-storage-service.ts]), with the
    properties the specification states about them and further properties
    of the code.

    Conventions.
    - A JavaScript string is a [string]: the bytes of its UTF-8 encoding.
      [String.prototype.includes] is a substring test, which UTF-8 preserves.
    - A JavaScript [number] is [number]: [NaN] or a rational.
    - A call that may throw returns a [completion].
    - The built-ins of the platform the code calls ([RegExp], [URL],
      [JSON.stringify]) are the fields of the class [Platform]; every theorem
      holds for every platform. *)

From Stdlib Require Import ZArith QArith Qcanon String Ascii List Bool Lia.
From stdpp Require Import gmap strings list.

Local Open Scope Z_scope.

(** ** JavaScript values *)

(** The result of evaluating an expression that may throw. *)
Inductive completion (A : Type) : Type :=
| Normal (a : A)
| Throw (message : string).
Arguments Normal {A} a.
Arguments Throw {A} message.

Definition bind {A B : Type} (c : completion A) (f : A -> completion B) : completion B :=
  match c with
  | Normal a => f a
  | Throw m => Throw m
  end.

(** [try { body } catch { handler }]. *)
Definition try_catch {A : Type} (body : completion A) (handler : string -> completion A) : completion A :=
  match body with
  | Normal a => Normal a
  | Throw m => handler m
  end.

Notation "'let*' x ':=' c 'in' k" := (bind c (fun x => k))
  (at level 10, x name, c at level 100, k at level 200).

(** A [number]: [NaN] or a finite value kept as a canonical rational, so that
    [===] on numbers is equality here. *)
Inductive number : Type :=
| NaN
| Num (q : Qc).

Definition int (z : Z) : number := Num (Q2Qc (inject_Z z)).

(** [!n]: a number is falsy when it is [NaN] or zero. *)
Definition number_falsy (n : number) : bool :=
  match n with
  | NaN => true
  | Num q => Qeq_bool q 0
  end.

(** [n <= m] and [n > m]; a comparison with [NaN] is false. *)
Definition number_le (n m : number) : bool :=
  match n, m with
  | Num p, Num q => Qle_bool p q
  | _, _ => false
  end.

Definition number_gt (n m : number) : bool :=
  match n, m with
  | Num p, Num q => negb (Qle_bool p q)
  | _, _ => false
  end.

Definition number_is_integer (n : number) : bool :=
  match n with
  | NaN => false
  | Num q => Pos.eqb (Qden q) 1
  end.

(** Equality of numbers as values, decided by a test that computes. *)
Definition number_eqb (n m : number) : bool :=
  match n, m with
  | NaN, NaN => true
  | Num p, Num q => Qeq_bool p q
  | _, _ => false
  end.

Lemma number_eqb_eq (n m : number) : number_eqb n m = true <-> n = m.
Proof.
  destruct n as [|p], m as [|q]; cbn; split; try congruence; try reflexivity.
  - intros H. f_equal. apply Qc_is_canon, Qeq_bool_iff, H.
  - intros [= ->]. apply Qeq_bool_iff. reflexivity.
Qed.

Lemma number_eqb_neq (n m : number) : number_eqb n m = false -> n <> m.
Proof. intros H E. apply number_eqb_eq in E. congruence. Qed.

Global Instance number_eq_dec : EqDecision number :=
  fun n m =>
    match number_eqb n m as b return number_eqb n m = b -> Decision (n = m) with
    | true => fun H => left (proj1 (number_eqb_eq n m) H)
    | false => fun H => right (number_eqb_neq n m H)
    end eq_refl.

(** [s.includes(p)]: [p] occurs in [s] as a substring. *)
Fixpoint includes (s p : string) : bool :=
  String.prefix p s ||
  match s with
  | EmptyString => false
  | String _ s' => includes s' p
  end.

(** [!s] on a string: only the empty string is falsy. *)
Definition string_falsy (s : string) : bool :=
  match s with
  | EmptyString => true
  | String _ _ => false
  end.

(** [s.trim() === '']: [s] is made of white space and line terminators only
    (ECMAScript WhiteSpace and LineTerminator, read in UTF-8). *)
Fixpoint trims_to_empty (s : string) : bool :=
  match s with
  | EmptyString => true
  | String a s1 =>
      let x := N_of_ascii a in
      if ((9 <=? x) && (x <=? 13) || (x =? 32))%N then trims_to_empty s1
      else
        match s1 with
        | EmptyString => false
        | String b s2 =>
            let y := N_of_ascii b in
            if ((x =? 194) && (y =? 160))%N then trims_to_empty s2
            else
              match s2 with
              | EmptyString => false
              | String c s3 =>
                  let z := N_of_ascii c in
                  if ((x =? 225) && (y =? 154) && (z =? 128)
                      || (x =? 226) && (y =? 128)
                         && ((128 <=? z) && (z <=? 138) || (z =? 168) || (z =? 169) || (z =? 175))
                      || (x =? 226) && (y =? 129) && (z =? 159)
                      || (x =? 227) && (y =? 128) && (z =? 128)
                      || (x =? 239) && (y =? 187) && (z =? 191))%N
                  then trims_to_empty s3
                  else false
              end
        end
  end.

(** ** The platform *)

Class Platform : Type := {
  (** the object a compiled pattern is *)
  RegExp : Type;
  (** [new RegExp(pattern)]; throws [SyntaxError] on an ill-formed pattern *)
  RegExp_new : string -> completion RegExp;
  (** [regex.test(url)] *)
  RegExp_test : RegExp -> string -> completion bool;
  (** [new URL(url).hostname]; the constructor throws [TypeError] on a
      string that is not a URL *)
  URL_hostname : string -> completion string;
  (** the pointed DOM element a content script sends *)
  RawPointedDOMElement : Type;
  (** [element.url] *)
  element_url : RawPointedDOMElement -> option string;
  (** [JSON.stringify({ type, data, timestamp })] *)
  JSON_stringify : RawPointedDOMElement -> Z -> completion string
}.

(** ** utils/config.ts *)

Inductive PatternType : Type :=
| port_pattern
| contains_pattern
| regex_pattern.

Record RouteConfig : Type := {
  route_id : string;
  route_name : string;
  pattern : string;
  patternType : PatternType;
  mcpPort : number;
  enabled : bool
}.

Record WebsocketConfig : Type := {
  websocket_host : string;
  websocket_port : number
}.

Record ExtensionConfig : Type := {
  config_enabled : bool;
  autoRouting : bool;
  websocket : WebsocketConfig;
  routes : list RouteConfig
}.

Section Routing.
Context {P : Platform}.

(** The [switch (route.patternType)] of [findMatchingRoute]: the value
    [matches] ends with. *)
Definition route_matches (url : string) (route : RouteConfig) : completion bool :=
  match patternType route with
  | port_pattern => Normal (includes url (":" +:+ pattern route))
  | contains_pattern => Normal (includes url (pattern route))
  | regex_pattern =>
      try_catch
        (let* regex := RegExp_new (pattern route) in RegExp_test regex url)
        (fun _ => Normal false)
  end.

Fixpoint findMatchingRoute (url : string) (routes : list RouteConfig)
  : completion (option RouteConfig) :=
  match routes with
  | [] => Normal None
  | route :: rest =>
      if negb (enabled route) then findMatchingRoute url rest
      else
        let* matches := route_matches url route in
        if matches then Normal (Some route) else findMatchingRoute url rest
  end.

Definition extractHostFromUrl (url : string) : completion (option string) :=
  try_catch
    (let* hostname := URL_hostname url in Normal (Some hostname))
    (fun _ => Normal None).

End Routing.

(** ** services/element-sender-service.ts *)

Inductive ConnectionStatus : Type :=
| CONNECTING
| CONNECTED
| SENDING
| SENT
| ERROR.

Global Instance ConnectionStatus_eq_dec : EqDecision ConnectionStatus.
Proof. solve_decision. Defined.

(** The second argument of the status callback. *)
Inductive StatusError : Type :=
| no_error
| Invalid_host
| Invalid_port_number
| Connection_timeout_to (host : string) (port : number)
| exception_message (message : string).

(** [WebSocket.readyState]. *)
Inductive ReadyState : Type :=
| WS_CONNECTING
| WS_OPEN
| WS_CLOSING
| WS_CLOSED.

Global Instance ReadyState_eq_dec : EqDecision ReadyState.
Proof. solve_decision. Defined.

(** A [ReconnectingWebSocket] object: the endpoint it was built for and the
    state of its connection. *)
Record Socket : Type := {
  socket_host : string;
  socket_port : number;
  readyState : ReadyState
}.

Definition with_readyState (r : ReadyState) (sk : Socket) : Socket :=
  {| socket_host := socket_host sk; socket_port := socket_port sk; readyState := r |}.

(** What the service does to the outside, in the order it does it. A call of
    [sendElement] is named by its rank among the calls. *)
Inductive Obs : Type :=
| status_callback (send : nat) (status : ConnectionStatus) (error : StatusError)
| socket_created (s : nat) (host : string) (port : number)
| socket_close_called (s : nat)
| socket_send_called (s : nat) (send : nat) (frame : string)
| timer_set (timer : nat) (due : Z)
| timer_cleared (timer : nat).

Definition IDLE_DURATION : Z := 10000.
Definition CONNECTION_TIMEOUT : Z := 10000.

Section Sender.
Context {P : Platform}.

(** A call of [sendElement] suspended in [waitForConnection]: the promise is
    settled by the socket's [open] event or by the timer set for
    [CONNECTION_TIMEOUT], whichever comes first. *)
Record Wait : Type := {
  wait_send : nat;
  wait_element : RawPointedDOMElement;
  wait_host : string;
  wait_port : number;
  wait_due : Z
}.

(** The fields of the service ([ws], [currentHost], [currentPort],
    [idleTimeout]) and the world around it: the sockets it built, the idle
    timers still to fire, the suspended calls by the socket each waits on,
    the clock (ms) and what was done so far. *)
Record State : Type := {
  ws : option nat;
  currentHost : option string;
  currentPort : option number;
  idleTimeout : option nat;
  sockets : gmap nat Socket;
  next_socket : nat;
  timers : gmap nat Z;
  next_timer : nat;
  waits : gmap nat Wait;
  next_send : nat;
  clock : Z;
  trace : list Obs
}.

(** [new ElementSenderService()]. Timer handles start at 1: a handle is
    truthy. *)
Definition new_ElementSenderService : State :=
  {| ws := None; currentHost := None; currentPort := None; idleTimeout := None;
     sockets := ∅; next_socket := 0%nat; timers := ∅; next_timer := 1%nat;
     waits := ∅; next_send := 0%nat; clock := 0; trace := [] |}.

Definition set_ws (v : option nat) (σ : State) : State :=
  {| ws := v; currentHost := currentHost σ; currentPort := currentPort σ;
     idleTimeout := idleTimeout σ; sockets := sockets σ; next_socket := next_socket σ;
     timers := timers σ; next_timer := next_timer σ; waits := waits σ;
     next_send := next_send σ; clock := clock σ; trace := trace σ |}.

Definition set_current (h : string) (p : number) (σ : State) : State :=
  {| ws := ws σ; currentHost := Some h; currentPort := Some p;
     idleTimeout := idleTimeout σ; sockets := sockets σ; next_socket := next_socket σ;
     timers := timers σ; next_timer := next_timer σ; waits := waits σ;
     next_send := next_send σ; clock := clock σ; trace := trace σ |}.

Definition set_idleTimeout (v : option nat) (σ : State) : State :=
  {| ws := ws σ; currentHost := currentHost σ; currentPort := currentPort σ;
     idleTimeout := v; sockets := sockets σ; next_socket := next_socket σ;
     timers := timers σ; next_timer := next_timer σ; waits := waits σ;
     next_send := next_send σ; clock := clock σ; trace := trace σ |}.

Definition set_sockets (v : gmap nat Socket) (n : nat) (σ : State) : State :=
  {| ws := ws σ; currentHost := currentHost σ; currentPort := currentPort σ;
     idleTimeout := idleTimeout σ; sockets := v; next_socket := n;
     timers := timers σ; next_timer := next_timer σ; waits := waits σ;
     next_send := next_send σ; clock := clock σ; trace := trace σ |}.

Definition set_timers (v : gmap nat Z) (n : nat) (σ : State) : State :=
  {| ws := ws σ; currentHost := currentHost σ; currentPort := currentPort σ;
     idleTimeout := idleTimeout σ; sockets := sockets σ; next_socket := next_socket σ;
     timers := v; next_timer := n; waits := waits σ;
     next_send := next_send σ; clock := clock σ; trace := trace σ |}.

Definition set_waits (v : gmap nat Wait) (σ : State) : State :=
  {| ws := ws σ; currentHost := currentHost σ; currentPort := currentPort σ;
     idleTimeout := idleTimeout σ; sockets := sockets σ; next_socket := next_socket σ;
     timers := timers σ; next_timer := next_timer σ; waits := v;
     next_send := next_send σ; clock := clock σ; trace := trace σ |}.

Definition set_next_send (n : nat) (σ : State) : State :=
  {| ws := ws σ; currentHost := currentHost σ; currentPort := currentPort σ;
     idleTimeout := idleTimeout σ; sockets := sockets σ; next_socket := next_socket σ;
     timers := timers σ; next_timer := next_timer σ; waits := waits σ;
     next_send := n; clock := clock σ; trace := trace σ |}.

Definition set_clock (t : Z) (σ : State) : State :=
  {| ws := ws σ; currentHost := currentHost σ; currentPort := currentPort σ;
     idleTimeout := idleTimeout σ; sockets := sockets σ; next_socket := next_socket σ;
     timers := timers σ; next_timer := next_timer σ; waits := waits σ;
     next_send := next_send σ; clock := t; trace := trace σ |}.

Definition emit (o : Obs) (σ : State) : State :=
  {| ws := ws σ; currentHost := currentHost σ; currentPort := currentPort σ;
     idleTimeout := idleTimeout σ; sockets := sockets σ; next_socket := next_socket σ;
     timers := timers σ; next_timer := next_timer σ; waits := waits σ;
     next_send := next_send σ; clock := clock σ; trace := trace σ ++ [o] |}.

(** [statusCallback?.(status, error)] of the call [k]. *)
Definition statusCallback (k : nat) (status : ConnectionStatus) (error : StatusError)
  (σ : State) : State :=
  emit (status_callback k status error) σ.

Definition startIdleTimer (σ : State) : State :=
  let timer := next_timer σ in
  let due := clock σ + IDLE_DURATION in
  set_idleTimeout (Some timer)
    (set_timers (<[timer := due]> (timers σ)) (S timer) (emit (timer_set timer due) σ)).

Definition clearIdleTimer (σ : State) : State :=
  match idleTimeout σ with
  | Some timer =>
      set_idleTimeout None
        (set_timers (delete timer (timers σ)) (next_timer σ) (emit (timer_cleared timer) σ))
  | None => σ
  end.

(** [this.ws.close()]. *)
Definition socket_close (s : nat) (σ : State) : State :=
  set_sockets (alter (with_readyState WS_CLOSING) s (sockets σ)) (next_socket σ)
    (emit (socket_close_called s) σ).

Definition disconnect (σ : State) : State :=
  let σ1 := clearIdleTimer σ in
  match ws σ1 with
  | Some s => set_ws None (socket_close s σ1)
  | None => σ1
  end.

Definition isConnected (σ : State) : bool :=
  match ws σ with
  | Some s =>
      match sockets σ !! s with
      | Some sk => bool_decide (readyState sk = WS_OPEN)
      | None => false
      end
  | None => false
  end.

Definition host_invalid (host : string) : bool :=
  string_falsy host || trims_to_empty host.

Definition port_invalid (port : number) : bool :=
  number_falsy port || number_le port (int 0) || number_gt port (int 65535).

(** [handleConnectionChange]. The tests [this.currentHost !== host] and
    [this.currentPort !== port] are reached with a [port] that passed the
    validation, so it is not [NaN] and [!==] is inequality of values. *)
Definition handleConnectionChange (k : nat) (host : string) (port : number) (σ : State)
  : bool * State :=
  if host_invalid host then (false, statusCallback k ERROR Invalid_host σ)
  else if port_invalid port then (false, statusCallback k ERROR Invalid_port_number σ)
  else
    let isInitialization :=
      bool_decide (currentHost σ = None) && bool_decide (currentPort σ = None) in
    if isInitialization then (true, set_current host port σ)
    else
      let hostChanged := negb (bool_decide (currentHost σ = Some host)) in
      let portChanged := negb (bool_decide (currentPort σ = Some port)) in
      if hostChanged || portChanged
      then (true, set_current host port (disconnect σ))
      else (true, σ).

(** [new ReconnectingWebSocket(`ws://${host}:${port}`, [], options)] stored
    in [this.ws]: a new object, connecting. *)
Definition new_ReconnectingWebSocket (host : string) (port : number) (σ : State) : State :=
  let s := next_socket σ in
  set_ws (Some s)
    (set_sockets
       (<[s := {| socket_host := host; socket_port := port; readyState := WS_CONNECTING |}]>
          (sockets σ))
       (S s) (emit (socket_created s host port) σ)).

(** [waitForConnection()]: [Some b] when the promise is settled at once,
    [None] when the call is left waiting for the socket. *)
Definition waitForConnection (k : nat) (element : RawPointedDOMElement)
  (host : string) (port : number) (σ : State) : option bool * State :=
  match ws σ with
  | None => (Some false, σ)
  | Some s =>
      if isConnected σ then (Some true, σ)
      else
        let w := {| wait_send := k; wait_element := element; wait_host := host;
                    wait_port := port; wait_due := clock σ + CONNECTION_TIMEOUT |} in
        (None, set_waits (<[s := w]> (waits σ)) σ)
  end.

(** [ensureConnection] after [waitForConnection()] has settled with
    [connected]. *)
Definition ensureConnection_resume (k : nat) (host : string) (port : number)
  (connected : bool) (σ : State) : bool * State :=
  if negb connected
  then (false, disconnect (statusCallback k ERROR (Connection_timeout_to host port) σ))
  else (true, statusCallback k CONNECTED no_error σ).

(** [ensureConnection]: [None] when it is suspended in [waitForConnection]. *)
Definition ensureConnection (k : nat) (element : RawPointedDOMElement)
  (host : string) (port : number) (σ : State) : option bool * State :=
  let '(connectionHandled, σ1) := handleConnectionChange k host port σ in
  if negb connectionHandled then (Some false, σ1)
  else if negb (isConnected σ1) then
    let σ2 := statusCallback k CONNECTING no_error σ1 in
    let σ3 := new_ReconnectingWebSocket host port σ2 in
    match waitForConnection k element host port σ3 with
    | (Some connected, σ4) =>
        let '(r, σ5) := ensureConnection_resume k host port connected σ4 in (Some r, σ5)
    | (None, σ4) => (None, σ4)
    end
  else (Some true, statusCallback k CONNECTED no_error σ1).

(** [sendElement] after [await this.ensureConnection(...)] has returned
    [connected]. Reading [send] off a null [this.ws] and [JSON.stringify]
    may throw; the [catch] reports the exception. *)
Definition sendElement_resume (k : nat) (element : RawPointedDOMElement)
  (connected : bool) (σ : State) : State :=
  if negb connected then σ
  else
    let σ1 := startIdleTimer σ in
    let σ2 := statusCallback k SENDING no_error σ1 in
    match ws σ2 with
    | None =>
        statusCallback k ERROR
          (exception_message "Cannot read properties of null (reading 'send')") σ2
    | Some s =>
        match JSON_stringify element (clock σ2) with
        | Throw m => statusCallback k ERROR (exception_message m) σ2
        | Normal frame =>
            statusCallback k SENT no_error (emit (socket_send_called s k frame) σ2)
        end
    end.

Definition sendElement (element : RawPointedDOMElement) (host : string) (port : number)
  (σ : State) : State :=
  let k := next_send σ in
  let σ0 := clearIdleTimer (set_next_send (S k) σ) in
  match ensureConnection k element host port σ0 with
  | (Some connected, σ1) => sendElement_resume k element connected σ1
  | (None, σ1) => σ1
  end.

(** *** The event loop

    One step is one task of the event loop, run with the continuations it
    wakes: a call of [sendElement] (the background script calls it once per
    message), an event of a socket, or a timer that fires. *)
Inductive Event : Type :=
| call_sendElement (element : RawPointedDOMElement) (host : string) (port : number)
| socket_open (s : nat)
| socket_lost (s : nat)
| socket_closed (s : nat)
| idle_timer (timer : nat)
| connection_timer (s : nat).

(** The socket [s] opens: the [handleOpen] of the call waiting on it clears
    the connection timer and resolves the promise with [true]. *)
Definition on_socket_open (s : nat) (σ : State) : option State :=
  match sockets σ !! s with
  | Some sk =>
      if bool_decide (readyState sk = WS_CONNECTING) then
        let σ1 := set_sockets (<[s := with_readyState WS_OPEN sk]> (sockets σ)) (next_socket σ) σ in
        match waits σ1 !! s with
        | Some w =>
            let σ2 := set_waits (delete s (waits σ1)) σ1 in
            let '(connected, σ3) :=
              ensureConnection_resume (wait_send w) (wait_host w) (wait_port w) true σ2 in
            Some (sendElement_resume (wait_send w) (wait_element w) connected σ3)
        | None => Some σ1
        end
      else None
  | None => None
  end.

(** The connection of [s] is lost; the socket object starts to reconnect. *)
Definition on_socket_lost (s : nat) (σ : State) : option State :=
  match sockets σ !! s with
  | Some sk =>
      if bool_decide (readyState sk = WS_OPEN)
      then Some (set_sockets (<[s := with_readyState WS_CONNECTING sk]> (sockets σ)) (next_socket σ) σ)
      else None
  | None => None
  end.

(** The socket [s] ends: its closing completes, or it gives up after
    [MAX_RETRIES]. *)
Definition on_socket_closed (s : nat) (σ : State) : option State :=
  match sockets σ !! s with
  | Some sk =>
      if bool_decide (readyState sk = WS_OPEN) then None
      else Some (set_sockets (<[s := with_readyState WS_CLOSED sk]> (sockets σ)) (next_socket σ) σ)
  | None => None
  end.

(** The callback of [startIdleTimer]. *)
Definition on_idle_timer (timer : nat) (σ : State) : option State :=
  match timers σ !! timer with
  | Some due =>
      if due <=? clock σ
      then Some (disconnect (set_timers (delete timer (timers σ)) (next_timer σ) σ))
      else None
  | None => None
  end.

(** The timer of [waitForConnection] resolves the promise with [false]. *)
Definition on_connection_timer (s : nat) (σ : State) : option State :=
  match waits σ !! s with
  | Some w =>
      if wait_due w <=? clock σ then
        let σ1 := set_waits (delete s (waits σ)) σ in
        let '(connected, σ2) :=
          ensureConnection_resume (wait_send w) (wait_host w) (wait_port w) false σ1 in
        Some (sendElement_resume (wait_send w) (wait_element w) connected σ2)
      else None
  | None => None
  end.

(** The task [ev] run when the clock shows [t] (or later); [None] when the
    event cannot happen in [σ]. *)
Definition step (σ : State) (t : Z) (ev : Event) : option State :=
  let σ0 := set_clock (Z.max (clock σ) t) σ in
  match ev with
  | call_sendElement element host port => Some (sendElement element host port σ0)
  | socket_open s => on_socket_open s σ0
  | socket_lost s => on_socket_lost s σ0
  | socket_closed s => on_socket_closed s σ0
  | idle_timer timer => on_idle_timer timer σ0
  | connection_timer s => on_connection_timer s σ0
  end.

Fixpoint run (σ : State) (evs : list (Z * Event)) : option State :=
  match evs with
  | [] => Some σ
  | (t, ev) :: rest =>
      match step σ t ev with
      | Some σ' => run σ' rest
      | None => None
      end
  end.

(** The state after the event [ev] at time [t], when it can happen. *)
Definition after (σ : State) (t : Z) (ev : Event) : State :=
  default σ (step σ t ev).

Definition can_happen (σ : State) (t : Z) (ev : Event) : bool :=
  match step σ t ev with
  | Some _ => true
  | None => false
  end.

(** The states the service can be in. *)
Definition reachable (σ : State) : Prop :=
  exists evs, run new_ElementSenderService evs = Some σ.

(** The statuses the call [k] was told, in order. *)
Definition statuses_of (k : nat) (l : list Obs) : list ConnectionStatus :=
  omap (fun o =>
          match o with
          | status_callback k' st _ => if bool_decide (k' = k) then Some st else None
          | _ => None
          end) l.

End Sender.

(** ** The background script *)

(** The object [getEndpointForUrl] returns. *)
Record Endpoint : Type := {
  endpoint_host : string;
  endpoint_port : number;
  endpoint_route : option RouteConfig
}.


(** What the listener answers with [sendResponse]. *)
Inductive Response : Type :=
| pointed_response (success : bool) (route : string) (host : string) (port : number)
| active_route_response (route : option (string * number))
    (enabled autoRouting : bool) (routeCount : nat)
| test_route_response (matched : bool) (route : option (string * string))
    (host : string) (port : number).

(** [a || b] on strings that may be undefined: the first truthy one. *)
Definition string_or (a : option string) (b : option string) : option string :=
  match a with
  | Some s => if string_falsy s then b else Some s
  | None => b
  end.


Section Background.
Context {P : Platform}.


(** The variables of the script: [currentConfig], [activeRoutes] and
    [elementSender], with the responses sent so far. *)
Record Background : Type := {
  currentConfig : ExtensionConfig;
  activeRoutes : gmap Z (option RouteConfig);
  elementSender : State;
  responses : list Response
}.

Definition getEndpointForUrl (currentConfig : ExtensionConfig) (url : string)
  : completion Endpoint :=
  let* extractedHost := extractHostFromUrl url in
  let host :=
    default (websocket_host (websocket currentConfig))
      (string_or extractedHost (Some (websocket_host (websocket currentConfig)))) in
  if negb (autoRouting currentConfig) then
    Normal {| endpoint_host := host;
              endpoint_port := websocket_port (websocket currentConfig);
              endpoint_route := None |}
  else
    let* matchedRoute := findMatchingRoute url (routes currentConfig) in
    match matchedRoute with
    | Some route =>
        Normal {| endpoint_host := host; endpoint_port := mcpPort route;
                  endpoint_route := Some route |}
    | None =>
        Normal {| endpoint_host := host;
                  endpoint_port := websocket_port (websocket currentConfig);
                  endpoint_route := None |}
    end.





End Background.

(** ** services/config-storage-service.ts *)

(** What the build and the shared logger package provide: the constant
    [IS_DEV] and the type [LogLevel] with its [DEBUG]. *)
Class Build : Type := {
  IS_DEV : bool;
  LogLevel : Type;
  LogLevel_DEBUG : LogLevel
}.

Section Storage.
Context {B : Build}.

(** The [logger] field of the configuration. *)
Record LoggerConfig : Type := {
  logger_enabled : bool;
  logger_level : LogLevel
}.

(** The whole configuration object of [utils/config.ts]: the fields the
    routing reads ([ExtensionConfig] above) and [logger]. *)
Record FullConfig : Type := {
  settings : ExtensionConfig;
  logger : LoggerConfig
}.

(** [defaultRoutes] and the default export of [utils/config.ts]. *)
Definition defaultRoutes : list RouteConfig := [].

Definition defaultConfig : FullConfig :=
  {| settings :=
       {| config_enabled := true;
          autoRouting := true;
          websocket := {| websocket_host := "localhost"; websocket_port := int 7007 |};
          routes := defaultRoutes |};
     logger := {| logger_enabled := IS_DEV; logger_level := LogLevel_DEBUG |} |}.

Definition STORAGE_KEY : string := "mcp_pointer_config".
Definition CONFIG_VERSION : Z := 3.

(** A route as it may be stored: an object with [mcpPort], or an object of
    the earlier interface, with [host] and [port] and no [mcpPort]. *)
Inductive StoredRoute : Type :=
| route_with_mcpPort (route : RouteConfig)
| route_with_host_port (id name pattern : string) (patternType : PatternType)
    (host : string) (port : number) (enabled : bool).

(** The object under [STORAGE_KEY]; a field is [None] when it is missing
    ([undefined] or [null]), [stored_routes] also when it is no array. *)
Record StoredConfig : Type := {
  stored_enabled : option bool;
  stored_autoRouting : option bool;
  stored_websocket : option WebsocketConfig;
  stored_routes : option (list StoredRoute);
  stored_logger : option LoggerConfig;
  stored_version : option Z
}.

Definition migrateRoute (route : StoredRoute) : RouteConfig :=
  match route with
  | route_with_mcpPort r => r
  | route_with_host_port id name pattern patternType host port enabled =>
      {| route_id := id; route_name := name; pattern := pattern;
         patternType := patternType; mcpPort := port; enabled := enabled |}
  end.

Definition migrateConfig (stored : StoredConfig) : FullConfig :=
  match stored_routes stored with
  | Some stored_list =>
      {| settings :=
           {| config_enabled :=
                default (config_enabled (settings defaultConfig)) (stored_enabled stored);
              autoRouting :=
                default (autoRouting (settings defaultConfig)) (stored_autoRouting stored);
              websocket :=
                default (websocket (settings defaultConfig)) (stored_websocket stored);
              routes := map migrateRoute stored_list |};
         logger := default (logger defaultConfig) (stored_logger stored) |}
  | None =>
      {| settings :=
           {| config_enabled :=
                default (config_enabled (settings defaultConfig)) (stored_enabled stored);
              autoRouting := true;
              websocket :=
                default (websocket (settings defaultConfig)) (stored_websocket stored);
              routes := routes (settings defaultConfig) |};
         logger := default (logger defaultConfig) (stored_logger stored) |}
  end.

(** [chrome.storage.sync], as far as the service uses it: what is under
    [STORAGE_KEY], and whether reading and writing fail. *)
Record Storage : Type := {
  content : option StoredConfig;
  get_error : option string;
  set_error : option string
}.

(** [await chrome.storage.sync.get(STORAGE_KEY)], then [result[STORAGE_KEY]]. *)
Definition chrome_storage_sync_get (st : Storage) : completion (option StoredConfig) :=
  match get_error st with
  | Some message => Throw message
  | None => Normal (content st)
  end.

(** [await chrome.storage.sync.set({ [STORAGE_KEY]: value })]. *)
Definition chrome_storage_sync_set (value : StoredConfig) (st : Storage) : completion Storage :=
  match set_error st with
  | Some message => Throw message
  | None => Normal {| content := Some value; get_error := get_error st;
                      set_error := set_error st |}
  end.

(** [ConfigStorageService.load]: it catches what reading throws. *)
Definition load (st : Storage) : FullConfig :=
  match chrome_storage_sync_get st with
  | Normal (Some stored) => migrateConfig stored
  | Normal None => defaultConfig
  | Throw _ => defaultConfig
  end.

(** [{ ...config, _version: CONFIG_VERSION }]. *)
Definition configWithVersion (config : FullConfig) : StoredConfig :=
  {| stored_enabled := Some (config_enabled (settings config));
     stored_autoRouting := Some (autoRouting (settings config));
     stored_websocket := Some (websocket (settings config));
     stored_routes := Some (map route_with_mcpPort (routes (settings config)));
     stored_logger := Some (logger config);
     stored_version := Some CONFIG_VERSION |}.

(** [ConfigStorageService.save]: it throws again what writing throws. *)
Definition save (config : FullConfig) (st : Storage) : completion Storage :=
  try_catch (chrome_storage_sync_set (configWithVersion config) st)
    (fun error => Throw error).

(** [Partial<ExtensionConfig>]: the keys that are there. *)
Record ConfigUpdates : Type := {
  updates_enabled : option bool;
  updates_autoRouting : option bool;
  updates_websocket : option WebsocketConfig;
  updates_routes : option (list RouteConfig);
  updates_logger : option LoggerConfig
}.

(** [{ ...currentConfig, ...updates }]. *)
Definition spread_config (currentConfig : FullConfig) (updates : ConfigUpdates) : FullConfig :=
  {| settings :=
       {| config_enabled :=
            default (config_enabled (settings currentConfig)) (updates_enabled updates);
          autoRouting :=
            default (autoRouting (settings currentConfig)) (updates_autoRouting updates);
          websocket := default (websocket (settings currentConfig)) (updates_websocket updates);
          routes := default (routes (settings currentConfig)) (updates_routes updates) |};
     logger := default (logger currentConfig) (updates_logger updates) |}.

(** [ConfigStorageService.update]. Each method of the service is taken to
    run to its end with no other writer of the storage in between. *)
Definition update (updates : ConfigUpdates) (st : Storage) : completion (FullConfig * Storage) :=
  let currentConfig := load st in
  let newConfig := spread_config currentConfig updates in
  let* st' := save newConfig st in
  Normal (newConfig, st').

(** [{ routes: newRoutes }]. *)
Definition routes_update (newRoutes : list RouteConfig) : ConfigUpdates :=
  {| updates_enabled := None; updates_autoRouting := None; updates_websocket := None;
     updates_routes := Some newRoutes; updates_logger := None |}.

Definition addRoute (route : RouteConfig) (st : Storage) : completion (FullConfig * Storage) :=
  let currentConfig := load st in
  let newRoutes := routes (settings currentConfig) ++ [route] in
  update (routes_update newRoutes) st.

(** [Partial<RouteConfig>]. *)
Record RouteUpdates : Type := {
  updates_id : option string;
  updates_name : option string;
  updates_pattern : option string;
  updates_patternType : option PatternType;
  updates_mcpPort : option number;
  updates_route_enabled : option bool
}.

(** [{ ...route, ...updates }]. *)
Definition spread_route (route : RouteConfig) (updates : RouteUpdates) : RouteConfig :=
  {| route_id := default (route_id route) (updates_id updates);
     route_name := default (route_name route) (updates_name updates);
     pattern := default (pattern route) (updates_pattern updates);
     patternType := default (patternType route) (updates_patternType updates);
     mcpPort := default (mcpPort route) (updates_mcpPort updates);
     enabled := default (enabled route) (updates_route_enabled updates) |}.

Definition updateRoute (routeId : string) (updates : RouteUpdates) (st : Storage)
  : completion (FullConfig * Storage) :=
  let currentConfig := load st in
  let newRoutes :=
    map (fun route => if String.eqb (route_id route) routeId
                      then spread_route route updates else route)
      (routes (settings currentConfig)) in
  update (routes_update newRoutes) st.

Definition removeRoute (routeId : string) (st : Storage) : completion (FullConfig * Storage) :=
  let currentConfig := load st in
  let newRoutes :=
    List.filter (fun route => negb (String.eqb (route_id route) routeId))
      (routes (settings currentConfig)) in
  update (routes_update newRoutes) st.

(** [{ ...route, enabled: !route.enabled }]. *)
Definition toggled (route : RouteConfig) : RouteConfig :=
  {| route_id := route_id route; route_name := route_name route; pattern := pattern route;
     patternType := patternType route; mcpPort := mcpPort route;
     enabled := negb (enabled route) |}.

Definition toggleRoute (routeId : string) (st : Storage) : completion (FullConfig * Storage) :=
  let currentConfig := load st in
  let newRoutes :=
    map (fun route => if String.eqb (route_id route) routeId then toggled route else route)
      (routes (settings currentConfig)) in
  update (routes_update newRoutes) st.

(** One entry of the [changes] that [chrome.storage.onChanged] reports. *)
Record StorageChange : Type := {
  oldValue : option StoredConfig;
  newValue : option StoredConfig
}.

(** The listener [ConfigStorageService.onChange] registers, called with the
    entry of [changes] under [STORAGE_KEY] (if any) and the name of the
    area: the configuration it calls [callback] with, if it calls it. *)
Definition onChange (change : option StorageChange) (areaName : string) : option FullConfig :=
  if String.eqb areaName "sync" then
    match change with
    | Some c =>
        match newValue c with
        | Some newConfig => Some (migrateConfig newConfig)
        | None => None
        end
    | None => None
    end
  else None.

End Storage.

(** ** The background script and the stored configuration *)

Section BackgroundStorage.
Context {P : Platform} {B : Build}.

(** [initialize]: the configuration is loaded and the service is made; no
    route is tracked yet. *)
Definition initialize (st : Storage) : Background :=
  {| currentConfig := settings (load st);
     activeRoutes := ∅;
     elementSender := new_ElementSenderService;
     responses := [] |}.

(** The callback the script gives to [ConfigStorageService.onChange]. *)
Definition onConfigChange (newConfig : FullConfig) (b : Background) : Background :=
  {| currentConfig := settings newConfig;
     activeRoutes := activeRoutes b;
     elementSender := elementSender b;
     responses := responses b |}.

(** [chrome.storage.onChanged] fires. *)
Definition onStorageChanged (change : option StorageChange) (areaName : string)
  (b : Background) : Background :=
  match onChange change areaName with
  | Some newConfig => onConfigChange newConfig b
  | None => b
  end.

End BackgroundStorage.

(** ** A platform to run the code on

    A small model of the built-ins, enough to evaluate the definitions
    above on concrete inputs. It covers ASCII input: URLs of the shapes
    [scheme://host:port/path] and [scheme:path], and patterns made of
    literals, [.], classes, groups, [|], [*], [+], [?], [^] and [$]. *)

Definition ascii_in (lo hi : N) (a : ascii) : bool :=
  ((lo <=? N_of_ascii a) && (N_of_ascii a <=? hi))%N.

Definition is_alpha (a : ascii) : bool := ascii_in 65 90 a || ascii_in 97 122 a.

Definition is_scheme_char (a : ascii) : bool :=
  is_alpha a || ascii_in 48 57 a || ascii_in 45 46 a || ascii_in 43 43 a.

Definition to_lower (a : ascii) : ascii :=
  if ascii_in 65 90 a then ascii_of_N (N_of_ascii a + 32) else a.

Fixpoint lower_case (s : string) : string :=
  match s with
  | EmptyString => EmptyString
  | String a s' => String (to_lower a) (lower_case s')
  end.

(** The scheme of a URL, in lower case, and what follows its colon. *)
Fixpoint split_scheme (s : string) : option (string * string) :=
  match s with
  | EmptyString => None
  | String a s' =>
      if Ascii.eqb a ":" then Some (EmptyString, s')
      else if is_scheme_char a then
        match split_scheme s' with
        | Some (scheme, rest) => Some (String (to_lower a) scheme, rest)
        | None => None
        end
      else None
  end.

Fixpoint take_until (stop : ascii -> bool) (s : string) : string :=
  match s with
  | EmptyString => EmptyString
  | String a s' => if stop a then EmptyString else String a (take_until stop s')
  end.

Fixpoint drop_while (skip : ascii -> bool) (s : string) : string :=
  match s with
  | EmptyString => EmptyString
  | String a s' => if skip a then drop_while skip s' else s
  end.

(** What follows the last [@] of an authority. *)
Fixpoint after_userinfo (s : string) : string :=
  match s with
  | EmptyString => EmptyString
  | String a s' =>
      if Ascii.eqb a "@" && negb (includes s' "@") then s'
      else if includes s "@" then after_userinfo s'
      else s
  end.

Definition is_slash (a : ascii) : bool := Ascii.eqb a "/" || Ascii.eqb a "\".

Definition ends_authority (a : ascii) : bool :=
  is_slash a || Ascii.eqb a "?" || Ascii.eqb a "#".

Definition host_of_authority (rest : string) : string :=
  take_until (Ascii.eqb ":") (after_userinfo (take_until ends_authority rest)).

Definition is_special_scheme (scheme : string) : bool :=
  bool_decide (scheme ∈ ["http"; "https"; "ws"; "wss"; "ftp"]).

Definition sample_URL_hostname (url : string) : completion string :=
  match split_scheme url with
  | Some (String a scheme', rest) =>
      let scheme := String a scheme' in
      if negb (is_alpha a) then Throw "TypeError: Invalid URL"
      else if is_special_scheme scheme then
        let hostname := lower_case (host_of_authority (drop_while is_slash rest)) in
        if string_falsy hostname then Throw "TypeError: Invalid URL" else Normal hostname
      else if String.prefix "//" rest then
        Normal (host_of_authority (String.substring 2 (String.length rest) rest))
      else Normal EmptyString
  | _ => Throw "TypeError: Invalid URL"
  end.

Inductive regex : Type :=
| r_empty
| r_char (c : ascii)
| r_any
| r_class (negated : bool) (ranges : list (ascii * ascii))
| r_seq (r1 r2 : regex)
| r_alt (r1 r2 : regex)
| r_star (r : regex)
| r_bol
| r_eol.

Fixpoint parse_class_items (s : string) (acc : list (ascii * ascii))
  : completion (list (ascii * ascii) * string) :=
  match s with
  | EmptyString => Throw "SyntaxError: Unterminated character class"
  | String c s1 =>
      if Ascii.eqb c "]" then Normal (rev acc, s1)
      else
        match s1 with
        | String d s2 =>
            if Ascii.eqb c "\" then parse_class_items s2 ((d, d) :: acc)
            else
              match s2 with
              | String e s3 =>
                  if Ascii.eqb d "-" && negb (Ascii.eqb e "]") then
                    if (N_of_ascii e <? N_of_ascii c)%N
                    then Throw "SyntaxError: Range out of order in character class"
                    else parse_class_items s3 ((c, e) :: acc)
                  else parse_class_items s1 ((c, c) :: acc)
              | EmptyString => parse_class_items s1 ((c, c) :: acc)
              end
        | EmptyString => parse_class_items s1 ((c, c) :: acc)
        end
  end.

Definition parse_class (s : string) : completion (regex * string) :=
  match s with
  | String "^" s' =>
      let* p := parse_class_items s' [] in Normal (r_class true (fst p), snd p)
  | _ =>
      let* p := parse_class_items s [] in Normal (r_class false (fst p), snd p)
  end.

Definition is_quantifier (c : ascii) : bool :=
  Ascii.eqb c "*" || Ascii.eqb c "+" || Ascii.eqb c "?".

Definition parse_atom (group : string -> completion (regex * string)) (s : string)
  : completion (regex * string) :=
  match s with
  | EmptyString => Throw "SyntaxError: Unexpected end of pattern"
  | String c s' =>
      if Ascii.eqb c "(" then
        let* p := group s' in
        match snd p with
        | String ")" s'' => Normal (fst p, s'')
        | _ => Throw "SyntaxError: Unterminated group"
        end
      else if Ascii.eqb c "[" then parse_class s'
      else if Ascii.eqb c "\" then
        match s' with
        | String d s'' => Normal (r_char d, s'')
        | EmptyString => Throw "SyntaxError: \ at end of pattern"
        end
      else if Ascii.eqb c "." then Normal (r_any, s')
      else if Ascii.eqb c "^" then Normal (r_bol, s')
      else if Ascii.eqb c "$" then Normal (r_eol, s')
      else if is_quantifier c then Throw "SyntaxError: Nothing to repeat"
      else Normal (r_char c, s')
  end.

(** A lazy quantifier accepts what the greedy one accepts. *)
Definition skip_lazy (s : string) : string :=
  match s with
  | String "?" s' => s'
  | _ => s
  end.

Definition parse_quantified (group : string -> completion (regex * string)) (s : string)
  : completion (regex * string) :=
  let* p := parse_atom group s in
  match snd p with
  | String "*" s' => Normal (r_star (fst p), skip_lazy s')
  | String "+" s' => Normal (r_seq (fst p) (r_star (fst p)), skip_lazy s')
  | String "?" s' => Normal (r_alt (fst p) r_empty, skip_lazy s')
  | _ => Normal p
  end.

Fixpoint parse_seq (fuel : nat) (group : string -> completion (regex * string))
  (s : string) : completion (regex * string) :=
  match s with
  | EmptyString => Normal (r_empty, s)
  | String c _ =>
      if Ascii.eqb c ")" || Ascii.eqb c "|" then Normal (r_empty, s)
      else
        match fuel with
        | O => Throw "SyntaxError: Pattern too long"
        | S fuel' =>
            let* p := parse_quantified group s in
            let* q := parse_seq fuel' group (snd p) in
            Normal (r_seq (fst p) (fst q), snd q)
        end
  end.

Fixpoint parse_alt (fuel : nat) (group : string -> completion (regex * string))
  (s : string) : completion (regex * string) :=
  match fuel with
  | O => Throw "SyntaxError: Pattern too long"
  | S fuel' =>
      let* p := parse_seq (String.length s) group s in
      match snd p with
      | String "|" s' =>
          let* q := parse_alt fuel' group s' in Normal (r_alt (fst p) (fst q), snd q)
      | _ => Normal p
      end
  end.

Fixpoint parse_disjunction (depth : nat) (s : string) : completion (regex * string) :=
  match depth with
  | O => Throw "SyntaxError: Pattern too long"
  | S depth' => parse_alt (S (String.length s)) (parse_disjunction depth') s
  end.

Definition sample_RegExp_new (pattern : string) : completion regex :=
  let* p := parse_disjunction (S (String.length pattern)) pattern in
  match snd p with
  | EmptyString => Normal (fst p)
  | _ => Throw "SyntaxError: Unmatched ')'"
  end.

Definition in_ranges (c : ascii) (ranges : list (ascii * ascii)) : bool :=
  existsb (fun r => ascii_in (N_of_ascii (fst r)) (N_of_ascii (snd r)) c) ranges.

Definition is_line_terminator (c : ascii) : bool :=
  ascii_in 10 10 c || ascii_in 13 13 c.

(** Backtracking matcher: [r] matches a prefix of [s] and [k] accepts the
    rest; [bol] tells whether [s] starts the input. *)
Fixpoint rmatch (r : regex) (bol : bool) (s : string) (k : bool -> string -> bool) : bool :=
  match r with
  | r_empty => k bol s
  | r_char c =>
      match s with
      | String a s' => Ascii.eqb a c && k false s'
      | EmptyString => false
      end
  | r_any =>
      match s with
      | String a s' => negb (is_line_terminator a) && k false s'
      | EmptyString => false
      end
  | r_class negated ranges =>
      match s with
      | String a s' => xorb negated (in_ranges a ranges) && k false s'
      | EmptyString => false
      end
  | r_seq r1 r2 => rmatch r1 bol s (fun b s' => rmatch r2 b s' k)
  | r_alt r1 r2 => rmatch r1 bol s k || rmatch r2 bol s k
  | r_star r1 =>
      (fix loop (fuel : nat) (b : bool) (s0 : string) : bool :=
         k b s0 ||
         match fuel with
         | O => false
         | S fuel' =>
             rmatch r1 b s0
               (fun b' s' => (String.length s' <? String.length s0)%nat && loop fuel' b' s')
         end) (String.length s) bol s
  | r_bol => bol && k bol s
  | r_eol => match s with EmptyString => k bol s | String _ _ => false end
  end.

(** [regex.test(s)]: some substring of [s] matches. *)
Fixpoint search (r : regex) (bol : bool) (s : string) : bool :=
  rmatch r bol s (fun _ _ => true) ||
  match s with
  | EmptyString => false
  | String _ s' => search r false s'
  end.

(** An element as the content script describes it; [JSON.stringify] throws
    on a value that refers to itself. *)
Record SampleElement : Type := {
  element_text : string;
  element_href : option string;
  element_circular : bool
}.

Definition sample_JSON_stringify (e : SampleElement) (timestamp : Z) : completion string :=
  if element_circular e then Throw "Converting circular structure to JSON"
  else Normal ("DOM_ELEMENT_POINTED " +:+ element_text e).

Definition sample_platform : Platform :=
  {| RegExp := regex;
     RegExp_new := sample_RegExp_new;
     RegExp_test := fun r s => Normal (search r true s);
     URL_hostname := sample_URL_hostname;
     RawPointedDOMElement := SampleElement;
     element_url := element_href;
     JSON_stringify := sample_JSON_stringify |}.

Example sample_hostname_ip :
  sample_URL_hostname "https://10.0.0.5:22002/x" = Normal "10.0.0.5".
Proof. reflexivity. Qed.

Example sample_hostname_file : sample_URL_hostname "file:///tmp/x.html" = Normal "".
Proof. reflexivity. Qed.

Example sample_hostname_invalid : sample_URL_hostname "not a url" = Throw "TypeError: Invalid URL".
Proof. reflexivity. Qed.

Example sample_regexp_invalid :
  sample_RegExp_new "([" = Throw "SyntaxError: Unterminated character class".
Proof. reflexivity. Qed.

Example sample_regexp_test :
  (let* r := sample_RegExp_new "^https?://[a-z.]+:30(0|1)[0-9]/" in
   Normal (search r true "http://localhost:3015/app", search r true "http://localhost:3115/app"))
  = Normal (true, false).
Proof. reflexivity. Qed.

(** *** Sample data *)

(** A configuration with the default endpoint d:7007. *)
Definition sample_config (autoRouting : bool) (routes : list RouteConfig) : ExtensionConfig :=
  {| config_enabled := true; autoRouting := autoRouting;
     websocket := {| websocket_host := "d"; websocket_port := int 7007 |};
     routes := routes |}.

Definition sample_route : RouteConfig :=
  {| route_id := "dentistry"; route_name := "DentistryGPT"; pattern := "22002";
     patternType := port_pattern; mcpPort := int 7022; enabled := true |}.

Definition sample_element : RawPointedDOMElement (Platform := sample_platform) :=
  {| element_text := "button#save"; element_href := None; element_circular := false |}.

(** A call for 10.0.0.5:7022 at time 0, left waiting for its socket. *)
Definition sample_waiting : State (P := sample_platform) :=
  after (P := sample_platform) new_ElementSenderService 0
    (call_sendElement (P := sample_platform) sample_element "10.0.0.5" (int 7022)).

(** Its socket opens at time 5: the element is sent and the idle timer is
    set for time 10005. *)
Definition sample_connected : State (P := sample_platform) :=
  after sample_waiting 5 (socket_open 0%nat).

(** The script with one rule, and a tab on a page the rule matches. *)
Definition sample_background : Background (P := sample_platform) :=
  {| currentConfig := sample_config true [sample_route];
     activeRoutes := ∅;
     elementSender := new_ElementSenderService;
     responses := [] |}.


(** An element that [JSON.stringify] rejects. *)
Definition sample_circular : RawPointedDOMElement (Platform := sample_platform) :=
  {| element_text := "body"; element_href := None; element_circular := true |}.

(** From [sample_connected], a call for another target, 10.0.0.9:7033. *)
Definition sample_switched : State (P := sample_platform) :=
  after sample_connected 100 (call_sendElement sample_element "10.0.0.9" (int 7033)).

(** Three calls before any socket opens: a second one for 10.0.0.5:7022 at
    time 1 and one for 10.0.0.9:7033 at time 2. *)
Definition sample_crossed : State (P := sample_platform) :=
  after (after sample_waiting 1 (call_sendElement sample_element "10.0.0.5" (int 7022))) 2
    (call_sendElement sample_element "10.0.0.9" (int 7033)).

(** Another element, pointed in a page of 10.0.0.9. *)
Definition sample_link : RawPointedDOMElement (Platform := sample_platform) :=
  {| element_text := "a#pricing"; element_href := None; element_circular := false |}.

(** From [sample_connected], where an element was sent to 10.0.0.5:7022:
    two calls for 10.0.0.9:7033 at times 1000 and 2000 and a call for
    10.0.0.5:7022 at time 3000, before any of their sockets opens. *)
Definition sample_overlapping : State (P := sample_platform) :=
  after (after (after sample_connected 1000 (call_sendElement sample_link "10.0.0.9" (int 7033)))
           2000 (call_sendElement sample_link "10.0.0.9" (int 7033)))
    3000 (call_sendElement sample_element "10.0.0.5" (int 7022)).

(** Then the socket of the last call opens at time 3050, and the socket of
    the first call for 10.0.0.9:7033 at time 4000. *)
Definition sample_misrouted : State (P := sample_platform) :=
  after (after sample_overlapping 3050 (socket_open 3%nat)) 4000 (socket_open 1%nat).

(** Two calls for 10.0.0.5:7022 at times 0 and 500, whose sockets open at
    times 800 and 900. *)
Definition sample_doubled : State (P := sample_platform) :=
  after (after (after sample_waiting 500 (call_sendElement sample_element "10.0.0.5" (int 7022)))
           800 (socket_open 0%nat))
    900 (socket_open 1%nat).

(** Then a call for 10.0.0.9:7033 at time 3000, whose socket opens at time
    3050. *)
Definition sample_stale : State (P := sample_platform) :=
  after (after sample_doubled 3000 (call_sendElement sample_link "10.0.0.9" (int 7033)))
    3050 (socket_open 2%nat).


Definition sample_build : Build :=
  {| IS_DEV := false; LogLevel := nat; LogLevel_DEBUG := 0%nat |}.

Definition sample_kommu : RouteConfig :=
  {| route_id := "kommu"; route_name := "Kommu"; pattern := "33001";
     patternType := port_pattern; mcpPort := int 7033; enabled := true |}.

(** A stored configuration with a route of the earlier interface. *)
Definition sample_stored : StoredConfig (B := sample_build) :=
  {| stored_enabled := Some true;
     stored_autoRouting := Some false;
     stored_websocket := None;
     stored_routes :=
       Some [route_with_host_port "dentistry" "DentistryGPT" "22002" port_pattern
               "72.61.197.216" (int 7022) true;
             route_with_mcpPort sample_kommu];
     stored_logger := None;
     stored_version := None |}.

Definition sample_storage : Storage (B := sample_build) :=
  {| content := Some sample_stored; get_error := None; set_error := None |}.

Definition sample_unreadable : Storage (B := sample_build) :=
  {| content := Some sample_stored; get_error := Some "read failed"; set_error := None |}.

Definition sample_full_config : FullConfig (B := sample_build) :=
  {| settings := sample_config true [sample_route; sample_kommu];
     logger := Build_LoggerConfig (B := sample_build) true 2%nat |}.

(** * Properties *)

(** ** Strings *)

Lemma append_cons (c : ascii) (a b : string) : String c a +:+ b = String c (a +:+ b).
Proof. reflexivity. Qed.

Lemma prefix_spec (p s : string) :
  String.prefix p s = true <-> exists b, s = p +:+ b.
Proof.
  revert s. induction p as [|a p IH]; intros s.
  - split; [intros _; exists s; reflexivity | intros _; destruct s; reflexivity].
  - destruct s as [|c s]; simpl.
    + split; [discriminate | intros [b Hb]; discriminate].
    + destruct (ascii_dec a c) as [->|Hne].
      * rewrite IH. split; intros [b Hb]; exists b; rewrite append_cons in *; congruence.
      * split; [discriminate | intros [b Hb]; rewrite append_cons in Hb; congruence].
Qed.

Lemma includes_spec (s p : string) :
  includes s p = true <-> exists a b, s = a +:+ p +:+ b.
Proof.
  induction s as [|c s IH].
  - cbn [includes]. rewrite orb_false_r, prefix_spec. split.
    + intros [b Hb]. exists EmptyString, b. exact Hb.
    + intros [a [b Hab]]. destruct a as [|x a]; [exists b; exact Hab | discriminate].
  - cbn [includes]. rewrite orb_true_iff, prefix_spec, IH. split.
    + intros [[b Hb]|[a [b Hab]]].
      * exists EmptyString, b. exact Hb.
      * exists (String c a), b. rewrite append_cons. congruence.
    + intros [a [b Hab]]. destruct a as [|x a].
      * left. exists b. exact Hab.
      * right. exists a, b. rewrite append_cons in Hab. congruence.
Qed.

Lemma includes_empty (s : string) : includes s "" = true.
Proof. apply includes_spec. exists EmptyString, s. reflexivity. Qed.

(** ** Route matching *)

Section RoutingFacts.
Context {P : Platform}.

(** The pattern test never throws: the [catch] of the [regex] case turns an
    exception into [false]. *)
Lemma route_matches_normal (url : string) (route : RouteConfig) :
  exists b, route_matches url route = Normal b.
Proof.
  unfold route_matches. destruct (patternType route); eauto.
  destruct (RegExp_new (pattern route)) as [regex|m]; simpl; eauto.
  destruct (RegExp_test regex url) as [b|m]; simpl; eauto.
Qed.

(** A rule the loop passes over: it is disabled or its test does not
    succeed. *)
Definition skipped (url : string) (route : RouteConfig) : Prop :=
  enabled route = false \/ route_matches url route <> Normal true.

Lemma findMatchingRoute_skip (url : string) (route : RouteConfig) (rest : list RouteConfig) :
  skipped url route ->
  findMatchingRoute url (route :: rest) = findMatchingRoute url rest.
Proof.
  intros [Hd|Hm]; cbn [findMatchingRoute].
  - rewrite Hd. reflexivity.
  - destruct (enabled route); [|reflexivity]. cbn [negb].
    destruct (route_matches_normal url route) as [[|] Hb]; rewrite Hb in *; simpl.
    + congruence.
    + reflexivity.
Qed.

Lemma findMatchingRoute_hit (url : string) (route : RouteConfig) (rest : list RouteConfig) :
  enabled route = true -> route_matches url route = Normal true ->
  findMatchingRoute url (route :: rest) = Normal (Some route).
Proof.
  intros He Hm. cbn [findMatchingRoute]. rewrite He, Hm. reflexivity.
Qed.

Lemma skipped_dec (url : string) (route : RouteConfig) :
  skipped url route \/ (enabled route = true /\ route_matches url route = Normal true).
Proof.
  unfold skipped. destruct (enabled route); [|left; left; reflexivity].
  destruct (route_matches_normal url route) as [[|] Hb]; rewrite Hb.
  - right. split; reflexivity.
  - left. right. discriminate.
Qed.

Lemma findMatchingRoute_skip_prefix (url : string) (before rest : list RouteConfig) :
  Forall (skipped url) before ->
  findMatchingRoute url (before ++ rest) = findMatchingRoute url rest.
Proof.
  induction 1 as [|r before Hr _ IH]; [reflexivity|].
  rewrite <- app_comm_cons, findMatchingRoute_skip by exact Hr. exact IH.
Qed.

Lemma findMatchingRoute_some (url : string) (routes : list RouteConfig) (r : RouteConfig) :
  findMatchingRoute url routes = Normal (Some r) <->
  exists before after,
    routes = before ++ r :: after /\ Forall (skipped url) before /\
    enabled r = true /\ route_matches url r = Normal true.
Proof.
  split.
  - induction routes as [|x routes IH]; [discriminate|]. intros H.
    destruct (skipped_dec url x) as [Hs|[He Hm]].
    + rewrite findMatchingRoute_skip in H by exact Hs.
      destruct (IH H) as (before & after & -> & Hb & He & Hm).
      exists (x :: before), after. repeat split; auto.
    + rewrite (findMatchingRoute_hit _ _ _ He Hm) in H. injection H as ->.
      exists [], routes. repeat split; auto.
  - intros (before & after & -> & Hb & He & Hm).
    rewrite findMatchingRoute_skip_prefix by exact Hb.
    apply findMatchingRoute_hit; assumption.
Qed.

Lemma findMatchingRoute_none (url : string) (routes : list RouteConfig) :
  findMatchingRoute url routes = Normal None <-> Forall (skipped url) routes.
Proof.
  induction routes as [|x routes IH].
  - split; [constructor | reflexivity].
  - destruct (skipped_dec url x) as [Hs|[He Hm]].
    + rewrite findMatchingRoute_skip by exact Hs. rewrite IH. split.
      * intros H. constructor; assumption.
      * intros H. inversion H; assumption.
    + rewrite (findMatchingRoute_hit _ _ _ He Hm). split; [discriminate|].
      intros H. inversion H as [|? ? [Hd|Hn] _]; congruence.
Qed.

Lemma findMatchingRoute_normal (url : string) (routes : list RouteConfig) :
  exists result, findMatchingRoute url routes = Normal result.
Proof.
  induction routes as [|x routes [res IH]]; [eexists; reflexivity|].
  destruct (skipped_dec url x) as [Hs|[He Hm]].
  - rewrite findMatchingRoute_skip by exact Hs. eauto.
  - rewrite (findMatchingRoute_hit _ _ _ He Hm). eauto.
Qed.

(** C1. For every URL and every ordered rule list, [findMatchingRoute]
    returns the first enabled rule, in list order, whose pattern test
    succeeds: a rule is returned exactly when every rule before it is
    disabled or fails its test, whatever the rules after it are (they are
    not looked at); it returns [null] exactly when no enabled rule's test
    succeeds; and it always returns. *)
Theorem findMatchingRoute_first_enabled_match (url : string) (routes : list RouteConfig) :
  (forall r,
     findMatchingRoute url routes = Normal (Some r) <->
     exists before after,
       routes = before ++ r :: after /\
       Forall (fun r' => enabled r' = false \/ route_matches url r' <> Normal true) before /\
       enabled r = true /\ route_matches url r = Normal true) /\
  (forall before r after after',
     routes = before ++ r :: after ->
     Forall (fun r' => enabled r' = false \/ route_matches url r' <> Normal true) before ->
     enabled r = true -> route_matches url r = Normal true ->
     findMatchingRoute url (before ++ r :: after') = findMatchingRoute url routes) /\
  (findMatchingRoute url routes = Normal None <->
   Forall (fun r' => enabled r' = false \/ route_matches url r' <> Normal true) routes) /\
  (exists result, findMatchingRoute url routes = Normal result).
Proof.
  repeat split.
  - intros H. apply findMatchingRoute_some in H. exact H.
  - intros H. apply findMatchingRoute_some. exact H.
  - intros before r after after' -> Hb He Hm.
    change (Forall (skipped url) before) in Hb.
    rewrite !findMatchingRoute_skip_prefix by exact Hb.
    rewrite !(findMatchingRoute_hit _ _ _ He Hm). reflexivity.
  - intros H. apply findMatchingRoute_none in H. exact H.
  - intros H. apply findMatchingRoute_none. exact H.
  - apply findMatchingRoute_normal.
Qed.

Lemma invalid_regex_no_match (url : string) (r : RouteConfig) (message : string) :
  patternType r = regex_pattern -> RegExp_new (pattern r) = Throw message ->
  route_matches url r = Normal false.
Proof.
  intros Ht Hn. unfold route_matches. rewrite Ht, Hn. reflexivity.
Qed.

Lemma findMatchingRoute_remove_skipped (url : string) (before after : list RouteConfig)
  (r : RouteConfig) :
  skipped url r ->
  findMatchingRoute url (before ++ r :: after) = findMatchingRoute url (before ++ after).
Proof.
  intros Hr. induction before as [|x before IH].
  - apply findMatchingRoute_skip. exact Hr.
  - rewrite <- !app_comm_cons. cbn [findMatchingRoute]. rewrite IH. reflexivity.
Qed.

(** C5. A rule of type [regex] whose pattern does not compile never makes
    [findMatchingRoute] throw: its test is [false], the rule is passed over,
    and the result is that of the list without it, wherever the rule stands
    in the list. *)
Theorem invalid_regex_rule_is_skipped (url : string) (before after : list RouteConfig)
  (r : RouteConfig) (message : string) :
  patternType r = regex_pattern ->
  RegExp_new (pattern r) = Throw message ->
  route_matches url r = Normal false /\
  findMatchingRoute url (before ++ r :: after) = findMatchingRoute url (before ++ after) /\
  exists result, findMatchingRoute url (before ++ r :: after) = Normal result.
Proof.
  intros Ht Hn. pose proof (invalid_regex_no_match url r message Ht Hn) as Hf.
  split; [exact Hf|]. split.
  - apply findMatchingRoute_remove_skipped. right. rewrite Hf. discriminate.
  - apply findMatchingRoute_normal.
Qed.

(** C10. An enabled rule whose pattern is the empty string: of type
    [contains] it matches every URL, of type [port] it matches exactly the
    URLs that contain a colon, so every URL with [://]; placed first it is
    the rule [findMatchingRoute] returns for these URLs. *)
Theorem empty_pattern_rule_matches (url : string) (r : RouteConfig) (rest : list RouteConfig) :
  enabled r = true ->
  pattern r = "" ->
  (patternType r = contains_pattern ->
   route_matches url r = Normal true /\
   findMatchingRoute url (r :: rest) = Normal (Some r)) /\
  (patternType r = port_pattern ->
   (route_matches url r = Normal true <-> exists a b, url = a +:+ ":" +:+ b) /\
   (findMatchingRoute url (r :: rest) = Normal (Some r) <-> exists a b, url = a +:+ ":" +:+ b) /\
   (forall scheme path, url = scheme +:+ "://" +:+ path ->
      findMatchingRoute url (r :: rest) = Normal (Some r))).
Proof.
  intros He Hp. split.
  - intros Ht.
    assert (Hm : route_matches url r = Normal true).
    { unfold route_matches. rewrite Ht, Hp, includes_empty. reflexivity. }
    split; [exact Hm | apply findMatchingRoute_hit; assumption].
  - intros Ht.
    assert (Hm : route_matches url r = Normal (includes url ":")).
    { unfold route_matches. rewrite Ht, Hp. reflexivity. }
    assert (Hiff : route_matches url r = Normal true <-> exists a b, url = a +:+ ":" +:+ b).
    { rewrite Hm, <- includes_spec. split; congruence. }
    assert (Hfind : findMatchingRoute url (r :: rest) = Normal (Some r) <->
                    exists a b, url = a +:+ ":" +:+ b).
    { rewrite <- Hiff. split.
      - intros H. apply findMatchingRoute_some in H.
        destruct H as (_ & _ & _ & _ & _ & H). exact H.
      - intros H. apply findMatchingRoute_hit; assumption. }
    split; [exact Hiff|]. split; [exact Hfind|].
    intros scheme path ->. apply Hfind. exists scheme, ("//" +:+ path). reflexivity.
Qed.

End RoutingFacts.

(** ** Endpoint resolution *)

Section EndpointFacts.
Context {P : Platform}.

Lemma extractHostFromUrl_normal (url : string) :
  extractHostFromUrl url =
  Normal match URL_hostname url with
         | Normal hostname => Some hostname
         | Throw _ => None
         end.
Proof. unfold extractHostFromUrl. destruct (URL_hostname url); reflexivity. Qed.


(** The host [getEndpointForUrl] settles on: the hostname of the URL, or
    the default host when the URL does not parse or has an empty hostname. *)
Definition resolved_host (currentConfig : ExtensionConfig) (url : string) : string :=
  match URL_hostname url with
  | Normal hostname =>
      if string_falsy hostname then websocket_host (websocket currentConfig) else hostname
  | Throw _ => websocket_host (websocket currentConfig)
  end.

(** C2, as amended. [getEndpointForUrl] always returns an endpoint. Its
    host is the hostname of the URL, or the default host when the URL does
    not parse or its hostname is empty. Its port is the default port, with
    no route, when [autoRouting] is off or no rule matches; it is the
    [mcpPort] of the matched rule, returned as the route, when
    [autoRouting] is on and a rule matches. *)
Theorem getEndpointForUrl_resolves (currentConfig : ExtensionConfig) (url : string) :
  exists e,
    getEndpointForUrl currentConfig url = Normal e /\
    endpoint_host e = resolved_host currentConfig url /\
    (forall hostname, URL_hostname url = Normal hostname -> hostname <> "" ->
       endpoint_host e = hostname) /\
    (forall message, URL_hostname url = Throw message ->
       endpoint_host e = websocket_host (websocket currentConfig)) /\
    (URL_hostname url = Normal "" ->
       endpoint_host e = websocket_host (websocket currentConfig)) /\
    (autoRouting currentConfig = false \/
     findMatchingRoute url (routes currentConfig) = Normal None ->
       endpoint_port e = websocket_port (websocket currentConfig) /\
       endpoint_route e = None) /\
    (forall rule,
       autoRouting currentConfig = true ->
       findMatchingRoute url (routes currentConfig) = Normal (Some rule) ->
       endpoint_port e = mcpPort rule /\ endpoint_route e = Some rule).
Proof.
  unfold getEndpointForUrl. rewrite extractHostFromUrl_normal. cbn [bind].
  set (h := default _ _).
  assert (Hh : h = resolved_host currentConfig url).
  { unfold h, resolved_host. destruct (URL_hostname url) as [hostname|m]; [|reflexivity].
    simpl. destruct hostname; reflexivity. }
  assert (Hhost :
    (forall hostname, URL_hostname url = Normal hostname -> hostname <> "" -> h = hostname) /\
    (forall message, URL_hostname url = Throw message ->
       h = websocket_host (websocket currentConfig)) /\
    (URL_hostname url = Normal "" -> h = websocket_host (websocket currentConfig))).
  { rewrite Hh. unfold resolved_host. repeat split.
    - intros hostname -> Hne. destruct hostname; [congruence | reflexivity].
    - intros message ->. reflexivity.
    - intros ->. reflexivity. }
  destruct Hhost as (H1 & H2 & H3).
  destruct (autoRouting currentConfig) eqn:Hauto; cbn [negb].
  - destruct (findMatchingRoute_normal url (routes currentConfig)) as [[rule|] Hfind];
      rewrite Hfind; cbn [bind]; eexists; (split; [reflexivity|]);
      cbn [endpoint_host endpoint_port endpoint_route];
      (split; [exact Hh|]); (split; [exact H1|]); (split; [exact H2|]);
      (split; [exact H3|]); split.
    + intros [?|?]; congruence.
    + intros rule' _ Hr. injection Hr as <-. split; reflexivity.
    + intros _. split; reflexivity.
    + intros rule' _ Hr. discriminate Hr.
  - eexists; (split; [reflexivity|]);
      cbn [endpoint_host endpoint_port endpoint_route];
      (split; [exact Hh|]); (split; [exact H1|]); (split; [exact H2|]);
      (split; [exact H3|]); split.
    + intros _. split; reflexivity.
    + intros rule' Hr. discriminate Hr.
Qed.

End EndpointFacts.

Example getEndpointForUrl_autoRouting_off :
  getEndpointForUrl (P := sample_platform) (sample_config false [sample_route])
    "https://10.0.0.5:22002/x"
  = Normal {| endpoint_host := "10.0.0.5"; endpoint_port := int 7007; endpoint_route := None |}.
Proof. reflexivity. Qed.

Example getEndpointForUrl_autoRouting_on :
  getEndpointForUrl (P := sample_platform) (sample_config true [sample_route])
    "https://10.0.0.5:22002/x"
  = Normal {| endpoint_host := "10.0.0.5"; endpoint_port := int 7022;
              endpoint_route := Some sample_route |}.
Proof. reflexivity. Qed.

(** C2 as stated fails on a URL that parses with an empty hostname: the
    host returned is the default host, not the hostname of the URL. *)
Lemma getEndpointForUrl_empty_hostname :
  URL_hostname (Platform := sample_platform) "file:///tmp/x.html" = Normal "" /\
  exists e,
    getEndpointForUrl (P := sample_platform) (sample_config true []) "file:///tmp/x.html"
      = Normal e /\
    endpoint_host e = "d" /\
    ~ (forall hostname,
         URL_hostname (Platform := sample_platform) "file:///tmp/x.html" = Normal hostname ->
         endpoint_host e = hostname).
Proof.
  split; [reflexivity|]. eexists. split; [reflexivity|]. split; [reflexivity|].
  intros H. specialize (H "" eq_refl). discriminate H.
Qed.

(** A list with an ill-formed pattern in front of a rule that matches. *)
Lemma invalid_regex_rule_is_skipped_witness :
  let bad := {| route_id := "bad"; route_name := "Bad"; pattern := "([";
                patternType := regex_pattern; mcpPort := int 7001; enabled := true |} in
  route_matches (P := sample_platform) "https://10.0.0.5:22002/x" bad = Normal false /\
  findMatchingRoute (P := sample_platform) "https://10.0.0.5:22002/x" ([] ++ bad :: [sample_route])
    = findMatchingRoute (P := sample_platform) "https://10.0.0.5:22002/x" ([] ++ [sample_route]) /\
  exists result,
    findMatchingRoute (P := sample_platform) "https://10.0.0.5:22002/x" ([] ++ bad :: [sample_route])
      = Normal result.
Proof.
  intros bad.
  apply (invalid_regex_rule_is_skipped (P := sample_platform) "https://10.0.0.5:22002/x"
           [] [sample_route] bad "SyntaxError: Unterminated character class");
    reflexivity.
Defined.

Lemma empty_pattern_rule_matches_witness :
  let r := {| route_id := "all"; route_name := "All"; pattern := "";
              patternType := port_pattern; mcpPort := int 7001; enabled := true |} in
  let url := "https://10.0.0.5:22002/x" in
  (patternType r = contains_pattern ->
   route_matches (P := sample_platform) url r = Normal true /\
   findMatchingRoute (P := sample_platform) url (r :: [sample_route]) = Normal (Some r)) /\
  (patternType r = port_pattern ->
   (route_matches (P := sample_platform) url r = Normal true <-> exists a b, url = a +:+ ":" +:+ b) /\
   (findMatchingRoute (P := sample_platform) url (r :: [sample_route]) = Normal (Some r)
    <-> exists a b, url = a +:+ ":" +:+ b) /\
   (forall scheme path, url = scheme +:+ "://" +:+ path ->
      findMatchingRoute (P := sample_platform) url (r :: [sample_route]) = Normal (Some r))).
Proof.
  intros r url.
  apply (empty_pattern_rule_matches (P := sample_platform) url r [sample_route]); reflexivity.
Defined.

(** ** The element sender *)

Ltac unfold_setters :=
  cbn [statusCallback emit set_ws set_current set_idleTimeout set_sockets
       set_timers set_waits set_next_send set_clock socket_close
       new_ReconnectingWebSocket startIdleTimer
       ws currentHost currentPort idleTimeout sockets next_socket timers next_timer
       waits next_send clock trace fst snd] in *.

Section SenderFacts.
Context {P : Platform}.

Lemma step_after (σ : State) (t : Z) (ev : Event) :
  can_happen σ t ev = true -> step σ t ev = Some (after σ t ev).
Proof. unfold can_happen, after. destruct (step σ t ev); [reflexivity | discriminate]. Qed.

Lemma step_cannot (σ : State) (t : Z) (ev : Event) :
  can_happen σ t ev = false -> step σ t ev = None.
Proof. unfold can_happen. destruct (step σ t ev); [discriminate | reflexivity]. Qed.

(** What [clearIdleTimer] and [disconnect] add to the trace. *)
Definition cleared (σ : State) : list Obs :=
  match idleTimeout σ with
  | Some timer => [timer_cleared timer]
  | None => []
  end.

Definition closed (σ : State) : list Obs :=
  match ws σ with
  | Some s => [socket_close_called s]
  | None => []
  end.

Definition timers_after_clear (σ : State) : gmap nat Z :=
  match idleTimeout σ with
  | Some timer => delete timer (timers σ)
  | None => timers σ
  end.

Definition sockets_after_close (σ : State) : gmap nat Socket :=
  match ws σ with
  | Some s => alter (with_readyState WS_CLOSING) s (sockets σ)
  | None => sockets σ
  end.

Lemma clearIdleTimer_eq (σ : State) :
  clearIdleTimer σ =
  {| ws := ws σ; currentHost := currentHost σ; currentPort := currentPort σ;
     idleTimeout := None; sockets := sockets σ; next_socket := next_socket σ;
     timers := timers_after_clear σ; next_timer := next_timer σ; waits := waits σ;
     next_send := next_send σ; clock := clock σ; trace := trace σ ++ cleared σ |}.
Proof.
  unfold clearIdleTimer, timers_after_clear, cleared.
  destruct σ as [w h p [i|] sk ns tm nt wt nd c tr]; cbn; [reflexivity|].
  rewrite app_nil_r. reflexivity.
Qed.

Lemma disconnect_eq (σ : State) :
  disconnect σ =
  {| ws := None; currentHost := currentHost σ; currentPort := currentPort σ;
     idleTimeout := None; sockets := sockets_after_close σ; next_socket := next_socket σ;
     timers := timers_after_clear σ; next_timer := next_timer σ; waits := waits σ;
     next_send := next_send σ; clock := clock σ;
     trace := trace σ ++ cleared σ ++ closed σ |}.
Proof.
  unfold disconnect. rewrite clearIdleTimer_eq. unfold sockets_after_close, closed.
  cbn [ws]. destruct (ws σ); unfold set_ws, socket_close, set_sockets, emit; unfold_setters.
  - rewrite <- ?app_assoc. reflexivity.
  - rewrite app_nil_r. reflexivity.
Qed.


Lemma statuses_of_app (k : nat) (l1 l2 : list Obs) :
  statuses_of k (l1 ++ l2) = statuses_of k l1 ++ statuses_of k l2.
Proof. apply omap_app. Qed.

Lemma statuses_of_cleared (k : nat) (σ : State) : statuses_of k (cleared σ) = [].
Proof. unfold cleared. destruct (idleTimeout σ); reflexivity. Qed.

Lemma statuses_of_closed (k : nat) (σ : State) : statuses_of k (closed σ) = [].
Proof. unfold closed. destruct (ws σ); reflexivity. Qed.

(** The sequences of statuses a call that is over was told. *)
Definition final_sequences : list (list ConnectionStatus) :=
  [ [ERROR];
    [CONNECTING; ERROR];
    [CONNECTING; CONNECTED; SENDING; SENT];
    [CONNECTING; CONNECTED; SENDING; ERROR];
    [CONNECTED; SENDING; SENT];
    [CONNECTED; SENDING; ERROR] ].

(** What holds of the fields in every state the service reaches: the
    socket in [ws] exists and was built for the current target; timers and
    sockets are numbered below the next one; each suspended call waits on a
    socket of its own. *)
Record Inv_s (σ : State) : Prop := {
  inv_ws : forall s, ws σ = Some s ->
    (s < next_socket σ)%nat /\
    exists sk, sockets σ !! s = Some sk /\
      currentHost σ = Some (socket_host sk) /\ currentPort σ = Some (socket_port sk);
  inv_idle : forall timer, idleTimeout σ = Some timer -> (timer < next_timer σ)%nat;
  inv_timers : forall timer due, timers σ !! timer = Some due -> (timer < next_timer σ)%nat;
  inv_waits : forall s w, waits σ !! s = Some w ->
    (s < next_socket σ)%nat /\ (wait_send w < next_send σ)%nat;
  inv_waits_inj : forall s s' w w',
    waits σ !! s = Some w -> waits σ !! s' = Some w' -> wait_send w = wait_send w' -> s = s'
}.

Lemma Inv_s_new : Inv_s new_ElementSenderService.
Proof.
  constructor; cbn; intros; try discriminate.
  all: rewrite lookup_empty in *; discriminate.
Qed.

Lemma timers_after_clear_Some (σ : State) (timer : nat) (due : Z) :
  timers_after_clear σ !! timer = Some due -> timers σ !! timer = Some due.
Proof.
  unfold timers_after_clear. destruct (idleTimeout σ); [|auto].
  rewrite lookup_delete_Some. tauto.
Qed.

Lemma sockets_after_close_Some (σ : State) (s : nat) (sk : Socket) :
  sockets_after_close σ !! s = Some sk ->
  exists sk0, sockets σ !! s = Some sk0 /\
    socket_host sk = socket_host sk0 /\ socket_port sk = socket_port sk0.
Proof.
  unfold sockets_after_close. destruct (ws σ) as [s0|]; [|eauto].
  rewrite lookup_alter. destruct (decide (s0 = s)) as [->|Hne].
  - destruct (sockets σ !! s) as [sk0|]; simpl; [|discriminate].
    intros [= <-]. eauto.
  - eauto.
Qed.

Ltac inv_s_start H :=
  destruct H as [Hws Hidle Htimers Hwaits Hinj]; constructor; unfold_setters.

Lemma Inv_s_set_clock (σ : State) (t : Z) : Inv_s σ -> Inv_s (set_clock t σ).
Proof. intros H. inv_s_start H; assumption. Qed.

Lemma Inv_s_emit (σ : State) (o : Obs) : Inv_s σ -> Inv_s (emit o σ).
Proof. intros H. inv_s_start H; assumption. Qed.

Lemma Inv_s_set_next_send (σ : State) : Inv_s σ -> Inv_s (set_next_send (S (next_send σ)) σ).
Proof.
  intros H. inv_s_start H; try assumption.
  intros s w Hw. destruct (Hwaits s w Hw). split; lia.
Qed.

Lemma Inv_s_clearIdleTimer (σ : State) : Inv_s σ -> Inv_s (clearIdleTimer σ).
Proof.
  intros H. rewrite clearIdleTimer_eq. inv_s_start H; try assumption.
  - discriminate.
  - intros timer due Ht. apply timers_after_clear_Some in Ht. eauto.
Qed.

Lemma Inv_s_disconnect (σ : State) : Inv_s σ -> Inv_s (disconnect σ).
Proof.
  intros H. rewrite disconnect_eq. inv_s_start H; try assumption.
  - discriminate.
  - discriminate.
  - intros timer due Ht. apply timers_after_clear_Some in Ht. eauto.
Qed.

Lemma Inv_s_startIdleTimer (σ : State) : Inv_s σ -> Inv_s (startIdleTimer σ).
Proof.
  intros H. unfold startIdleTimer. inv_s_start H; try assumption.
  - intros timer [= <-]. lia.
  - intros timer due. rewrite lookup_insert_Some. intros [[<- _]|[_ Ht]]; [lia|].
    apply Htimers in Ht. lia.
Qed.

Lemma Inv_s_fire (σ : State) (timer : nat) :
  Inv_s σ -> Inv_s (set_timers (delete timer (timers σ)) (next_timer σ) σ).
Proof.
  intros H. inv_s_start H; try assumption.
  intros timer' due. rewrite lookup_delete_Some. intros [_ Ht]. eauto.
Qed.

Lemma Inv_s_readyState (σ : State) (s : nat) (sk : Socket) (r : ReadyState) :
  sockets σ !! s = Some sk ->
  Inv_s σ -> Inv_s (set_sockets (<[s := with_readyState r sk]> (sockets σ)) (next_socket σ) σ).
Proof.
  intros Hs H. inv_s_start H; try assumption.
  intros s0 Hs0. destruct (Hws s0 Hs0) as (Hlt & sk0 & Hsk0 & Hh & Hp). split; [assumption|].
  destruct (decide (s = s0)) as [->|Hne].
  - rewrite lookup_insert_eq. eexists. split; [reflexivity|]. cbn. split; congruence.
  - rewrite lookup_insert_ne by assumption. eauto.
Qed.

Lemma Inv_s_resolve (σ : State) (s : nat) :
  Inv_s σ -> Inv_s (set_waits (delete s (waits σ)) σ).
Proof.
  intros H. inv_s_start H; try assumption.
  - intros s0 w. rewrite lookup_delete_Some. intros [_ Hw]. eauto.
  - intros s0 s1 w w'. rewrite !lookup_delete_Some. intros [_ Hw] [_ Hw']. eauto.
Qed.

Lemma Inv_s_first (σ : State) (h : string) (p : number) :
  ws σ = None -> Inv_s σ -> Inv_s (set_current h p σ).
Proof.
  intros Hn H. inv_s_start H; try assumption.
  intros s Hs. congruence.
Qed.

(** A new socket for the current target, and the call [k] left waiting on
    it. *)
Lemma Inv_s_attempt (σ : State) (h : string) (p : number) (w : Wait) :
  currentHost σ = Some h -> currentPort σ = Some p ->
  (wait_send w < next_send σ)%nat ->
  (forall s w', waits σ !! s = Some w' -> wait_send w' <> wait_send w) ->
  Inv_s σ ->
  Inv_s (set_waits (<[next_socket σ := w]> (waits σ)) (new_ReconnectingWebSocket h p σ)).
Proof.
  intros Hh Hp Hk Hnew H. unfold new_ReconnectingWebSocket. inv_s_start H; try assumption.
  - intros s [= <-]. split; [lia|]. rewrite lookup_insert_eq. eexists. split; [reflexivity|].
    cbn. split; assumption.
  - intros s w0. rewrite lookup_insert_Some. intros [[<- <-]|[_ Hw]].
    + split; lia.
    + destruct (Hwaits s w0 Hw). split; lia.
  - intros s s' w0 w1. rewrite !lookup_insert_Some.
    intros [[<- <-]|[Hne Hw]] [[<- <-]|[Hne' Hw']] Heq; try reflexivity.
    + exfalso. eapply Hnew; eauto.
    + exfalso. eapply Hnew; eauto.
    + eauto.
Qed.

(** *** [sendElement], branch by branch *)

Definition validation_error (host : string) : StatusError :=
  if host_invalid host then Invalid_host else Invalid_port_number.

(** The state [handleConnectionChange] leaves when it accepts the target. *)
Definition after_change (host : string) (port : number) (σ : State) : State :=
  if bool_decide (currentHost σ = None) && bool_decide (currentPort σ = None)
  then set_current host port σ
  else if negb (bool_decide (currentHost σ = Some host))
          || negb (bool_decide (currentPort σ = Some port))
  then set_current host port (disconnect σ)
  else σ.

Lemma handleConnectionChange_invalid (k : nat) (host : string) (port : number) (σ : State) :
  host_invalid host = true \/ port_invalid port = true ->
  handleConnectionChange k host port σ
  = (false, statusCallback k ERROR (validation_error host) σ).
Proof.
  unfold handleConnectionChange, validation_error.
  destruct (host_invalid host); [reflexivity|]. intros [H|H]; [discriminate|].
  rewrite H. reflexivity.
Qed.

Lemma handleConnectionChange_valid (k : nat) (host : string) (port : number) (σ : State) :
  host_invalid host = false -> port_invalid port = false ->
  handleConnectionChange k host port σ = (true, after_change host port σ).
Proof.
  intros Hh Hp. unfold handleConnectionChange, after_change. rewrite Hh, Hp.
  repeat case_match; reflexivity.
Qed.

(** The call [k] as it is left waiting for its socket. *)
Definition waiting (k : nat) (element : RawPointedDOMElement) (host : string)
  (port : number) (σ : State) : Wait :=
  {| wait_send := k; wait_element := element; wait_host := host; wait_port := port;
     wait_due := clock σ + CONNECTION_TIMEOUT |}.

Lemma sendElement_invalid (element : RawPointedDOMElement) (host : string) (port : number)
  (σ : State) :
  host_invalid host = true \/ port_invalid port = true ->
  sendElement element host port σ
  = statusCallback (next_send σ) ERROR (validation_error host)
      (clearIdleTimer (set_next_send (S (next_send σ)) σ)).
Proof.
  intros H. unfold sendElement, ensureConnection.
  rewrite handleConnectionChange_invalid by exact H. reflexivity.
Qed.

Lemma isConnected_new_socket (host : string) (port : number) (σ : State) :
  isConnected (new_ReconnectingWebSocket host port σ) = false.
Proof.
  unfold isConnected, new_ReconnectingWebSocket. unfold_setters.
  rewrite lookup_insert_eq. reflexivity.
Qed.

Lemma sendElement_valid (element : RawPointedDOMElement) (host : string) (port : number)
  (σ : State) :
  host_invalid host = false -> port_invalid port = false ->
  let k := next_send σ in
  let σh := after_change host port (clearIdleTimer (set_next_send (S k) σ)) in
  sendElement element host port σ
  = if isConnected σh
    then sendElement_resume k element true (statusCallback k CONNECTED no_error σh)
    else set_waits (<[next_socket σh := waiting k element host port σh]> (waits σh))
           (new_ReconnectingWebSocket host port (statusCallback k CONNECTING no_error σh)).
Proof.
  intros Hh Hp k σh. unfold sendElement, ensureConnection.
  rewrite handleConnectionChange_valid by assumption. fold k. fold σh.
  destruct (isConnected σh); cbn [negb]; [reflexivity|].
  unfold waitForConnection.
  rewrite isConnected_new_socket. reflexivity.
Qed.

(** *** What a step adds to the trace *)

(** The call a step runs: the one being made, or the one that waits on
    the socket of the event. *)
Definition actor (σ : State) (ev : Event) : option nat :=
  match ev with
  | call_sendElement _ _ _ => Some (next_send σ)
  | socket_open s | connection_timer s => wait_send <$> waits σ !! s
  | _ => None
  end.


(** An observation that may be added when [a] is the call that runs (if
    any): statuses and frames are those of [a], frames go to a socket in
    [sending], [close] is called on a socket in [closing]. *)
Definition obs_ok (a : option nat) (sending closing : nat -> Prop) (o : Obs) : Prop :=
  match o with
  | status_callback k _ _ => a = Some k
  | socket_send_called s k _ => a = Some k /\ sending s
  | socket_close_called s => closing s
  | _ => True
  end.

(** From [σ] to [σ'] the trace grows by observations that are [obs_ok], and
    the statuses told to [a] are [sts]. *)
Definition acts (a : option nat) (sts : list ConnectionStatus)
  (sending closing : nat -> Prop) (σ σ' : State) : Prop :=
  exists Δ, trace σ' = trace σ ++ Δ /\
    Forall (obs_ok a sending closing) Δ /\
    forall k, a = Some k -> statuses_of k Δ = sts.

Section Acts.
Variable a : option nat.
Variables sending closing : nat -> Prop.

Lemma acts_silent (σ σ' : State) :
  trace σ' = trace σ -> acts a [] sending closing σ σ'.
Proof.
  intros H. exists []. rewrite app_nil_r. repeat split; [assumption | constructor].
Qed.

Lemma acts_trans (l1 l2 : list ConnectionStatus) (σ σ1 σ2 : State) :
  acts a l1 sending closing σ σ1 -> acts a l2 sending closing σ1 σ2 ->
  acts a (l1 ++ l2) sending closing σ σ2.
Proof.
  intros (Δ1 & H1 & F1 & S1) (Δ2 & H2 & F2 & S2). exists (Δ1 ++ Δ2).
  rewrite H2, H1, app_assoc. split; [reflexivity|]. split.
  - apply Forall_app. split; assumption.
  - intros k Hk. rewrite statuses_of_app, (S1 k Hk), (S2 k Hk). reflexivity.
Qed.

Lemma acts_status (k : nat) (st : ConnectionStatus) (e : StatusError) (σ : State) :
  a = Some k -> acts a [st] sending closing σ (statusCallback k st e σ).
Proof.
  intros Hk. exists [status_callback k st e]. split; [reflexivity|]. split.
  - repeat constructor. exact Hk.
  - intros k' Hk'. assert (k' = k) as -> by congruence.
    cbn. rewrite bool_decide_eq_true_2 by reflexivity. reflexivity.
Qed.

Lemma acts_clearIdleTimer (σ : State) : acts a [] sending closing σ (clearIdleTimer σ).
Proof.
  exists (cleared σ). rewrite clearIdleTimer_eq. split; [reflexivity|]. split.
  - unfold cleared. destruct (idleTimeout σ); repeat constructor.
  - intros k _. apply statuses_of_cleared.
Qed.

Lemma acts_disconnect (σ : State) :
  (forall s, ws σ = Some s -> closing s) ->
  acts a [] sending closing σ (disconnect σ).
Proof.
  intros Hc. exists (cleared σ ++ closed σ). rewrite disconnect_eq.
  split; [reflexivity|]. split.
  - apply Forall_app. split.
    + unfold cleared. destruct (idleTimeout σ); repeat constructor.
    + unfold closed. destruct (ws σ); repeat constructor. apply Hc. reflexivity.
  - intros k _. rewrite statuses_of_app, statuses_of_cleared, statuses_of_closed. reflexivity.
Qed.

Lemma acts_after_change (host : string) (port : number) (σ : State) :
  (forall s, ws σ = Some s -> closing s) ->
  acts a [] sending closing σ (after_change host port σ).
Proof.
  intros Hc. unfold after_change. repeat case_match.
  - apply acts_silent. reflexivity.
  - change [] with (@nil ConnectionStatus ++ []).
    eapply acts_trans; [apply acts_disconnect; exact Hc | apply acts_silent; reflexivity].
  - apply acts_silent. reflexivity.
Qed.

Lemma acts_startIdleTimer (σ : State) : acts a [] sending closing σ (startIdleTimer σ).
Proof.
  exists [timer_set (next_timer σ) (clock σ + IDLE_DURATION)].
  split; [reflexivity|]. split; [repeat constructor | intros; reflexivity].
Qed.

Lemma acts_new_socket (host : string) (port : number) (σ : State) :
  acts a [] sending closing σ (new_ReconnectingWebSocket host port σ).
Proof.
  exists [socket_created (next_socket σ) host port].
  split; [reflexivity|]. split; [repeat constructor | intros; reflexivity].
Qed.

(** The end of [sendElement] once connected: [SENDING], then [SENT] after
    the frame, or [ERROR]. *)
Lemma acts_resume (k : nat) (element : RawPointedDOMElement) (σ : State) :
  a = Some k ->
  (forall s, ws σ = Some s -> sending s) ->
  exists last, (last = SENT \/ last = ERROR) /\
    acts a [SENDING; last] sending closing σ (sendElement_resume k element true σ).
Proof.
  intros Hk Hs. unfold sendElement_resume. cbn [negb].
  assert (H1 : acts a [SENDING] sending closing σ
                 (statusCallback k SENDING no_error (startIdleTimer σ))).
  { change [SENDING] with ([] ++ [SENDING]).
    eapply acts_trans; [apply acts_startIdleTimer | apply acts_status; exact Hk]. }
  change (ws (statusCallback k SENDING no_error (startIdleTimer σ))) with (ws σ).
  change (clock (statusCallback k SENDING no_error (startIdleTimer σ))) with (clock σ).
  destruct (ws σ) as [s|] eqn:Hws.
  - destruct (JSON_stringify element (clock σ)) as [frame|m].
    + exists SENT. split; [left; reflexivity|].
      change [SENDING; SENT] with ([SENDING] ++ ([] ++ [SENT])).
      eapply acts_trans; [exact H1|]. eapply acts_trans; [|apply acts_status; exact Hk].
      exists [socket_send_called s k frame]. split; [reflexivity|]. split.
      * repeat constructor; [exact Hk | apply Hs; reflexivity].
      * intros; reflexivity.
    + exists ERROR. split; [right; reflexivity|].
      change [SENDING; ERROR] with ([SENDING] ++ [ERROR]).
      eapply acts_trans; [exact H1 | apply acts_status; exact Hk].
  - exists ERROR. split; [right; reflexivity|].
    change [SENDING; ERROR] with ([SENDING] ++ [ERROR]).
    eapply acts_trans; [exact H1 | apply acts_status; exact Hk].
Qed.

End Acts.

Lemma statuses_of_others (a : option nat) (sending closing : nat -> Prop)
  (Δ : list Obs) (k : nat) :
  Forall (obs_ok a sending closing) Δ -> a <> Some k -> statuses_of k Δ = [].
Proof.
  intros HF Hk. induction HF as [|o Δ Ho _ IH]; [reflexivity|].
  cbn. fold (statuses_of k Δ). rewrite IH.
  destruct o; try reflexivity. cbn in Ho.
  rewrite bool_decide_eq_false_2; [reflexivity | congruence].
Qed.

Lemma acts_statuses (a : option nat) (sts : list ConnectionStatus)
  (sending closing : nat -> Prop) (σ σ' : State) (k : nat) :
  acts a sts sending closing σ σ' ->
  statuses_of k (trace σ')
  = statuses_of k (trace σ) ++ (if bool_decide (a = Some k) then sts else []).
Proof.
  intros (Δ & -> & HF & HS). rewrite statuses_of_app. f_equal.
  destruct (decide (a = Some k)) as [Hk|Hk].
  - rewrite bool_decide_eq_true_2 by assumption. apply HS. exact Hk.
  - rewrite bool_decide_eq_false_2 by assumption. eapply statuses_of_others; eassumption.
Qed.

(** What holds of the trace in every state the service reaches: a call
    still waiting was told [CONNECTING] only, a call not yet made was told
    nothing, a call that is over was told one of [final_sequences]. *)
Record Inv_t (σ : State) : Prop := {
  inv_waiting : forall s w, waits σ !! s = Some w ->
    statuses_of (wait_send w) (trace σ) = [CONNECTING];
  inv_fresh : forall k, (next_send σ <= k)%nat -> statuses_of k (trace σ) = [];
  inv_done : forall k, (k < next_send σ)%nat ->
    (forall s w, waits σ !! s = Some w -> wait_send w <> k) ->
    statuses_of k (trace σ) ∈ final_sequences
}.

Definition Inv (σ : State) : Prop := Inv_s σ /\ Inv_t σ.

Lemma Inv_t_silent (σ σ' : State) :
  (forall k, statuses_of k (trace σ') = statuses_of k (trace σ)) ->
  waits σ' = waits σ -> next_send σ' = next_send σ ->
  Inv_t σ -> Inv_t σ'.
Proof.
  intros Ht Hw Hn [H1 H2 H3]. constructor; intros *; rewrite ?Ht, ?Hw, ?Hn; eauto.
Qed.

Lemma Inv_t_call_done (σ σ' : State) (sts : list ConnectionStatus) :
  (forall k, statuses_of k (trace σ')
             = statuses_of k (trace σ) ++ (if bool_decide (Some (next_send σ) = Some k) then sts else [])) ->
  sts ∈ final_sequences ->
  waits σ' = waits σ -> next_send σ' = S (next_send σ) ->
  Inv_s σ -> Inv_t σ -> Inv_t σ'.
Proof.
  intros Ht Hsts Hw Hn Hs [H1 H2 H3]. constructor; intros *; rewrite ?Ht, ?Hw, ?Hn.
  - intros Hwt. pose proof (inv_waits _ Hs _ _ Hwt) as [_ Hlt].
    rewrite bool_decide_eq_false_2 by (intros [= ?]; lia).
    rewrite app_nil_r. eauto.
  - intros Hk. rewrite bool_decide_eq_false_2 by (intros [= ?]; lia).
    rewrite app_nil_r. apply H2. lia.
  - intros Hk Hnw. destruct (decide (k = next_send σ)) as [->|Hne].
    + rewrite bool_decide_eq_true_2 by reflexivity. rewrite H2 by lia. exact Hsts.
    + rewrite bool_decide_eq_false_2 by congruence. rewrite app_nil_r.
      apply H3; [lia | exact Hnw].
Qed.

Lemma Inv_t_call_wait (σ σ' : State) (s : nat) (w : Wait) :
  (forall k, statuses_of k (trace σ')
             = statuses_of k (trace σ)
               ++ (if bool_decide (Some (next_send σ) = Some k) then [CONNECTING] else [])) ->
  waits σ' = <[s := w]> (waits σ) -> wait_send w = next_send σ ->
  waits σ !! s = None ->
  next_send σ' = S (next_send σ) ->
  Inv_s σ -> Inv_t σ -> Inv_t σ'.
Proof.
  intros Ht Hw Hk Hnone Hn Hs [H1 H2 H3]. constructor; intros *; rewrite ?Ht, ?Hw, ?Hn.
  - rewrite lookup_insert_Some. intros [[<- <-]|[Hne Hwt]].
    + rewrite Hk, bool_decide_eq_true_2 by reflexivity. rewrite H2 by lia. reflexivity.
    + pose proof (inv_waits _ Hs _ _ Hwt) as [_ Hlt].
      rewrite bool_decide_eq_false_2 by (intros [= ?]; lia).
      rewrite app_nil_r. eauto.
  - intros Hge. rewrite bool_decide_eq_false_2 by (intros [= ?]; lia).
    rewrite app_nil_r. apply H2. lia.
  - intros Hlt Hnw. destruct (decide (k = next_send σ)) as [->|Hne].
    + exfalso. apply (Hnw s w); [|exact Hk]. apply lookup_insert_eq.
    + rewrite bool_decide_eq_false_2 by congruence. rewrite app_nil_r.
      apply H3; [lia|]. intros s0 w0 Hw0. apply (Hnw s0 w0).
      rewrite lookup_insert_ne; [exact Hw0|]. intros <-. congruence.
Qed.

Lemma Inv_t_resumed (σ σ' : State) (s : nat) (w : Wait) (sts : list ConnectionStatus) :
  waits σ !! s = Some w ->
  (forall k, statuses_of k (trace σ')
             = statuses_of k (trace σ)
               ++ (if bool_decide (Some (wait_send w) = Some k) then sts else [])) ->
  [CONNECTING] ++ sts ∈ final_sequences ->
  waits σ' = delete s (waits σ) -> next_send σ' = next_send σ ->
  Inv_s σ -> Inv_t σ -> Inv_t σ'.
Proof.
  intros Hwt Ht Hsts Hw Hn Hs [H1 H2 H3]. constructor; intros *; rewrite ?Ht, ?Hw, ?Hn.
  - rewrite lookup_delete_Some. intros [Hne Hw0].
    rewrite bool_decide_eq_false_2.
    + rewrite app_nil_r. eauto.
    + intros [= Heq]. apply Hne. eapply (inv_waits_inj _ Hs); eauto.
  - intros Hge. pose proof (inv_waits _ Hs _ _ Hwt) as [_ Hlt].
    rewrite bool_decide_eq_false_2 by (intros [= ?]; lia).
    rewrite app_nil_r. apply H2. lia.
  - intros Hlt Hnw. destruct (decide (k = wait_send w)) as [->|Hne].
    + rewrite bool_decide_eq_true_2 by reflexivity. rewrite (H1 _ _ Hwt). exact Hsts.
    + rewrite bool_decide_eq_false_2 by congruence. rewrite app_nil_r.
      apply H3; [lia|]. intros s0 w0 Hw0 Heq. apply (Hnw s0 w0); [|exact Heq].
      rewrite lookup_delete_Some. split; [|exact Hw0]. intros <-. congruence.
Qed.

(** *** The invariant is kept by every step *)

Lemma after_change_frame (host : string) (port : number) (σ : State) :
  waits (after_change host port σ) = waits σ /\
  next_send (after_change host port σ) = next_send σ /\
  next_socket (after_change host port σ) = next_socket σ /\
  next_timer (after_change host port σ) = next_timer σ /\
  clock (after_change host port σ) = clock σ.
Proof.
  unfold after_change. repeat case_match; rewrite ?disconnect_eq; repeat split; reflexivity.
Qed.

Lemma after_change_target (host : string) (port : number) (σ : State) :
  currentHost (after_change host port σ) = Some host /\
  currentPort (after_change host port σ) = Some port.
Proof.
  unfold after_change.
  destruct (bool_decide (currentHost σ = None) && bool_decide (currentPort σ = None));
    [split; reflexivity|].
  destruct (bool_decide (currentHost σ = Some host)) eqn:Hh;
    destruct (bool_decide (currentPort σ = Some port)) eqn:Hp;
    cbn [negb orb]; try (split; reflexivity).
  apply bool_decide_eq_true_1 in Hh, Hp. split; assumption.
Qed.

(** [handleConnectionChange] leaves [ws] as it was or empties it. *)
Lemma after_change_ws (host : string) (port : number) (σ : State) (s : nat) :
  ws (after_change host port σ) = Some s -> ws σ = Some s.
Proof.
  unfold after_change. repeat case_match; rewrite ?disconnect_eq; cbn; congruence.
Qed.

Lemma Inv_s_after_change (host : string) (port : number) (σ : State) :
  Inv_s σ -> Inv_s (after_change host port σ).
Proof.
  intros H. unfold after_change.
  destruct (bool_decide (currentHost σ = None) && bool_decide (currentPort σ = None)) eqn:Hi.
  - apply andb_true_iff in Hi as [Hh _]. apply bool_decide_eq_true_1 in Hh.
    apply Inv_s_first; [|exact H].
    destruct (ws σ) as [s|] eqn:Hws; [|reflexivity].
    destruct (inv_ws _ H s Hws) as (_ & sk & _ & Hc & _). congruence.
  - case_match; [|exact H].
    apply Inv_s_first; [rewrite disconnect_eq; reflexivity | apply Inv_s_disconnect; exact H].
Qed.

Lemma Inv_s_resume (k : nat) (element : RawPointedDOMElement) (b : bool) (σ : State) :
  Inv_s σ -> Inv_s (sendElement_resume k element b σ).
Proof.
  intros H. unfold sendElement_resume. destruct b; cbn [negb]; [|exact H].
  repeat case_match; unfold statusCallback; repeat apply Inv_s_emit;
    apply Inv_s_startIdleTimer, H.
Qed.

Lemma resume_frame (k : nat) (element : RawPointedDOMElement) (b : bool) (σ : State) :
  waits (sendElement_resume k element b σ) = waits σ /\
  next_send (sendElement_resume k element b σ) = next_send σ /\
  ws (sendElement_resume k element b σ) = ws σ /\
  next_socket (sendElement_resume k element b σ) = next_socket σ.
Proof.
  unfold sendElement_resume. destruct b; cbn [negb]; [|repeat split; reflexivity].
  repeat case_match; repeat split; reflexivity.
Qed.

(** How a step changes the suspended calls. *)
Definition waits_step (σ σ' : State) (ev : Event) : Prop :=
  match ev with
  | call_sendElement _ _ _ =>
      next_send σ' = S (next_send σ) /\
      (waits σ' = waits σ \/
       exists w, wait_send w = next_send σ /\ waits σ' = <[next_socket σ := w]> (waits σ))
  | socket_open s | connection_timer s =>
      next_send σ' = next_send σ /\ waits σ' = delete s (waits σ)
  | _ => next_send σ' = next_send σ /\ waits σ' = waits σ
  end.

Definition step_result (σ σ' : State) (ev : Event) : Prop :=
  Inv σ' /\ waits_step σ σ' ev /\
  exists sts,
    acts (actor σ ev) sts (fun s => ws σ' = Some s) (fun s => ws σ = Some s) σ σ'.

Lemma elem_of_final_1 : [ERROR] ∈ final_sequences.
Proof. unfold final_sequences. set_solver. Qed.

Lemma elem_of_final_connected (last : ConnectionStatus) :
  last = SENT \/ last = ERROR -> [CONNECTED; SENDING; last] ∈ final_sequences.
Proof. unfold final_sequences. intros [->| ->]; set_solver. Qed.

Lemma elem_of_final_connecting (last : ConnectionStatus) :
  last = SENT \/ last = ERROR ->
  [CONNECTING] ++ [CONNECTED; SENDING; last] ∈ final_sequences.
Proof. unfold final_sequences. intros [->| ->]; set_solver. Qed.

Lemma elem_of_final_timeout : [CONNECTING] ++ [ERROR] ∈ final_sequences.
Proof. unfold final_sequences. set_solver. Qed.

Lemma sendElement_result (element : RawPointedDOMElement) (host : string) (port : number)
  (σ : State) :
  Inv σ -> step_result σ (sendElement element host port σ) (call_sendElement element host port).
Proof.
  intros [Hs Ht]. set (k := next_send σ).
  set (σ0 := clearIdleTimer (set_next_send (S k) σ)).
  assert (Hs0 : Inv_s σ0) by (apply Inv_s_clearIdleTimer, Inv_s_set_next_send, Hs).
  assert (Hf0 : waits σ0 = waits σ /\ next_send σ0 = S k /\ ws σ0 = ws σ /\
                next_socket σ0 = next_socket σ).
  { unfold σ0. rewrite clearIdleTimer_eq. repeat split; reflexivity. }
  destruct Hf0 as (Hw0 & Hn0 & Hws0 & Hns0).
  set (closing := fun s => ws σ = Some s).
  assert (Ha0 : forall sending, acts (Some k) [] sending closing σ σ0).
  { intros sending. change [] with (@nil ConnectionStatus ++ []).
    eapply (acts_trans _ _ _ [] [] σ (set_next_send (S k) σ));
      [apply acts_silent; reflexivity | apply acts_clearIdleTimer]. }
  unfold step_result, waits_step, actor. fold k.
  destruct (host_invalid host || port_invalid port) eqn:Hv.
  - apply orb_true_iff in Hv. rewrite (sendElement_invalid _ _ _ _ Hv). fold k σ0.
    set (σ' := statusCallback k ERROR (validation_error host) σ0).
    assert (Ha : acts (Some k) [ERROR] (fun s => ws σ' = Some s) closing σ σ').
    { change [ERROR] with ([] ++ [ERROR]).
      eapply acts_trans; [apply Ha0 | apply acts_status; reflexivity]. }
    split; [split|split].
    + apply Inv_s_emit, Hs0.
    + eapply Inv_t_call_done with (sts := [ERROR]); try exact Ht; try exact Hs.
      * intros k'. apply (acts_statuses _ _ _ _ _ _ k' Ha).
      * apply elem_of_final_1.
      * exact Hw0.
      * exact Hn0.
    + split; [exact Hn0 | left; exact Hw0].
    + exists [ERROR]. exact Ha.
  - apply orb_false_iff in Hv as [Hh Hp].
    rewrite (sendElement_valid _ _ _ _ Hh Hp). fold k σ0.
    set (σh := after_change host port σ0).
    pose proof (after_change_frame host port σ0) as (Hwh & Hnh & Hnsh & _ & _).
    pose proof (after_change_target host port σ0) as (Hth & Tph).
    assert (Hsh : Inv_s σh) by (apply Inv_s_after_change, Hs0).
    assert (Hah : forall sending, acts (Some k) [] sending closing σ σh).
    { intros sending. change [] with (@nil ConnectionStatus ++ []).
      eapply acts_trans; [apply Ha0|]. apply acts_after_change.
      intros s. rewrite Hws0. auto. }
    fold σh in Hwh, Hnh, Hnsh, Hth, Tph.
    clearbody σh. clearbody σ0.
    destruct (isConnected σh) eqn:Hc.
    + set (σc := statusCallback k CONNECTED no_error σh).
      set (σ' := sendElement_resume k element true σc).
      pose proof (resume_frame k element true σc) as (Hwr & Hnr & Hwsr & _).
      fold σ' in Hwr, Hnr, Hwsr.
      destruct (acts_resume (Some k) (fun s => ws σ' = Some s) closing k element σc eq_refl)
        as (last & Hlast & Hr).
      { intros s. rewrite Hwsr. auto. }
      fold σ' in Hr.
      assert (Ha : acts (Some k) [CONNECTED; SENDING; last] (fun s => ws σ' = Some s)
                     closing σ σ').
      { change [CONNECTED; SENDING; last] with ([] ++ [CONNECTED] ++ [SENDING; last]).
        eapply acts_trans; [apply Hah|].
        eapply acts_trans; [apply acts_status; reflexivity | exact Hr]. }
      split; [split|split].
      * apply Inv_s_resume, Inv_s_emit, Hsh.
      * eapply Inv_t_call_done with (sts := [CONNECTED; SENDING; last]);
          try exact Ht; try exact Hs.
        -- intros k'. apply (acts_statuses _ _ _ _ _ _ k' Ha).
        -- apply elem_of_final_connected, Hlast.
        -- rewrite Hwr. cbn. rewrite Hwh. exact Hw0.
        -- rewrite Hnr. cbn. rewrite Hnh. exact Hn0.
      * split; [rewrite Hnr; cbn; rewrite Hnh; exact Hn0
               | left; rewrite Hwr; cbn; rewrite Hwh; exact Hw0].
      * exists [CONNECTED; SENDING; last]. exact Ha.
    + set (σc := statusCallback k CONNECTING no_error σh).
      set (w := waiting k element host port σh).
      set (σ' := set_waits (<[next_socket σh := w]> (waits σh))
                   (new_ReconnectingWebSocket host port σc)).
      assert (Ha : acts (Some k) [CONNECTING] (fun s => ws σ' = Some s) closing σ σ').
      { change [CONNECTING] with ([] ++ [CONNECTING] ++ [] ++ []).
        eapply acts_trans; [apply Hah|].
        eapply acts_trans; [apply acts_status; reflexivity|].
        eapply acts_trans; [apply acts_new_socket | apply acts_silent; reflexivity]. }
      assert (Hnone : waits σ !! next_socket σ = None).
      { destruct (waits σ !! next_socket σ) as [w0|] eqn:Hw; [|reflexivity].
        destruct (inv_waits _ Hs _ _ Hw). lia. }
      split; [split|split].
      * apply (Inv_s_attempt σc host port w); try assumption.
        -- cbn. rewrite Hnh, Hn0. lia.
        -- intros s w' Hw'. cbn in Hw'. rewrite Hwh, Hw0 in Hw'.
           destruct (inv_waits _ Hs _ _ Hw'). cbn. fold k. lia.
        -- apply Inv_s_emit, Hsh.
      * eapply Inv_t_call_wait with (s := next_socket σ) (w := w);
          try exact Ht; try exact Hs.
        -- intros k'. apply (acts_statuses _ _ _ _ _ _ k' Ha).
        -- cbn. rewrite Hnsh, Hns0, Hwh, Hw0. reflexivity.
        -- reflexivity.
        -- exact Hnone.
        -- cbn. rewrite Hnh. exact Hn0.
      * split; [cbn; rewrite Hnh; exact Hn0|]. right. exists w. split; [reflexivity|].
        cbn. rewrite Hnsh, Hns0, Hwh, Hw0. reflexivity.
      * exists [CONNECTING]. exact Ha.
Qed.

Lemma on_socket_open_eq (s : nat) (σ σ' : State) :
  on_socket_open s σ = Some σ' ->
  exists sk, sockets σ !! s = Some sk /\ readyState sk = WS_CONNECTING /\
    let σ1 := set_sockets (<[s := with_readyState WS_OPEN sk]> (sockets σ)) (next_socket σ) σ in
    match waits σ !! s with
    | Some w =>
        σ' = sendElement_resume (wait_send w) (wait_element w) true
               (statusCallback (wait_send w) CONNECTED no_error
                  (set_waits (delete s (waits σ)) σ1))
    | None => σ' = σ1
    end.
Proof.
  unfold on_socket_open. destruct (sockets σ !! s) as [sk|]; [|discriminate].
  case_bool_decide as Hr; [|discriminate]. cbn zeta. cbn [waits set_sockets].
  intros H. exists sk. split; [reflexivity|]. split; [exact Hr|].
  destruct (waits σ !! s) as [w|]; [|congruence].
  unfold ensureConnection_resume in H. cbn [negb] in H. congruence.
Qed.

Lemma on_connection_timer_eq (s : nat) (σ σ' : State) :
  on_connection_timer s σ = Some σ' ->
  exists w, waits σ !! s = Some w /\ wait_due w <= clock σ /\
    σ' = disconnect
           (statusCallback (wait_send w) ERROR
              (Connection_timeout_to (wait_host w) (wait_port w))
              (set_waits (delete s (waits σ)) σ)).
Proof.
  unfold on_connection_timer. destruct (waits σ !! s) as [w|]; [|discriminate].
  destruct (wait_due w <=? clock σ) eqn:Hd; [|discriminate].
  cbn. intros [= <-]. exists w. split; [reflexivity|]. split; [lia | reflexivity].
Qed.

Lemma on_idle_timer_eq (timer : nat) (σ σ' : State) :
  on_idle_timer timer σ = Some σ' ->
  exists due, timers σ !! timer = Some due /\ due <= clock σ /\
    σ' = disconnect (set_timers (delete timer (timers σ)) (next_timer σ) σ).
Proof.
  unfold on_idle_timer. destruct (timers σ !! timer) as [due|]; [|discriminate].
  destruct (due <=? clock σ) eqn:Hd; [|discriminate].
  intros [= <-]. exists due. split; [reflexivity|]. split; [lia | reflexivity].
Qed.

Lemma socket_event_eq (σ σ' : State) (ev : Event) :
  match ev with
  | socket_lost s => on_socket_lost s σ = Some σ'
  | socket_closed s => on_socket_closed s σ = Some σ'
  | _ => False
  end ->
  exists s sk r, sockets σ !! s = Some sk /\
    σ' = set_sockets (<[s := with_readyState r sk]> (sockets σ)) (next_socket σ) σ.
Proof.
  destruct ev as [| |s|s| |]; try contradiction;
    unfold on_socket_lost, on_socket_closed;
    (destruct (sockets σ !! s) as [sk|] eqn:Hs; [|discriminate]);
    case_bool_decide; intros [= <-]; eauto.
Qed.

Lemma Inv_readyState (σ : State) (s : nat) (sk : Socket) (r : ReadyState) :
  sockets σ !! s = Some sk ->
  Inv σ -> Inv (set_sockets (<[s := with_readyState r sk]> (sockets σ)) (next_socket σ) σ).
Proof.
  intros Hsk [Hs Ht]. split; [apply Inv_s_readyState; assumption|].
  eapply Inv_t_silent; [| | |exact Ht]; reflexivity.
Qed.

Lemma step_keeps_Inv_result (σ σ' : State) (t : Z) (ev : Event) :
  step σ t ev = Some σ' -> Inv σ -> step_result σ σ' ev.
Proof.
  intros Hstep HI.
  assert (HI0 : Inv (set_clock (Z.max (clock σ) t) σ)).
  { destruct HI as [Hs Ht]. split; [apply Inv_s_set_clock, Hs|].
    eapply Inv_t_silent; [| | |exact Ht]; reflexivity. }
  unfold step in Hstep. set (σ0 := set_clock (Z.max (clock σ) t) σ) in *.
  change (step_result σ0 σ' ev). clearbody σ0. clear HI. rename HI0 into HI.
  destruct ev as [element host port|s|s|s|timer|s].
  - injection Hstep as <-. apply sendElement_result, HI.
  - apply on_socket_open_eq in Hstep as (sk & Hsk & Hr & Heq). cbn zeta in Heq.
    pose proof (Inv_readyState σ0 s sk WS_OPEN Hsk HI) as HI1.
    set (σ1 := set_sockets _ _ σ0) in *.
    unfold step_result, waits_step, actor.
    destruct (waits σ0 !! s) as [w|] eqn:Hw; cbn [fmap option_fmap option_map].
    + destruct HI as [Hs Ht]. destruct HI1 as [Hs1 Ht1].
      set (k := wait_send w) in *.
      set (σc := statusCallback k CONNECTED no_error (set_waits (delete s (waits σ0)) σ1)) in *.
      pose proof (resume_frame k (wait_element w) true σc) as (Hwr & Hnr & Hwsr & _).
      rewrite <- Heq in Hwr, Hnr, Hwsr.
      destruct (acts_resume (Some k) (fun s => ws σ' = Some s) (fun s => ws σ0 = Some s)
                  k (wait_element w) σc eq_refl) as (last & Hlast & Hres).
      { intros s0. rewrite Hwsr. auto. }
      rewrite <- Heq in Hres.
      assert (Ha : acts (Some k) [CONNECTED; SENDING; last] (fun s => ws σ' = Some s)
                     (fun s => ws σ0 = Some s) σ0 σ').
      { change [CONNECTED; SENDING; last] with ([] ++ [CONNECTED] ++ [SENDING; last]).
        eapply (acts_trans _ _ _ _ _ σ0 (set_waits (delete s (waits σ0)) σ1));
          [apply acts_silent; reflexivity|].
        eapply acts_trans; [apply acts_status; reflexivity | exact Hres]. }
      split; [split|split].
      * rewrite Heq. apply Inv_s_resume, Inv_s_emit. exact (Inv_s_resolve σ1 s Hs1).
      * eapply Inv_t_resumed with (s := s) (w := w) (sts := [CONNECTED; SENDING; last]);
          try exact Ht; try exact Hs; try exact Hw.
        -- intros k'. apply (acts_statuses _ _ _ _ _ _ k' Ha).
        -- apply elem_of_final_connecting, Hlast.
        -- rewrite Hwr. reflexivity.
        -- rewrite Hnr. reflexivity.
      * split; [rewrite Hnr; reflexivity | rewrite Hwr; reflexivity].
      * exists [CONNECTED; SENDING; last]. exact Ha.
    + subst σ'. split; [exact HI1|]. split.
      * split; [reflexivity|]. cbn. symmetry. apply delete_id. exact Hw.
      * exists []. apply acts_silent. reflexivity.
  - apply (socket_event_eq σ0 σ' (socket_lost s)) in Hstep as (s0 & sk & r & Hsk & ->).
    split; [apply Inv_readyState; assumption|]. split; [split; reflexivity|].
    exists []. apply acts_silent. reflexivity.
  - apply (socket_event_eq σ0 σ' (socket_closed s)) in Hstep as (s0 & sk & r & Hsk & ->).
    split; [apply Inv_readyState; assumption|]. split; [split; reflexivity|].
    exists []. apply acts_silent. reflexivity.
  - apply on_idle_timer_eq in Hstep as (due & Hdue & Hle & ->).
    destruct HI as [Hs Ht].
    set (σ1 := set_timers (delete timer (timers σ0)) (next_timer σ0) σ0).
    assert (Ha : acts None [] (fun s => ws (disconnect σ1) = Some s)
                   (fun s => ws σ0 = Some s) σ0 (disconnect σ1)).
    { change [] with (@nil ConnectionStatus ++ []).
      eapply (acts_trans _ _ _ _ _ σ0 σ1); [apply acts_silent; reflexivity|].
      apply acts_disconnect. auto. }
    split; [split|split].
    + apply Inv_s_disconnect, Inv_s_fire, Hs.
    + eapply Inv_t_silent; [| | |exact Ht].
      * intros k. rewrite (acts_statuses _ _ _ _ _ _ k Ha).
        rewrite bool_decide_eq_false_2 by discriminate. apply app_nil_r.
      * rewrite disconnect_eq. reflexivity.
      * rewrite disconnect_eq. reflexivity.
    + rewrite disconnect_eq. split; reflexivity.
    + exists []. exact Ha.
  - apply on_connection_timer_eq in Hstep as (w & Hw & Hle & ->).
    destruct HI as [Hs Ht]. unfold step_result, waits_step, actor. rewrite Hw.
    cbn [fmap option_fmap option_map].
    set (k := wait_send w) in *.
    set (σ1 := set_waits (delete s (waits σ0)) σ0).
    set (σe := statusCallback k ERROR (Connection_timeout_to (wait_host w) (wait_port w)) σ1).
    assert (Ha : acts (Some k) [ERROR] (fun s => ws (disconnect σe) = Some s)
                   (fun s => ws σ0 = Some s) σ0 (disconnect σe)).
    { change [ERROR] with ([] ++ [ERROR] ++ []).
      eapply (acts_trans _ _ _ _ _ σ0 σ1); [apply acts_silent; reflexivity|].
      eapply acts_trans; [apply acts_status; reflexivity|].
      apply acts_disconnect. auto. }
    split; [split|split].
    + apply Inv_s_disconnect, Inv_s_emit, Inv_s_resolve, Hs.
    + eapply Inv_t_resumed with (s := s) (w := w) (sts := [ERROR]);
        try exact Ht; try exact Hs; try exact Hw.
      * intros k'. apply (acts_statuses _ _ _ _ _ _ k' Ha).
      * apply elem_of_final_timeout.
      * rewrite disconnect_eq. reflexivity.
      * rewrite disconnect_eq. reflexivity.
    + rewrite disconnect_eq. split; reflexivity.
    + exists [ERROR]. exact Ha.
Qed.

(** *** Sockets and timers are numbered as they are made *)

(** From [σ] to [σ']: the socket in [ws] and the timers still to fire are
    those of [σ] or new ones. *)
Definition grows (σ σ' : State) : Prop :=
  (next_socket σ <= next_socket σ')%nat /\
  (next_timer σ <= next_timer σ')%nat /\
  (forall timer due, timers σ' !! timer = Some due ->
     timers σ !! timer = Some due \/ (next_timer σ <= timer)%nat) /\
  (forall s, ws σ' = Some s -> ws σ = Some s \/ (next_socket σ <= s)%nat).

Lemma grows_refl (σ : State) : grows σ σ.
Proof. unfold grows. repeat split; auto. Qed.

Lemma grows_trans (σ σ1 σ2 : State) : grows σ σ1 -> grows σ1 σ2 -> grows σ σ2.
Proof.
  intros (A1 & B1 & C1 & D1) (A2 & B2 & C2 & D2). unfold grows.
  split; [lia|]. split; [lia|]. split.
  - intros timer due H. destruct (C2 _ _ H) as [H'|H']; [|right; lia].
    destruct (C1 _ _ H') as [H''|H'']; [left; assumption | right; lia].
  - intros s H. destruct (D2 _ H) as [H'|H']; [|right; lia].
    destruct (D1 _ H') as [H''|H'']; [left; assumption | right; lia].
Qed.

Lemma grows_same (σ σ' : State) :
  next_socket σ' = next_socket σ -> next_timer σ' = next_timer σ ->
  timers σ' = timers σ -> ws σ' = ws σ -> grows σ σ'.
Proof.
  intros A B C D. unfold grows. rewrite A, B, C, D. repeat split; auto.
Qed.

Lemma grows_clearIdleTimer (σ : State) : grows σ (clearIdleTimer σ).
Proof.
  rewrite clearIdleTimer_eq. unfold grows. cbn. repeat split; auto.
  intros timer due H. left. apply timers_after_clear_Some, H.
Qed.

Lemma grows_disconnect (σ : State) : grows σ (disconnect σ).
Proof.
  rewrite disconnect_eq. unfold grows. cbn. repeat split; auto; [|discriminate].
  intros timer due H. left. apply timers_after_clear_Some, H.
Qed.

Lemma grows_after_change (host : string) (port : number) (σ : State) :
  grows σ (after_change host port σ).
Proof.
  unfold after_change. repeat case_match.
  - apply grows_same; reflexivity.
  - eapply grows_trans; [apply grows_disconnect | apply grows_same; reflexivity].
  - apply grows_refl.
Qed.

Lemma grows_startIdleTimer (σ : State) : grows σ (startIdleTimer σ).
Proof.
  unfold grows, startIdleTimer. cbn. repeat split; auto.
  intros timer due. rewrite lookup_insert_Some. intros [[<- _]|[_ H]]; auto.
Qed.

Lemma grows_resume (k : nat) (element : RawPointedDOMElement) (b : bool) (σ : State) :
  grows σ (sendElement_resume k element b σ).
Proof.
  unfold sendElement_resume. destruct b; cbn [negb]; [|apply grows_refl].
  eapply grows_trans; [apply grows_startIdleTimer|].
  repeat case_match; apply grows_same; reflexivity.
Qed.

Lemma grows_sendElement (element : RawPointedDOMElement) (host : string) (port : number)
  (σ : State) : grows σ (sendElement element host port σ).
Proof.
  set (k := next_send σ). set (σ0 := clearIdleTimer (set_next_send (S k) σ)).
  assert (H0 : grows σ σ0).
  { eapply (grows_trans _ (set_next_send (S k) σ));
      [apply grows_same; reflexivity | apply grows_clearIdleTimer]. }
  destruct (host_invalid host || port_invalid port) eqn:Hv.
  - apply orb_true_iff in Hv. rewrite (sendElement_invalid _ _ _ _ Hv). fold k σ0.
    eapply grows_trans; [exact H0 | apply grows_same; reflexivity].
  - apply orb_false_iff in Hv as [Hh Hp]. rewrite (sendElement_valid _ _ _ _ Hh Hp).
    fold k σ0. set (σh := after_change host port σ0).
    assert (Hg : grows σ σh) by (eapply grows_trans; [exact H0 | apply grows_after_change]).
    clearbody σh. destruct (isConnected σh).
    + eapply grows_trans; [exact Hg|].
      eapply (grows_trans _ (statusCallback k CONNECTED no_error σh));
        [apply grows_same; reflexivity | apply grows_resume].
    + eapply grows_trans; [exact Hg|]. unfold grows. cbn. repeat split; auto.
      intros s [= <-]. right. lia.
Qed.

Lemma step_grows (σ σ' : State) (t : Z) (ev : Event) :
  step σ t ev = Some σ' -> grows σ σ'.
Proof.
  unfold step. set (σ0 := set_clock (Z.max (clock σ) t) σ).
  change (match ev with
          | call_sendElement element host port => Some (sendElement element host port σ0)
          | socket_open s => on_socket_open s σ0
          | socket_lost s => on_socket_lost s σ0
          | socket_closed s => on_socket_closed s σ0
          | idle_timer timer => on_idle_timer timer σ0
          | connection_timer s => on_connection_timer s σ0
          end = Some σ' -> grows σ0 σ').
  clearbody σ0. destruct ev as [element host port|s|s|s|timer|s]; intros H.
  - injection H as <-. apply grows_sendElement.
  - apply on_socket_open_eq in H as (sk & _ & _ & Heq). cbn zeta in Heq.
    destruct (waits σ0 !! s) as [w|]; subst σ'.
    + eapply grows_trans; [|apply grows_resume]. apply grows_same; reflexivity.
    + apply grows_same; reflexivity.
  - apply (socket_event_eq σ0 σ' (socket_lost s)) in H as (s0 & sk & r & _ & ->).
    apply grows_same; reflexivity.
  - apply (socket_event_eq σ0 σ' (socket_closed s)) in H as (s0 & sk & r & _ & ->).
    apply grows_same; reflexivity.
  - apply on_idle_timer_eq in H as (due & _ & _ & ->).
    eapply grows_trans; [|apply grows_disconnect].
    unfold grows. cbn. repeat split; auto.
    intros timer' due'. rewrite lookup_delete_Some. intros [_ H]. auto.
  - apply on_connection_timer_eq in H as (w & _ & _ & ->).
    eapply grows_trans; [|apply grows_disconnect]. apply grows_same; reflexivity.
Qed.

(** *** Reachable states *)

Lemma run_app (σ : State) (evs1 evs2 : list (Z * Event)) :
  run σ (evs1 ++ evs2) = match run σ evs1 with Some σ1 => run σ1 evs2 | None => None end.
Proof.
  revert σ. induction evs1 as [|[t ev] evs1 IH]; intros σ; [reflexivity|].
  cbn. destruct (step σ t ev); [apply IH | reflexivity].
Qed.

Lemma run_keeps_Inv (σ σ' : State) (evs : list (Z * Event)) :
  run σ evs = Some σ' -> Inv σ -> Inv σ'.
Proof.
  revert σ. induction evs as [|[t ev] evs IH]; intros σ H HI.
  - injection H as <-. exact HI.
  - cbn in H. destruct (step σ t ev) as [σ1|] eqn:Hstep; [|discriminate].
    apply (IH σ1 H). apply (step_keeps_Inv_result _ _ _ _ Hstep HI).
Qed.

Lemma Inv_new : Inv new_ElementSenderService.
Proof.
  split; [apply Inv_s_new|]. constructor; cbn; intros; try reflexivity.
  - rewrite lookup_empty in *. discriminate.
  - lia.
Qed.

Lemma reachable_Inv (σ : State) : reachable σ -> Inv σ.
Proof. intros [evs H]. exact (run_keeps_Inv _ _ _ H Inv_new). Qed.

Lemma reachable_run (σ σ' : State) (evs : list (Z * Event)) :
  reachable σ -> run σ evs = Some σ' -> reachable σ'.
Proof.
  intros [evs0 H0] H. exists (evs0 ++ evs). rewrite run_app, H0. exact H.
Qed.

Lemma reachable_step (σ σ' : State) (t : Z) (ev : Event) :
  reachable σ -> step σ t ev = Some σ' -> reachable σ'.
Proof.
  intros Hr H. apply (reachable_run σ σ' [(t, ev)] Hr). cbn. rewrite H. reflexivity.
Qed.

End SenderFacts.
Section SenderTheorems.
Context {P : Platform}.

Lemma host_invalid_spec (host : string) :
  host_invalid host = true <-> host = "" \/ trims_to_empty host = true.
Proof.
  unfold host_invalid. rewrite orb_true_iff. destruct host; cbn [string_falsy]; split.
  - intros _. left. reflexivity.
  - intros _. left. reflexivity.
  - intros [H|H]; [discriminate | right; exact H].
  - intros [H|H]; [discriminate | right; exact H].
Qed.

Lemma port_invalid_spec (port : number) :
  port_invalid port = true <->
  port = NaN \/
  exists q, port = Num q /\ (q <= Q2Qc (inject_Z 0) \/ Q2Qc (inject_Z 65535) < q)%Qc.
Proof.
  unfold port_invalid, number_falsy, number_le, number_gt, int.
  destruct port as [|q].
  - split; [intros _; left; reflexivity | reflexivity].
  - rewrite !orb_true_iff, negb_true_iff. split.
    + intros [[H|H]|H]; right; exists q; (split; [reflexivity|]).
      * left. apply Qeq_bool_iff in H. unfold Qcle. rewrite H. apply Qle_refl.
      * left. apply Qle_bool_iff in H. exact H.
      * right. unfold Qclt. apply Qnot_le_lt. intros Hle.
        apply Qle_bool_iff in Hle. rewrite Hle in H. discriminate H.
    + intros [H|(q' & [= <-] & [H|H])]; [discriminate| |].
      * left. right. apply Qle_bool_iff. exact H.
      * right. destruct (Qle_bool q (Q2Qc (inject_Z 65535))) eqn:Hle; [|reflexivity].
        apply Qle_bool_iff in Hle. unfold Qclt in H. exfalso.
        apply (Qlt_not_le _ _ H). exact Hle.
Qed.

(** What a rejected call may add to the trace: a status of its own, which
    is [ERROR] with the message of the validation, and nothing that
    touches a socket. *)
Definition rejection_only (k : nat) (host : string) (o : Obs) : Prop :=
  match o with
  | status_callback k' st e => k' = k /\ st = ERROR /\ e = validation_error host
  | socket_created _ _ _ | socket_close_called _ | socket_send_called _ _ _ => False
  | timer_set _ _ | timer_cleared _ => True
  end.

(** C7, as amended. A call of [sendElement] whose host is empty or made of
    white space, or whose port is [NaN], zero, negative or above 65535, is
    told [ERROR] at once, with the message of the validation, and nothing
    else; no socket is built, closed or sent on, and the target, the socket
    in [ws], the sockets and their states, and the calls that wait are left
    as they were. *)
Theorem invalid_target_is_rejected (σ : State) (t : Z)
  (element : RawPointedDOMElement) (host : string) (port : number) :
  (host = "" \/ trims_to_empty host = true) \/
  (port = NaN \/ exists q, port = Num q /\ (q <= Q2Qc (inject_Z 0) \/ Q2Qc (inject_Z 65535) < q)%Qc) ->
  exists σ' Δ,
    step σ t (call_sendElement element host port) = Some σ' /\
    trace σ' = trace σ ++ Δ /\
    statuses_of (next_send σ) Δ = [ERROR] /\
    status_callback (next_send σ) ERROR (validation_error host) ∈ Δ /\
    Forall (rejection_only (next_send σ) host) Δ /\
    currentHost σ' = currentHost σ /\ currentPort σ' = currentPort σ /\
    ws σ' = ws σ /\ sockets σ' = sockets σ /\ isConnected σ' = isConnected σ /\
    waits σ' = waits σ.
Proof.
  intros H. rewrite <- host_invalid_spec, <- port_invalid_spec in H.
  eexists. exists (cleared σ ++ [status_callback (next_send σ) ERROR (validation_error host)]).
  split; [reflexivity|]. rewrite (sendElement_invalid _ _ _ _ H).
  unfold isConnected. rewrite clearIdleTimer_eq. cbn. rewrite <- app_assoc.
  split; [reflexivity|].
  split.
  { rewrite statuses_of_app, statuses_of_cleared. cbn.
    rewrite bool_decide_eq_true_2 by reflexivity. reflexivity. }
  split; [apply elem_of_app; right; apply list_elem_of_here|].
  split.
  { apply Forall_app. split.
    - unfold cleared. destruct (idleTimeout σ); repeat constructor.
    - repeat constructor. }
  repeat split; reflexivity.
Qed.

Lemma after_change_switch (hA hB : string) (pA pB : number) (σ : State) :
  currentHost σ = Some hA -> currentPort σ = Some pA ->
  hA <> hB \/ pA <> pB ->
  after_change hB pB σ = set_current hB pB (disconnect σ).
Proof.
  intros Hh Hp Hne. unfold after_change. rewrite Hh, Hp.
  rewrite (bool_decide_eq_false_2 (Some hA = None)) by discriminate. cbn [andb].
  destruct Hne as [Hne|Hne].
  - rewrite (bool_decide_eq_false_2 (Some hA = Some hB)) by congruence. reflexivity.
  - rewrite (bool_decide_eq_false_2 (Some pA = Some pB)) by congruence.
    rewrite orb_true_r. reflexivity.
Qed.

(** A socket the service has let go of is never sent on again. *)
Lemma no_frame_on_dropped_socket (σ σ' : State) (evs : list (Z * Event)) (s0 : nat) :
  Inv σ -> (s0 < next_socket σ)%nat -> ws σ <> Some s0 ->
  run σ evs = Some σ' ->
  exists Δ, trace σ' = trace σ ++ Δ /\ forall k frame, socket_send_called s0 k frame ∉ Δ.
Proof.
  revert σ. induction evs as [|[t ev] evs IH]; intros σ HI Hlt Hws H.
  - injection H as <-. exists []. rewrite app_nil_r. split; [reflexivity|].
    intros k frame. apply not_elem_of_nil.
  - cbn in H. destruct (step σ t ev) as [σ1|] eqn:Hstep; [|discriminate].
    destruct (step_keeps_Inv_result _ _ _ _ Hstep HI) as (HI1 & _ & sts & Δ1 & HΔ1 & HF & _).
    destruct (step_grows _ _ _ _ Hstep) as (Hns & _ & _ & Hg).
    assert (Hws1 : ws σ1 <> Some s0).
    { intros Heq. destruct (Hg _ Heq) as [?|?]; [contradiction | lia]. }
    destruct (IH σ1 HI1 ltac:(lia) Hws1 H) as (Δ2 & HΔ2 & Hno).
    exists (Δ1 ++ Δ2). rewrite HΔ2, HΔ1, app_assoc. split; [reflexivity|].
    intros k frame Hin. apply elem_of_app in Hin as [Hin|Hin]; [|exact (Hno _ _ Hin)].
    rewrite Forall_forall in HF. specialize (HF _ Hin). cbn in HF.
    destruct HF as [_ HF]. contradiction.
Qed.

Lemma isConnected_no_ws (σ : State) : ws σ = None -> isConnected σ = false.
Proof. unfold isConnected. intros ->. reflexivity. Qed.

Lemma sendElement_switch (element : RawPointedDOMElement) (hA hB : string)
  (pA pB : number) (sA : nat) (σ : State) :
  currentHost σ = Some hA -> currentPort σ = Some pA -> ws σ = Some sA ->
  host_invalid hB = false -> port_invalid pB = false ->
  hA <> hB \/ pA <> pB ->
  let σ' := sendElement element hB pB σ in
  trace σ' = trace σ ++ cleared σ
             ++ [socket_close_called sA;
                 status_callback (next_send σ) CONNECTING no_error;
                 socket_created (next_socket σ) hB pB] /\
  idleTimeout σ' = None /\ timers σ' = timers_after_clear σ /\
  sockets σ' = <[next_socket σ := {| socket_host := hB; socket_port := pB;
                                     readyState := WS_CONNECTING |}]>
                 (alter (with_readyState WS_CLOSING) sA (sockets σ)) /\
  ws σ' = Some (next_socket σ) /\
  currentHost σ' = Some hB /\ currentPort σ' = Some pB.
Proof.
  intros Hh Hp Hws HvB HpB Hne σ'. subst σ'.
  rewrite (sendElement_valid _ _ _ _ HvB HpB). cbn zeta.
  rewrite (after_change_switch hA hB pA pB);
    [|rewrite clearIdleTimer_eq; exact Hh|rewrite clearIdleTimer_eq; exact Hp|exact Hne].
  rewrite isConnected_no_ws by (rewrite disconnect_eq; reflexivity).
  rewrite disconnect_eq, clearIdleTimer_eq.
  unfold new_ReconnectingWebSocket, sockets_after_close, closed, timers_after_clear.
  unfold_setters. rewrite Hws. unfold cleared at 2. unfold_setters.
  rewrite <- !app_assoc. repeat split; reflexivity.
Qed.

(** X23. A call for the target B made while the service holds the socket
    [sA], built for another target A: the timer in [idleTimeout] is
    cancelled and [close] is called on [sA] before [CONNECTING] is told and
    the socket for B is built; whatever happens next, no frame is ever
    handed to [sA] again. This is about the socket and the timer the
    service holds: sockets and timers it has let go of while calls
    overlapped are not touched. *)
Theorem target_switch_tears_down_first (σ : State) (t : Z)
  (element : RawPointedDOMElement) (hA hB : string) (pA pB : number) (sA : nat) :
  reachable σ ->
  currentHost σ = Some hA -> currentPort σ = Some pA -> ws σ = Some sA ->
  host_invalid hB = false -> port_invalid pB = false ->
  hA <> hB \/ pA <> pB ->
  exists σ',
    step σ t (call_sendElement element hB pB) = Some σ' /\
    (exists sk, sockets σ !! sA = Some sk /\ socket_host sk = hA /\ socket_port sk = pA) /\
    trace σ' = trace σ ++ cleared σ
               ++ [socket_close_called sA;
                   status_callback (next_send σ) CONNECTING no_error;
                   socket_created (next_socket σ) hB pB] /\
    idleTimeout σ' = None /\ timers σ' = timers_after_clear σ /\
    (exists sk, sockets σ' !! sA = Some sk /\ readyState sk = WS_CLOSING) /\
    ws σ' = Some (next_socket σ) /\ next_socket σ <> sA /\
    sockets σ' !! next_socket σ
      = Some {| socket_host := hB; socket_port := pB; readyState := WS_CONNECTING |} /\
    currentHost σ' = Some hB /\ currentPort σ' = Some pB /\
    forall evs σ'',
      run σ' evs = Some σ'' ->
      exists Δ, trace σ'' = trace σ' ++ Δ /\
        forall k frame, socket_send_called sA k frame ∉ Δ.
Proof.
  intros Hr Hh Hp Hws HvB HpB Hne.
  pose proof (reachable_Inv _ Hr) as HI.
  destruct (inv_ws _ (proj1 HI) sA Hws) as (Hlt & sk & Hsk & Hsh & Hsp).
  set (σc := set_clock (Z.max (clock σ) t) σ).
  assert (Hstep : step σ t (call_sendElement element hB pB)
                  = Some (sendElement element hB pB σc)) by reflexivity.
  pose proof (reachable_Inv _ (reachable_step _ _ _ _ Hr Hstep)) as HI'.
  destruct (sendElement_switch element hA hB pA pB sA σc Hh Hp Hws HvB HpB Hne)
    as (Htr & Hidle & Htm & Hsock & Hws' & Hh' & Hp').
  change (trace σc) with (trace σ) in Htr. change (cleared σc) with (cleared σ) in Htr.
  change (next_send σc) with (next_send σ) in Htr.
  change (next_socket σc) with (next_socket σ) in Htr, Hsock, Hws'.
  change (timers_after_clear σc) with (timers_after_clear σ) in Htm.
  change (sockets σc) with (sockets σ) in Hsock.
  assert (Hneq : next_socket σ <> sA) by lia.
  exists (sendElement element hB pB σc).
  split; [exact Hstep|].
  split; [exists sk; split; [exact Hsk|]; split; congruence|].
  split; [exact Htr|]. split; [exact Hidle|]. split; [exact Htm|].
  split.
  { rewrite Hsock, lookup_insert_ne by exact Hneq. rewrite lookup_alter_eq, Hsk.
    eexists. split; reflexivity. }
  split; [exact Hws'|]. split; [exact Hneq|].
  split; [rewrite Hsock; apply lookup_insert_eq|].
  split; [exact Hh'|]. split; [exact Hp'|].
  intros evs σ'' Hrun.
  pose proof (step_grows _ _ _ _ Hstep) as (Hns & _).
  apply (no_frame_on_dropped_socket _ _ evs sA HI'); [lia| |exact Hrun].
  rewrite Hws'. intros [= ?]. lia.
Qed.

End SenderTheorems.

(** ** Calls that wait, and calls that are over *)

Section WaitingFacts.
Context {P : Platform}.

(** An observation that is not a status or a frame of the call [k]. *)
Definition not_by (k : nat) (o : Obs) : Prop :=
  match o with
  | status_callback k' _ _ => k' <> k
  | socket_send_called _ k' _ => k' <> k
  | _ => True
  end.


Lemma not_by_frames (k : nat) (Δ : list Obs) (s : nat) (frame : string) :
  Forall (not_by k) Δ -> socket_send_called s k frame ∉ Δ.
Proof.
  intros HF Hin. rewrite Forall_forall in HF. apply (HF _ Hin). reflexivity.
Qed.







End WaitingFacts.

(** ** A connection that does not open *)

Section TimeoutFacts.
Context {P : Platform}.

(** The call needs a new connection: the service is not connected, or it
    is connected to another target. *)
Definition needs_connection (host : string) (port : number) (σ : State) : Prop :=
  isConnected σ = false \/ currentHost σ <> Some host \/ currentPort σ <> Some port.

Lemma isConnected_after_change (host : string) (port : number) (σ : State) :
  Inv_s σ -> needs_connection host port σ -> isConnected (after_change host port σ) = false.
Proof.
  intros Hs Hn. unfold after_change.
  destruct (bool_decide (currentHost σ = None) && bool_decide (currentPort σ = None)) eqn:Hi.
  - apply andb_true_iff in Hi as [Hh _]. apply bool_decide_eq_true_1 in Hh.
    apply isConnected_no_ws. cbn.
    destruct (ws σ) as [s|] eqn:Hws; [|reflexivity].
    destruct (inv_ws _ Hs s Hws) as (_ & sk & _ & Hc & _). congruence.
  - destruct (bool_decide (currentHost σ = Some host)) eqn:Hh;
      destruct (bool_decide (currentPort σ = Some port)) eqn:Hp; cbn [negb orb];
      try (apply isConnected_no_ws; rewrite disconnect_eq; reflexivity).
    apply bool_decide_eq_true_1 in Hh, Hp.
    destruct Hn as [Hn|[Hn|Hn]]; [exact Hn | contradiction | contradiction].
Qed.

(** A call that needs a new connection is told [CONNECTING], builds a
    socket for its target and is left waiting on it, with a timer for
    [CONNECTION_TIMEOUT]. *)
Lemma sendElement_attempt (element : RawPointedDOMElement) (host : string) (port : number)
  (σ : State) :
  Inv_s σ ->
  host_invalid host = false -> port_invalid port = false ->
  needs_connection host port σ ->
  let σ' := sendElement element host port σ in
  ws σ' = Some (next_socket σ) /\
  sockets σ' !! next_socket σ
    = Some {| socket_host := host; socket_port := port; readyState := WS_CONNECTING |} /\
  waits σ' = <[next_socket σ := waiting (next_send σ) element host port σ]> (waits σ) /\
  currentHost σ' = Some host /\ currentPort σ' = Some port /\
  clock σ' = clock σ /\ idleTimeout σ' = None /\
  forall k, statuses_of k (trace σ')
            = statuses_of k (trace σ)
              ++ (if bool_decide (Some (next_send σ) = Some k) then [CONNECTING] else []).
Proof.
  intros Hs Hh Hp Hn σ'. subst σ'.
  set (k := next_send σ). set (σ0 := clearIdleTimer (set_next_send (S k) σ)).
  assert (Hs0 : Inv_s σ0) by (apply Inv_s_clearIdleTimer, Inv_s_set_next_send, Hs).
  assert (Hn0 : needs_connection host port σ0).
  { unfold needs_connection, isConnected, σ0 in *. rewrite clearIdleTimer_eq. exact Hn. }
  assert (Hf0 : waits σ0 = waits σ /\ next_socket σ0 = next_socket σ /\ clock σ0 = clock σ
                /\ idleTimeout σ0 = None).
  { unfold σ0. rewrite clearIdleTimer_eq. repeat split; reflexivity. }
  destruct Hf0 as (Hw0 & Hns0 & Hc0 & Hi0).
  assert (Ha0 : acts (Some k) [] (fun _ => True) (fun _ => True) σ σ0).
  { change [] with (@nil ConnectionStatus ++ []).
    eapply (acts_trans _ _ _ [] [] σ (set_next_send (S k) σ));
      [apply acts_silent; reflexivity | apply acts_clearIdleTimer]. }
  rewrite (sendElement_valid _ _ _ _ Hh Hp). fold k σ0.
  rewrite (isConnected_after_change host port σ0 Hs0 Hn0).
  pose proof (after_change_frame host port σ0) as (Hwh & _ & Hnsh & _ & Hch).
  pose proof (after_change_target host port σ0) as (Hth & Tph).
  assert (Hih : idleTimeout (after_change host port σ0) = None).
  { unfold after_change. repeat case_match; rewrite ?disconnect_eq; cbn; auto. }
  assert (Hah : acts (Some k) [] (fun _ => True) (fun _ => True) σ (after_change host port σ0)).
  { change [] with (@nil ConnectionStatus ++ []).
    eapply acts_trans; [exact Ha0 | apply acts_after_change; auto]. }
  set (σh := after_change host port σ0) in *. clearbody σh. clearbody σ0.
  assert (Hst : forall k',
    statuses_of k'
      (trace (set_waits (<[next_socket σh := waiting k element host port σh]> (waits σh))
                (new_ReconnectingWebSocket host port
                   (statusCallback k CONNECTING no_error σh))))
    = statuses_of k' (trace σ)
      ++ (if bool_decide (Some k = Some k') then [CONNECTING] else [])).
  { intros k'. apply (acts_statuses (Some k) [CONNECTING] (fun _ => True) (fun _ => True)).
    change [CONNECTING] with ([] ++ [CONNECTING] ++ [] ++ []).
    eapply acts_trans; [exact Hah|].
    eapply acts_trans; [apply acts_status; reflexivity|].
    eapply acts_trans; [apply acts_new_socket | apply acts_silent; reflexivity]. }
  split; [cbn; rewrite Hnsh, Hns0; reflexivity|].
  split; [cbn; rewrite Hnsh, Hns0; apply lookup_insert_eq|].
  split; [unfold waiting; cbn; rewrite Hnsh, Hns0, Hwh, Hw0, Hch, Hc0; reflexivity|].
  split; [exact Hth|]. split; [exact Tph|].
  split; [cbn; rewrite Hch, Hc0; reflexivity|]. split; [exact Hih|].
  exact Hst.
Qed.

(** *** A frame is sent only by a call that was told [SENDING] *)







(** *** Steps that are not calls *)

Definition is_call (ev : Event) : bool :=
  match ev with
  | call_sendElement _ _ _ => true
  | _ => false
  end.

Lemma acts_no_close (a : option nat) (sts : list ConnectionStatus) (sending : nat -> Prop)
  (σ σ' : State) :
  acts a sts sending (fun _ => False) σ σ' ->
  exists Δ, trace σ' = trace σ ++ Δ /\ forall s, socket_close_called s ∉ Δ.
Proof.
  intros (Δ & HΔ & HF & _). exists Δ. split; [exact HΔ|].
  intros s Hin. rewrite Forall_forall in HF. exact (HF _ Hin).
Qed.

Lemma not_elem_of_cleared (σ : State) (s : nat) : socket_close_called s ∉ cleared σ.
Proof.
  unfold cleared. destruct (idleTimeout σ); [|apply not_elem_of_nil].
  intros Hin. apply list_elem_of_singleton in Hin. discriminate Hin.
Qed.

(** A step that is not a call leaves [ws] as it is and calls no [close],
    or it disconnects: it empties [ws] after one [close] on the socket that
    was there. *)
Lemma step_without_call (σ σ' : State) (t : Z) (ev : Event) :
  step σ t ev = Some σ' -> is_call ev = false ->
  exists Δ, (forall s, socket_close_called s ∉ Δ) /\
    ((ws σ' = ws σ /\ trace σ' = trace σ ++ Δ) \/
     (ws σ' = None /\ trace σ' = trace σ ++ Δ ++ closed σ)).
Proof.
  unfold step. set (σ0 := set_clock (Z.max (clock σ) t) σ).
  change (ws σ) with (ws σ0). change (trace σ) with (trace σ0).
  change (closed σ) with (closed σ0). clearbody σ0.
  destruct ev as [element host port|s|s|s|timer|s]; intros H Hc; [discriminate|..].
  - apply on_socket_open_eq in H as (sk & _ & _ & Heq). cbn zeta in Heq.
    destruct (waits σ0 !! s) as [w|]; subst σ'.
    + set (σc := statusCallback (wait_send w) CONNECTED no_error _).
      destruct (acts_resume (Some (wait_send w)) (fun _ => True) (fun _ => False)
                  (wait_send w) (wait_element w) σc eq_refl) as (last & _ & Hr); [auto|].
      apply acts_no_close in Hr as (Δ & HΔ & Hno).
      exists ([status_callback (wait_send w) CONNECTED no_error] ++ Δ). split.
      * intros s0 Hin. apply elem_of_app in Hin as [Hin|Hin]; [|exact (Hno _ Hin)].
        apply list_elem_of_singleton in Hin. discriminate Hin.
      * left. split; [exact (proj1 (proj2 (proj2 (resume_frame _ _ true σc))))|].
        rewrite HΔ. unfold σc. cbn [trace statusCallback emit set_waits set_sockets].
        rewrite <- app_assoc. reflexivity.
    + exists []. split; [intros s0; apply not_elem_of_nil|]. left.
      split; [reflexivity | cbn; rewrite app_nil_r; reflexivity].
  - apply (socket_event_eq σ0 σ' (socket_lost s)) in H as (s0 & sk & r & _ & ->).
    exists []. split; [intros s1; apply not_elem_of_nil|]. left.
    split; [reflexivity | cbn; rewrite app_nil_r; reflexivity].
  - apply (socket_event_eq σ0 σ' (socket_closed s)) in H as (s0 & sk & r & _ & ->).
    exists []. split; [intros s1; apply not_elem_of_nil|]. left.
    split; [reflexivity | cbn; rewrite app_nil_r; reflexivity].
  - apply on_idle_timer_eq in H as (due & _ & _ & ->).
    exists (cleared σ0). split; [apply not_elem_of_cleared|]. right.
    rewrite disconnect_eq. split; reflexivity.
  - apply on_connection_timer_eq in H as (w & _ & _ & ->).
    exists ([status_callback (wait_send w) ERROR
               (Connection_timeout_to (wait_host w) (wait_port w))] ++ cleared σ0).
    split.
    + intros s0 Hin. apply elem_of_app in Hin as [Hin|Hin];
        [|exact (not_elem_of_cleared _ _ Hin)].
      apply list_elem_of_singleton in Hin. discriminate Hin.
    + right. rewrite disconnect_eq. split; [reflexivity|].
      cbn [trace statusCallback emit set_waits]. unfold cleared, closed. cbn [idleTimeout ws statusCallback emit set_waits].
      rewrite <- !app_assoc. reflexivity.
Qed.





End TimeoutFacts.

(** ** The idle timer *)

Section IdleFacts.
Context {P : Platform}.

(** A step in which a call gets to transmit: a valid call for the target
    the service is connected to, or the opening of the socket a call waits
    on. *)
Definition transmits (σ : State) (ev : Event) : Prop :=
  match ev with
  | call_sendElement _ host port =>
      host_invalid host = false /\ port_invalid port = false /\
      isConnected σ = true /\ currentHost σ = Some host /\ currentPort σ = Some port
  | socket_open s => is_Some (waits σ !! s)
  | _ => False
  end.

Lemma after_change_same (host : string) (port : number) (σ : State) :
  currentHost σ = Some host -> currentPort σ = Some port ->
  after_change host port σ = σ.
Proof.
  intros Hh Hp. unfold after_change. rewrite Hh, Hp.
  rewrite (bool_decide_eq_false_2 (Some host = None)) by discriminate. cbn [andb].
  rewrite (bool_decide_eq_true_2 (Some host = Some host)) by reflexivity.
  rewrite (bool_decide_eq_true_2 (Some port = Some port)) by reflexivity. reflexivity.
Qed.

Lemma resume_timer (k : nat) (element : RawPointedDOMElement) (σ : State) :
  let σ' := sendElement_resume k element true σ in
  idleTimeout σ' = Some (next_timer σ) /\
  timers σ' = <[next_timer σ := clock σ + IDLE_DURATION]> (timers σ) /\
  clock σ' = clock σ /\ next_timer σ' = S (next_timer σ).
Proof.
  unfold sendElement_resume. cbn [negb]. repeat case_match; repeat split; reflexivity.
Qed.

(** A step that transmits starts the idle timer anew: a new timer, due
    [IDLE_DURATION] later, becomes the one in [idleTimeout]. *)
Lemma transmits_restarts (σ σ' : State) (t : Z) (ev : Event) :
  step σ t ev = Some σ' -> transmits σ ev ->
  idleTimeout σ' = Some (next_timer σ) /\
  timers σ' !! next_timer σ = Some (clock σ' + IDLE_DURATION) /\
  next_timer σ' = S (next_timer σ) /\ ws σ' = ws σ.
Proof.
  unfold step. set (σ0 := set_clock (Z.max (clock σ) t) σ).
  destruct ev as [element host port|s| | | |]; try contradiction; intros H Ht.
  - destruct Ht as (Hh & Hp & Hc & Hth & Htp). injection H as <-.
    rewrite (sendElement_valid _ _ _ _ Hh Hp). cbn zeta.
    rewrite after_change_same by (rewrite clearIdleTimer_eq; assumption).
    assert (Hc0 : isConnected (clearIdleTimer (set_next_send (S (next_send σ0)) σ0)) = true).
    { unfold isConnected. rewrite clearIdleTimer_eq. exact Hc. }
    rewrite Hc0.
    match goal with |- context [sendElement_resume ?k ?e true ?s] =>
      destruct (resume_timer k e s) as (Hi & Htm & Hcl & Hnt);
      pose proof (resume_frame k e true s) as (_ & _ & Hws & _) end.
    rewrite Hi, Htm, Hcl, Hnt, Hws. rewrite clearIdleTimer_eq. cbn.
    rewrite lookup_insert_eq. repeat split; reflexivity.
  - destruct Ht as [w Hw].
    apply on_socket_open_eq in H as (sk & _ & _ & Heq). cbn zeta in Heq.
    change (waits σ0) with (waits σ) in Heq. rewrite Hw in Heq. subst σ'.
    match goal with |- context [sendElement_resume ?k ?e true ?s] =>
      destruct (resume_timer k e s) as (Hi & Htm & Hcl & Hnt);
      pose proof (resume_frame k e true s) as (_ & _ & Hws & _) end.
    rewrite Hi, Htm, Hcl, Hnt, Hws. cbn.
    rewrite lookup_insert_eq. repeat split; reflexivity.
Qed.

(** The timer [timer] was made and is not to fire any more. *)
Definition gone (timer : nat) (σ : State) : Prop :=
  (timer < next_timer σ)%nat /\ timers σ !! timer = None.

Lemma grows_gone (timer : nat) (σ σ' : State) : grows σ σ' -> gone timer σ -> gone timer σ'.
Proof.
  intros (_ & Hnt & Htm & _) [Hlt Hnone]. split; [lia|].
  destruct (timers σ' !! timer) as [due|] eqn:H; [|reflexivity].
  destruct (Htm _ _ H) as [H'|H']; [congruence | lia].
Qed.

Lemma run_grows (σ σ' : State) (evs : list (Z * Event)) :
  run σ evs = Some σ' -> grows σ σ'.
Proof.
  revert σ. induction evs as [|[t ev] evs IH]; intros σ H.
  - injection H as <-. apply grows_refl.
  - cbn in H. destruct (step σ t ev) as [σ1|] eqn:Hstep; [|discriminate].
    eapply grows_trans; [exact (step_grows _ _ _ _ Hstep) | exact (IH _ H)].
Qed.

(** A timer that is gone never fires. *)
Lemma gone_never_fires (timer : nat) (σ σ' : State) (evs : list (Z * Event)) (t : Z) :
  gone timer σ -> run σ evs = Some σ' -> step σ' t (idle_timer timer) = None.
Proof.
  intros Hg Hrun. destruct (grows_gone timer σ σ' (run_grows _ _ _ Hrun) Hg) as [_ Hnone].
  cbn. unfold on_idle_timer. cbn [timers set_clock]. rewrite Hnone. reflexivity.
Qed.

Lemma no_timer_never_fires (timer : nat) (σ : State) (t : Z) :
  timers σ !! timer = None -> step σ t (idle_timer timer) = None.
Proof.
  intros H. cbn. unfold on_idle_timer. cbn [timers set_clock]. rewrite H. reflexivity.
Qed.

Lemma grows_from_clear (element : RawPointedDOMElement) (host : string) (port : number)
  (σ : State) :
  grows (clearIdleTimer (set_next_send (S (next_send σ)) σ)) (sendElement element host port σ).
Proof.
  set (k := next_send σ). set (σ0 := clearIdleTimer (set_next_send (S k) σ)).
  destruct (host_invalid host || port_invalid port) eqn:Hv.
  - apply orb_true_iff in Hv. rewrite (sendElement_invalid _ _ _ _ Hv). fold k σ0.
    apply grows_same; reflexivity.
  - apply orb_false_iff in Hv as [Hh Hp]. rewrite (sendElement_valid _ _ _ _ Hh Hp).
    fold k σ0. set (σh := after_change host port σ0).
    assert (Hg : grows σ0 σh) by apply grows_after_change.
    clearbody σh. destruct (isConnected σh).
    + eapply grows_trans; [exact Hg|].
      eapply (grows_trans _ (statusCallback k CONNECTED no_error σh));
        [apply grows_same; reflexivity | apply grows_resume].
    + eapply grows_trans; [exact Hg|]. unfold grows. cbn. repeat split; auto.
      intros s [= <-]. right. lia.
Qed.

(** Every call cancels the timer in [idleTimeout]. *)
Lemma call_cancels (σ σ' : State) (t : Z) (element : RawPointedDOMElement)
  (host : string) (port : number) (timer : nat) :
  Inv_s σ -> idleTimeout σ = Some timer ->
  step σ t (call_sendElement element host port) = Some σ' ->
  gone timer σ'.
Proof.
  intros Hs Hi H. set (σ0 := set_clock (Z.max (clock σ) t) σ).
  change (Some (sendElement element host port σ0) = Some σ') in H. injection H as <-.
  apply (grows_gone timer _ _ (grows_from_clear element host port σ0)).
  rewrite clearIdleTimer_eq. split.
  - cbn. exact (inv_idle _ Hs _ Hi).
  - cbn. unfold timers_after_clear. cbn. rewrite Hi. apply lookup_delete_eq.
Qed.

(** While no call is made and none waits, from a disconnected state: the
    service stays disconnected and [close] is never called. *)
Lemma run_quiet (σ σ' : State) (evs : list (Z * Event)) :
  run σ evs = Some σ' ->
  Forall (fun tev => is_call (snd tev) = false) evs ->
  ws σ = None ->
  ws σ' = None /\ exists Δ, trace σ' = trace σ ++ Δ /\ forall s, socket_close_called s ∉ Δ.
Proof.
  revert σ. induction evs as [|[t ev] evs IH]; intros σ H HF Hws.
  - injection H as <-. split; [exact Hws|]. exists []. rewrite app_nil_r.
    split; [reflexivity | intros s; apply not_elem_of_nil].
  - cbn in H. destruct (step σ t ev) as [σ1|] eqn:Hstep; [|discriminate].
    inversion HF as [|? ? Hev HF']; subst. cbn in Hev.
    destruct (step_without_call _ _ _ _ Hstep Hev) as (Δ1 & Hno1 & Hor).
    assert (H1 : ws σ1 = None /\ trace σ1 = trace σ ++ Δ1).
    { destruct Hor as [[Hw Ht]|[Hw Ht]].
      - split; [congruence | exact Ht].
      - split; [exact Hw|]. rewrite Ht. unfold closed. rewrite Hws, app_nil_r. reflexivity. }
    destruct H1 as [Hws1 Ht1].
    destruct (IH σ1 H HF' Hws1) as (Hws' & Δ2 & HΔ2 & Hno2).
    split; [exact Hws'|]. exists (Δ1 ++ Δ2). rewrite HΔ2, Ht1, app_assoc.
    split; [reflexivity|]. intros s Hin.
    apply elem_of_app in Hin as [Hin|Hin]; [exact (Hno1 _ Hin) | exact (Hno2 _ Hin)].
Qed.

(** The idle timer [timer] is still to fire and the service holds the
    socket [w], or the service has disconnected and the timer is gone; no
    call waits. *)
Definition idle_pending (timer : nat) (due : Z) (w : option nat) (σ : State) : Prop :=
  waits σ = ∅ /\ (timer < next_timer σ)%nat /\
  ((idleTimeout σ = Some timer /\ timers σ !! timer = Some due /\ ws σ = w) \/
   (ws σ = None /\ idleTimeout σ = None /\ timers σ !! timer = None)).

Lemma step_idle_pending (σ σ' : State) (t : Z) (ev : Event) (timer : nat) (due : Z)
  (w : option nat) :
  step σ t ev = Some σ' -> is_call ev = false ->
  idle_pending timer due w σ -> idle_pending timer due w σ'.
Proof.
  unfold step. set (σ0 := set_clock (Z.max (clock σ) t) σ).
  change (idle_pending timer due w σ) with (idle_pending timer due w σ0). clearbody σ0.
  destruct ev as [element host port|s|s|s|timer'|s]; intros H Hc (Hw & Hlt & Hor);
    [discriminate|..].
  - apply on_socket_open_eq in H as (sk & _ & _ & Heq). cbn zeta in Heq.
    rewrite Hw, lookup_empty in Heq. subst σ'. split; [exact Hw|]. split; [exact Hlt|].
    exact Hor.
  - apply (socket_event_eq σ0 σ' (socket_lost s)) in H as (s0 & sk & r & _ & ->).
    split; [exact Hw|]. split; [exact Hlt|]. exact Hor.
  - apply (socket_event_eq σ0 σ' (socket_closed s)) in H as (s0 & sk & r & _ & ->).
    split; [exact Hw|]. split; [exact Hlt|]. exact Hor.
  - apply on_idle_timer_eq in H as (due' & _ & _ & ->). rewrite disconnect_eq.
    split; [exact Hw|]. split; [exact Hlt|]. right.
    split; [reflexivity|]. split; [reflexivity|].
    cbn. unfold timers_after_clear. cbn.
    destruct Hor as [(Hi & _ & _)|(_ & Hi & Hnone)]; rewrite Hi.
    + apply lookup_delete_eq.
    + rewrite lookup_delete_None. right. exact Hnone.
  - apply on_connection_timer_eq in H as (w0 & Hw0 & _). rewrite Hw, lookup_empty in Hw0.
    discriminate Hw0.
Qed.

Lemma run_idle_pending (σ σ' : State) (evs : list (Z * Event)) (timer : nat) (due : Z)
  (w : option nat) :
  run σ evs = Some σ' ->
  Forall (fun tev => is_call (snd tev) = false) evs ->
  idle_pending timer due w σ -> idle_pending timer due w σ'.
Proof.
  revert σ. induction evs as [|[t ev] evs IH]; intros σ H HF Hp.
  - injection H as <-. exact Hp.
  - cbn in H. destruct (step σ t ev) as [σ1|] eqn:Hstep; [|discriminate].
    inversion HF as [|? ? Hev HF']; subst. cbn in Hev.
    apply (IH σ1 H HF'). exact (step_idle_pending _ _ _ _ _ _ _ Hstep Hev Hp).
Qed.

(** With no timer to fire and no call waiting, a step that is not a call
    can only be an event of a socket: the fields of the service and the
    trace stay as they are. *)
Lemma step_nothing_pending (σ σ' : State) (t : Z) (ev : Event) :
  step σ t ev = Some σ' -> is_call ev = false ->
  timers σ = ∅ -> waits σ = ∅ ->
  ws σ' = ws σ /\ idleTimeout σ' = idleTimeout σ /\ timers σ' = ∅ /\ waits σ' = ∅ /\
  trace σ' = trace σ.
Proof.
  unfold step. set (σ0 := set_clock (Z.max (clock σ) t) σ).
  change (ws σ) with (ws σ0). change (idleTimeout σ) with (idleTimeout σ0).
  change (timers σ) with (timers σ0). change (waits σ) with (waits σ0).
  change (trace σ) with (trace σ0). clearbody σ0.
  destruct ev as [element host port|s|s|s|timer|s]; intros H Hc Htm Hw; [discriminate|..].
  - apply on_socket_open_eq in H as (sk & _ & _ & Heq). cbn zeta in Heq.
    rewrite Hw, lookup_empty in Heq. subst σ'. repeat split; assumption.
  - apply (socket_event_eq σ0 σ' (socket_lost s)) in H as (s0 & sk & r & _ & ->).
    repeat split; assumption.
  - apply (socket_event_eq σ0 σ' (socket_closed s)) in H as (s0 & sk & r & _ & ->).
    repeat split; assumption.
  - apply on_idle_timer_eq in H as (due & Hdue & _). rewrite Htm, lookup_empty in Hdue.
    discriminate Hdue.
  - apply on_connection_timer_eq in H as (w & Hw0 & _). rewrite Hw, lookup_empty in Hw0.
    discriminate Hw0.
Qed.

Lemma run_nothing_pending (σ σ' : State) (evs : list (Z * Event)) :
  run σ evs = Some σ' ->
  Forall (fun tev => is_call (snd tev) = false) evs ->
  timers σ = ∅ -> waits σ = ∅ ->
  ws σ' = ws σ /\ idleTimeout σ' = idleTimeout σ /\ timers σ' = ∅ /\ waits σ' = ∅ /\
  trace σ' = trace σ.
Proof.
  revert σ. induction evs as [|[t ev] evs IH]; intros σ H HF Htm Hw.
  - injection H as <-. repeat split; assumption.
  - cbn in H. destruct (step σ t ev) as [σ1|] eqn:Hstep; [|discriminate].
    inversion HF as [|? ? Hev HF']; subst. cbn in Hev.
    destruct (step_nothing_pending _ _ _ _ Hstep Hev Htm Hw) as (Hws1 & Hi1 & Htm1 & Hw1 & Htr1).
    destruct (IH σ1 H HF' Htm1 Hw1) as (Hws' & Hi' & Htm' & Hw' & Htr').
    repeat split; congruence.
Qed.

(** X24. After a step in which a call transmits, with no other call
    waiting: a new idle timer due 10000 ms later is the one in
    [idleTimeout]. While no call is made it cannot fire before it is due;
    once due, either the service has already disconnected and the timer is
    gone, or the timer fires: the handle is cleared, [close] is called on
    the socket in [ws], [ws] is emptied. After that the timer never fires
    again, and as long as no call is made [close] is not called again.
    Every call cancels the timer, and a call that transmits starts a new
    one. *)
Theorem idle_timer_tears_down_once (σ σ1 σ2 : State) (t1 : Z) (ev : Event)
  (evs : list (Z * Event)) :
  reachable σ ->
  step σ t1 ev = Some σ1 ->
  transmits σ ev ->
  waits σ1 = ∅ ->
  run σ1 evs = Some σ2 ->
  Forall (fun tev => is_call (snd tev) = false) evs ->
  let timer := next_timer σ in
  let due := clock σ1 + IDLE_DURATION in
  idleTimeout σ1 = Some timer /\ timers σ1 !! timer = Some due /\ ws σ1 = ws σ /\
  (forall t, Z.max (clock σ2) t < due -> step σ2 t (idle_timer timer) = None) /\
  (forall t, due <= Z.max (clock σ2) t ->
     (ws σ2 = None /\ idleTimeout σ2 = None /\ timers σ2 !! timer = None) \/
     exists σ3,
       step σ2 t (idle_timer timer) = Some σ3 /\
       ws σ2 = ws σ1 /\
       trace σ3 = trace σ2 ++ [timer_cleared timer] ++ closed σ2 /\
       ws σ3 = None /\ idleTimeout σ3 = None /\
       sockets σ3 = sockets_after_close σ2 /\
       timers σ3 !! timer = None /\
       (forall evs' σ4 t',
          run σ3 evs' = Some σ4 -> step σ4 t' (idle_timer timer) = None) /\
       (forall evs' σ4,
          run σ3 evs' = Some σ4 ->
          Forall (fun tev => is_call (snd tev) = false) evs' ->
          ws σ4 = None /\
          exists Δ, trace σ4 = trace σ3 ++ Δ /\ forall s, socket_close_called s ∉ Δ)) /\
  (forall t element host port,
     exists σ',
       step σ2 t (call_sendElement element host port) = Some σ' /\
       timers σ' !! timer = None /\
       (transmits σ2 (call_sendElement element host port) ->
        idleTimeout σ' = Some (next_timer σ2) /\
        timers σ' !! next_timer σ2 = Some (clock σ' + IDLE_DURATION))).
Proof.
  intros Hr Hstep Htx Hw1 Hrun Hnc timer due.
  pose proof (reachable_step _ _ _ _ Hr Hstep) as Hr1.
  pose proof (reachable_run _ _ _ Hr1 Hrun) as Hr2.
  pose proof (reachable_Inv _ Hr2) as HI2.
  destruct (transmits_restarts _ _ _ _ Hstep Htx) as (Hi1 & Htm1 & Hnt1 & Hws1).
  fold timer in Hi1, Htm1, Hnt1. fold due in Htm1.
  assert (Hp1 : idle_pending timer due (ws σ1) σ1).
  { split; [exact Hw1|]. split; [lia|]. left. repeat split; assumption. }
  pose proof (run_idle_pending _ _ _ _ _ _ Hrun Hnc Hp1) as (Hw2 & Hlt2 & Hor2).
  split; [exact Hi1|]. split; [exact Htm1|]. split; [exact Hws1|]. split.
  { intros t Hlt. cbn. unfold on_idle_timer. cbn [timers clock set_clock].
    destruct Hor2 as [(_ & Htm2 & _)|(_ & _ & Htm2)]; rewrite Htm2; [|reflexivity].
    destruct (due <=? Z.max (clock σ2) t) eqn:Hle; [lia | reflexivity]. }
  split.
  { intros t Hle. destruct Hor2 as [(Hi2 & Htm2 & Hws2)|Hgone]; [right | left; exact Hgone].
    set (σ3 := disconnect (set_timers (delete timer (timers σ2)) (next_timer σ2)
                             (set_clock (Z.max (clock σ2) t) σ2))).
    assert (Hstep3 : step σ2 t (idle_timer timer) = Some σ3).
    { cbn. unfold on_idle_timer. cbn [timers clock set_clock]. rewrite Htm2.
      destruct (due <=? Z.max (clock σ2) t) eqn:Hle'; [reflexivity | lia]. }
    pose proof (reachable_step _ _ _ _ Hr2 Hstep3) as Hr3.
    assert (Hgone3 : gone timer σ3).
    { unfold σ3. rewrite disconnect_eq. split; [exact Hlt2|].
      cbn. unfold timers_after_clear. cbn. rewrite Hi2.
      rewrite lookup_delete_None. left. reflexivity. }
    assert (Hws3 : ws σ3 = None) by (unfold σ3; rewrite disconnect_eq; reflexivity).
    exists σ3. split; [exact Hstep3|]. split; [exact Hws2|]. split.
    { unfold σ3. rewrite disconnect_eq. cbn. unfold cleared, closed. cbn.
      rewrite Hi2. reflexivity. }
    split; [exact Hws3|].
    split; [unfold σ3; rewrite disconnect_eq; reflexivity|].
    split; [unfold σ3; rewrite disconnect_eq; reflexivity|].
    split; [exact (proj2 Hgone3)|]. split.
    - intros evs' σ4 t' Hrun4. exact (gone_never_fires _ _ _ _ _ Hgone3 Hrun4).
    - intros evs' σ4 Hrun4 Hnc4. exact (run_quiet _ _ _ Hrun4 Hnc4 Hws3). }
  intros t element host port.
  exists (sendElement element host port (set_clock (Z.max (clock σ2) t) σ2)).
  split; [reflexivity|]. split.
  - destruct Hor2 as [(Hi2 & _ & _)|(_ & _ & Hnone)].
    + exact (proj2 (call_cancels σ2 _ t element host port timer (proj1 HI2) Hi2 eq_refl)).
    + apply (grows_gone timer σ2); [|split; assumption].
      exact (step_grows σ2 _ t (call_sendElement element host port) eq_refl).
  - intros Htx2.
    destruct (transmits_restarts σ2 _ t (call_sendElement element host port) eq_refl Htx2)
      as (Hi & Htm & _ & _).
    split; assumption.
Qed.

End IdleFacts.

(** ** The route of each tab *)

Section BackgroundFacts.
Context {P : Platform}.


End BackgroundFacts.

(** ** Port rules match by substring *)

Section RoutingEdges.
Context {P : Platform}.

Lemma append_assoc (a b c : string) : (a +:+ b) +:+ c = a +:+ (b +:+ c).
Proof.
  induction a as [|x a IH]; [reflexivity|]. rewrite !append_cons, IH. reflexivity.
Qed.

(** X1. A rule of type [port] looks for [:] followed by its pattern anywhere in
    the URL, and does not ask that the port ends there: the rule for 3000
    also takes the URLs of port 30001. Placed before the rule for the
    longer port, it is the one [findMatchingRoute] returns. *)
Theorem port_rule_matches_longer_ports (url : string) (r : RouteConfig)
  (rest : list RouteConfig) :
  enabled r = true -> patternType r = port_pattern ->
  (route_matches url r = Normal true <->
   exists a b, url = a +:+ ":" +:+ pattern r +:+ b) /\
  (findMatchingRoute url (r :: rest) = Normal (Some r) <->
   exists a b, url = a +:+ ":" +:+ pattern r +:+ b) /\
  (forall origin digits path,
     url = origin +:+ ":" +:+ pattern r +:+ digits +:+ path ->
     findMatchingRoute url (r :: rest) = Normal (Some r)).
Proof.
  intros He Ht.
  assert (Hm : route_matches url r = Normal (includes url (":" +:+ pattern r))).
  { unfold route_matches. rewrite Ht. reflexivity. }
  assert (Hiff : route_matches url r = Normal true <->
                 exists a b, url = a +:+ ":" +:+ pattern r +:+ b).
  { rewrite Hm. split.
    - intros [= H]. apply includes_spec in H as (a & b & ->). exists a, b.
      rewrite append_assoc. reflexivity.
    - intros (a & b & ->). f_equal. apply includes_spec. exists a, b.
      rewrite append_assoc. reflexivity. }
  assert (Hfind : findMatchingRoute url (r :: rest) = Normal (Some r) <->
                  exists a b, url = a +:+ ":" +:+ pattern r +:+ b).
  { rewrite <- Hiff. split.
    - intros H. apply findMatchingRoute_some in H as (before & after & Heq & Hb & _ & Hr).
      destruct before as [|x before].
      + exact Hr.
      + injection Heq as Hx _. subst x.
        inversion Hb as [|? ? [Hd|Hn] _]; subst; congruence.
    - intros H. apply findMatchingRoute_hit; assumption. }
  split; [exact Hiff|]. split; [exact Hfind|].
  intros origin digits path ->. apply Hfind. exists origin, (digits +:+ path). reflexivity.
Qed.

End RoutingEdges.

(** ** The element sender: what a call does, case by case *)

Ltac in_list :=
  solve [repeat first [apply list_elem_of_here | apply list_elem_of_further]].

Ltac not_in_list :=
  let H := fresh in
  intros H; repeat (apply elem_of_cons in H as [H|H]; [discriminate H|]);
  apply elem_of_nil in H; exact H.

Section SenderCases.
Context {P : Platform}.

(** What [this.ws!.send(JSON.stringify(message))] and the status after it
    add to the trace. *)
Definition transmission (k : nat) (element : RawPointedDOMElement) (σ : State) : list Obs :=
  match ws σ with
  | None =>
      [status_callback k ERROR
         (exception_message "Cannot read properties of null (reading 'send')")]
  | Some s =>
      match JSON_stringify element (clock σ) with
      | Throw m => [status_callback k ERROR (exception_message m)]
      | Normal frame => [socket_send_called s k frame; status_callback k SENT no_error]
      end
  end.

(** Two states with the same fields are the same state. *)
Lemma State_ext (a b : State) :
  ws a = ws b -> currentHost a = currentHost b -> currentPort a = currentPort b ->
  idleTimeout a = idleTimeout b -> sockets a = sockets b ->
  next_socket a = next_socket b -> timers a = timers b -> next_timer a = next_timer b ->
  waits a = waits b -> next_send a = next_send b -> clock a = clock b ->
  trace a = trace b -> a = b.
Proof. destruct a, b. cbn. intros. subst. reflexivity. Qed.

Lemma resume_eq (k : nat) (element : RawPointedDOMElement) (σ : State) :
  sendElement_resume k element true σ =
  {| ws := ws σ; currentHost := currentHost σ; currentPort := currentPort σ;
     idleTimeout := Some (next_timer σ); sockets := sockets σ;
     next_socket := next_socket σ;
     timers := <[next_timer σ := clock σ + IDLE_DURATION]> (timers σ);
     next_timer := S (next_timer σ); waits := waits σ;
     next_send := next_send σ; clock := clock σ;
     trace := trace σ
              ++ [timer_set (next_timer σ) (clock σ + IDLE_DURATION);
                  status_callback k SENDING no_error]
              ++ transmission k element σ |}.
Proof.
  unfold sendElement_resume, transmission. cbn [negb].
  change (ws (statusCallback k SENDING no_error (startIdleTimer σ))) with (ws σ).
  change (clock (statusCallback k SENDING no_error (startIdleTimer σ))) with (clock σ).
  destruct (ws σ) as [s|] eqn:Hws; [destruct (JSON_stringify element (clock σ))|];
    apply State_ext; try exact Hws; try reflexivity;
    unfold_setters; rewrite <- ?app_assoc; reflexivity.
Qed.

(** A valid call for the target the service is connected to. *)
Lemma sendElement_reuse (element : RawPointedDOMElement) (host : string) (port : number)
  (σ : State) :
  host_invalid host = false -> port_invalid port = false ->
  currentHost σ = Some host -> currentPort σ = Some port ->
  isConnected σ = true ->
  sendElement element host port σ
  = sendElement_resume (next_send σ) element true
      (statusCallback (next_send σ) CONNECTED no_error
         (clearIdleTimer (set_next_send (S (next_send σ)) σ))).
Proof.
  intros Hh Hp Hth Htp Hc.
  rewrite (sendElement_valid _ _ _ _ Hh Hp). cbn zeta.
  rewrite after_change_same by (rewrite clearIdleTimer_eq; assumption).
  assert (Hc0 : isConnected (clearIdleTimer (set_next_send (S (next_send σ)) σ)) = true).
  { unfold isConnected. rewrite clearIdleTimer_eq. exact Hc. }
  rewrite Hc0. reflexivity.
Qed.

(** What a call on the open connection leaves, but for the trace. *)
Definition reused (σ σ' : State) (s : nat) : Prop :=
  ws σ' = Some s /\ sockets σ' = sockets σ /\ next_socket σ' = next_socket σ /\
  waits σ' = waits σ /\
  currentHost σ' = currentHost σ /\ currentPort σ' = currentPort σ /\
  idleTimeout σ' = Some (next_timer σ) /\
  timers σ' = <[next_timer σ := clock σ' + IDLE_DURATION]> (timers_after_clear σ).

Lemma step_reuse (σ : State) (t : Z) (element : RawPointedDOMElement) (host : string)
  (port : number) (s : nat) :
  host_invalid host = false -> port_invalid port = false ->
  currentHost σ = Some host -> currentPort σ = Some port ->
  ws σ = Some s -> isConnected σ = true ->
  exists σ',
    step σ t (call_sendElement element host port) = Some σ' /\
    clock σ' = Z.max (clock σ) t /\
    trace σ' = trace σ ++ cleared σ
               ++ [status_callback (next_send σ) CONNECTED no_error;
                   timer_set (next_timer σ) (Z.max (clock σ) t + IDLE_DURATION);
                   status_callback (next_send σ) SENDING no_error]
               ++ match JSON_stringify element (Z.max (clock σ) t) with
                  | Throw m => [status_callback (next_send σ) ERROR (exception_message m)]
                  | Normal frame => [socket_send_called s (next_send σ) frame;
                                     status_callback (next_send σ) SENT no_error]
                  end /\
    reused σ σ' s.
Proof.
  intros Hh Hp Hth Htp Hws Hc. eexists. split; [reflexivity|].
  set (σ0 := set_clock (Z.max (clock σ) t) σ).
  rewrite (sendElement_reuse element host port σ0 Hh Hp Hth Htp Hc).
  rewrite resume_eq. unfold transmission, reused, statusCallback.
  rewrite clearIdleTimer_eq. subst σ0.
  unfold cleared, timers_after_clear. unfold_setters. rewrite Hws.
  split; [reflexivity|]. split.
  - rewrite <- !app_assoc. reflexivity.
  - repeat split; reflexivity.
Qed.


(** X2. The open connection is used again: a valid call for the target the
    service is connected to builds no socket and closes none. It cancels the
    idle timer, is told [CONNECTED], starts a new idle timer, is told
    [SENDING], hands [JSON.stringify] of the message (stamped with the time
    of the call) to the socket held and is told [SENT]. *)
Theorem open_connection_is_reused (σ : State) (t : Z) (element : RawPointedDOMElement)
  (host : string) (port : number) (s : nat) (frame : string) :
  host_invalid host = false -> port_invalid port = false ->
  currentHost σ = Some host -> currentPort σ = Some port ->
  ws σ = Some s -> isConnected σ = true ->
  JSON_stringify element (Z.max (clock σ) t) = Normal frame ->
  exists σ',
    step σ t (call_sendElement element host port) = Some σ' /\
    trace σ' = trace σ ++ cleared σ
               ++ [status_callback (next_send σ) CONNECTED no_error;
                   timer_set (next_timer σ) (Z.max (clock σ) t + IDLE_DURATION);
                   status_callback (next_send σ) SENDING no_error;
                   socket_send_called s (next_send σ) frame;
                   status_callback (next_send σ) SENT no_error] /\
    ws σ' = Some s /\ sockets σ' = sockets σ /\ next_socket σ' = next_socket σ /\
    waits σ' = waits σ /\
    currentHost σ' = Some host /\ currentPort σ' = Some port /\
    idleTimeout σ' = Some (next_timer σ).
Proof.
  intros Hh Hp Hth Htp Hws Hc Hj.
  destruct (step_reuse σ t element host port s Hh Hp Hth Htp Hws Hc)
    as (σ' & Hstep & _ & Htr & Hw & Hsk & Hns & Hwt & Hch & Hcp & Hi & _).
  exists σ'. rewrite Hj in Htr. rewrite Hch, Hcp.
  repeat (split; [assumption|]). assumption.
Qed.

(** X3. [JSON.stringify] throws (a circular element, say): the call on the
    open connection is told [CONNECTED], [SENDING] and then [ERROR] with the
    message of the exception. Nothing is handed to the socket, and the
    connection stays as it is, with the idle timer started anew. *)
Theorem serialization_failure_is_reported (σ : State) (t : Z)
  (element : RawPointedDOMElement) (host : string) (port : number) (s : nat)
  (message : string) :
  host_invalid host = false -> port_invalid port = false ->
  currentHost σ = Some host -> currentPort σ = Some port ->
  ws σ = Some s -> isConnected σ = true ->
  JSON_stringify element (Z.max (clock σ) t) = Throw message ->
  exists σ',
    step σ t (call_sendElement element host port) = Some σ' /\
    trace σ' = trace σ ++ cleared σ
               ++ [status_callback (next_send σ) CONNECTED no_error;
                   timer_set (next_timer σ) (Z.max (clock σ) t + IDLE_DURATION);
                   status_callback (next_send σ) SENDING no_error;
                   status_callback (next_send σ) ERROR (exception_message message)] /\
    ws σ' = Some s /\ sockets σ' = sockets σ /\ isConnected σ' = true /\
    idleTimeout σ' = Some (next_timer σ) /\
    timers σ' !! next_timer σ = Some (Z.max (clock σ) t + IDLE_DURATION).
Proof.
  intros Hh Hp Hth Htp Hws Hc Hj.
  destruct (step_reuse σ t element host port s Hh Hp Hth Htp Hws Hc)
    as (σ' & Hstep & Hcl & Htr & Hw & Hsk & Hns & Hwt & Hch & Hcp & Hi & Htm).
  exists σ'. rewrite Hj in Htr.
  split; [exact Hstep|]. split; [exact Htr|]. split; [exact Hw|]. split; [exact Hsk|].
  split; [unfold isConnected in *; rewrite Hw, Hsk; rewrite Hws in Hc; exact Hc|].
  split; [exact Hi|]. rewrite Htm, Hcl. apply lookup_insert_eq.
Qed.

(** The socket [s] opens while a call waits on it. *)
Lemma step_socket_open (σ : State) (t : Z) (s : nat) (w : Wait) (sk : Socket) :
  waits σ !! s = Some w -> sockets σ !! s = Some sk -> readyState sk = WS_CONNECTING ->
  step σ t (socket_open s)
  = Some (sendElement_resume (wait_send w) (wait_element w) true
            (statusCallback (wait_send w) CONNECTED no_error
               (set_waits (delete s (waits σ))
                  (set_sockets (<[s := with_readyState WS_OPEN sk]> (sockets σ))
                     (next_socket σ) (set_clock (Z.max (clock σ) t) σ))))).
Proof.
  intros Hw Hsk Hr. unfold step, on_socket_open. cbn [sockets set_clock].
  rewrite Hsk. rewrite bool_decide_eq_true_2 by exact Hr.
  cbn zeta. cbn [waits set_sockets set_clock]. rewrite Hw.
  unfold ensureConnection_resume. cbn [negb]. reflexivity.
Qed.

(** X4. When the socket a call waits on opens, the call goes on: it is told
    [CONNECTED] and [SENDING], and its frame is handed to the socket the
    service holds at that moment, which need not be the one that opened.
    When the service holds none, reading [send] off [null] throws and the
    call is told [ERROR]. A new idle timer is started; one that is running
    is not cancelled. *)
Theorem resumed_call_sends_on_held_socket (σ : State) (t : Z) (s : nat) (w : Wait)
  (sk : Socket) :
  waits σ !! s = Some w -> sockets σ !! s = Some sk -> readyState sk = WS_CONNECTING ->
  let k := wait_send w in
  let now := Z.max (clock σ) t in
  exists σ',
    step σ t (socket_open s) = Some σ' /\
    trace σ' = trace σ
               ++ [status_callback k CONNECTED no_error;
                   timer_set (next_timer σ) (now + IDLE_DURATION);
                   status_callback k SENDING no_error]
               ++ match ws σ with
                  | None =>
                      [status_callback k ERROR
                         (exception_message
                            "Cannot read properties of null (reading 'send')")]
                  | Some held =>
                      match JSON_stringify (wait_element w) now with
                      | Throw m => [status_callback k ERROR (exception_message m)]
                      | Normal frame =>
                          [socket_send_called held k frame; status_callback k SENT no_error]
                      end
                  end /\
    ws σ' = ws σ /\ waits σ' = delete s (waits σ) /\
    sockets σ' = <[s := with_readyState WS_OPEN sk]> (sockets σ) /\
    idleTimeout σ' = Some (next_timer σ) /\
    timers σ' = <[next_timer σ := now + IDLE_DURATION]> (timers σ).
Proof.
  intros Hw Hsk Hr k now. eexists. split; [exact (step_socket_open σ t s w sk Hw Hsk Hr)|].
  rewrite resume_eq. unfold transmission, statusCallback. unfold_setters.
  split; [rewrite <- !app_assoc; reflexivity|]. repeat split; reflexivity.
Qed.

(** X5. A new connection that opens: a valid call that needs a connection is
    told [CONNECTING] and waits on a socket built for its target; when that
    socket opens next, the call is told [CONNECTED], [SENDING] and [SENT],
    its frame (stamped with the time of the opening) goes to that socket,
    and the service is connected with the idle timer running. *)
Theorem new_connection_sends_on_open (σ σ1 : State) (t0 t1 : Z)
  (element : RawPointedDOMElement) (host : string) (port : number) (frame : string) :
  reachable σ ->
  host_invalid host = false -> port_invalid port = false ->
  needs_connection host port σ ->
  step σ t0 (call_sendElement element host port) = Some σ1 ->
  JSON_stringify element (Z.max (clock σ1) t1) = Normal frame ->
  let k := next_send σ in
  let s := next_socket σ in
  statuses_of k (trace σ1) = [CONNECTING] /\
  exists σ2,
    step σ1 t1 (socket_open s) = Some σ2 /\
    trace σ2 = trace σ1
               ++ [status_callback k CONNECTED no_error;
                   timer_set (next_timer σ1) (Z.max (clock σ1) t1 + IDLE_DURATION);
                   status_callback k SENDING no_error;
                   socket_send_called s k frame;
                   status_callback k SENT no_error] /\
    statuses_of k (trace σ2) = [CONNECTING; CONNECTED; SENDING; SENT] /\
    ws σ2 = Some s /\ isConnected σ2 = true /\
    sockets σ2 !! s = Some {| socket_host := host; socket_port := port;
                              readyState := WS_OPEN |} /\
    idleTimeout σ2 = Some (next_timer σ1) /\
    waits σ2 = waits σ.
Proof.
  intros Hr Hh Hp Hn Hstep Hj k s.
  pose proof (reachable_Inv _ Hr) as [Hs Ht].
  set (σc := set_clock (Z.max (clock σ) t0) σ).
  assert (Hsc : Inv_s σc) by (apply Inv_s_set_clock, Hs).
  assert (Hnc : needs_connection host port σc) by exact Hn.
  change (Some (sendElement element host port σc) = Some σ1) in Hstep.
  injection Hstep as <-.
  destruct (sendElement_attempt element host port σc Hsc Hh Hp Hnc)
    as (Hws & Hsk & Hw & _ & _ & _ & _ & Hst).
  change (next_socket σc) with s in *. change (next_send σc) with k in *.
  change (waits σc) with (waits σ) in Hw. change (trace σc) with (trace σ) in Hst.
  set (σ1 := sendElement element host port σc) in *. clearbody σ1.
  assert (Hk : statuses_of k (trace σ1) = [CONNECTING]).
  { rewrite Hst, (inv_fresh _ Ht k) by (unfold k; lia).
    rewrite bool_decide_eq_true_2 by reflexivity. reflexivity. }
  split; [exact Hk|].
  assert (Hws1 : waits σ1 !! s = Some (waiting k element host port σc)).
  { rewrite Hw. apply lookup_insert_eq. }
  destruct (resumed_call_sends_on_held_socket σ1 t1 s _ _ Hws1 Hsk eq_refl)
    as (σ2 & Hstep2 & Htr & Hws2 & Hw2 & Hsk2 & Hi2 & _).
  cbn [wait_send wait_element waiting] in Htr. rewrite Hws, Hj in Htr.
  exists σ2. split; [exact Hstep2|]. split; [exact Htr|].
  split.
  { rewrite Htr, statuses_of_app, Hk. cbn.
    rewrite !bool_decide_eq_true_2 by reflexivity. reflexivity. }
  split; [congruence|].
  split; [unfold isConnected; rewrite Hws2, Hws, Hsk2, lookup_insert_eq; reflexivity|].
  split; [rewrite Hsk2, lookup_insert_eq; reflexivity|].
  split; [exact Hi2|].
  rewrite Hw2, Hw. apply delete_insert_id.
  destruct (waits σ !! s) as [w0|] eqn:Hw0; [|reflexivity].
  destruct (inv_waits _ Hs _ _ Hw0) as [Hlt _]. unfold s in Hlt. lia.
Qed.

(** X6. When the connection timer of a waiting call fires, the call is told
    [ERROR] with the timeout message for its own target, and the service
    disconnects: it cancels the idle timer and calls [close] on the socket
    it holds at that moment. With calls that overlap this is the socket of
    a later call; the socket the call waited on is then left as it is. *)
Theorem timed_out_call_closes_held_socket (σ : State) (t : Z) (s : nat) (w : Wait) :
  waits σ !! s = Some w -> wait_due w <= Z.max (clock σ) t ->
  exists σ',
    step σ t (connection_timer s) = Some σ' /\
    trace σ' = trace σ
               ++ [status_callback (wait_send w) ERROR
                     (Connection_timeout_to (wait_host w) (wait_port w))]
               ++ cleared σ
               ++ match ws σ with
                  | Some held => [socket_close_called held]
                  | None => []
                  end /\
    ws σ' = None /\ idleTimeout σ' = None /\ waits σ' = delete s (waits σ) /\
    (forall held, ws σ = Some held ->
       sockets σ' = alter (with_readyState WS_CLOSING) held (sockets σ)) /\
    (ws σ <> Some s -> sockets σ' !! s = sockets σ !! s).
Proof.
  intros Hw Hd.
  assert (Hstep : step σ t (connection_timer s)
    = Some (disconnect
              (statusCallback (wait_send w) ERROR
                 (Connection_timeout_to (wait_host w) (wait_port w))
                 (set_waits (delete s (waits σ)) (set_clock (Z.max (clock σ) t) σ))))).
  { unfold step, on_connection_timer. cbn [waits set_clock clock]. rewrite Hw.
    rewrite (proj2 (Z.leb_le _ _) Hd). reflexivity. }
  eexists. split; [exact Hstep|]. rewrite disconnect_eq.
  unfold cleared, closed, sockets_after_close, statusCallback. unfold_setters.
  split; [rewrite <- !app_assoc; reflexivity|].
  split; [reflexivity|]. split; [reflexivity|]. split; [reflexivity|]. split.
  - intros held ->. reflexivity.
  - intros Hne. destruct (ws σ) as [held|]; [|reflexivity].
    apply lookup_alter_ne. congruence.
Qed.

(** X7. [disconnect] is idempotent: after it the service holds no socket and
    no idle timer, and a second call does nothing, not even to the trace. *)
Theorem disconnect_is_idempotent (σ : State) :
  ws (disconnect σ) = None /\ idleTimeout (disconnect σ) = None /\
  isConnected (disconnect σ) = false /\
  disconnect (disconnect σ) = disconnect σ /\
  (ws σ = None -> idleTimeout σ = None -> disconnect σ = σ).
Proof.
  repeat split; try (rewrite disconnect_eq; reflexivity).
  - rewrite (disconnect_eq (disconnect σ)).
    unfold sockets_after_close, timers_after_clear, cleared, closed.
    rewrite disconnect_eq. cbn. rewrite !app_nil_r. reflexivity.
  - intros Hws Hi. rewrite disconnect_eq.
    unfold sockets_after_close, timers_after_clear, cleared, closed. rewrite Hws, Hi.
    rewrite !app_nil_r. destruct σ; cbn in *; subst; reflexivity.
Qed.


(** [close] is called on the socket in [ws] only: a socket the service no
    longer holds is never closed by it. *)
Lemma no_close_on_dropped_socket (σ σ' : State) (evs : list (Z * Event)) (s0 : nat) :
  Inv σ -> (s0 < next_socket σ)%nat -> ws σ <> Some s0 ->
  run σ evs = Some σ' ->
  exists Δ, trace σ' = trace σ ++ Δ /\ socket_close_called s0 ∉ Δ.
Proof.
  revert σ. induction evs as [|[t ev] evs IH]; intros σ HI Hlt Hws H.
  - injection H as <-. exists []. rewrite app_nil_r. split; [reflexivity|].
    apply not_elem_of_nil.
  - cbn in H. destruct (step σ t ev) as [σ1|] eqn:Hstep; [|discriminate].
    destruct (step_keeps_Inv_result _ _ _ _ Hstep HI) as (HI1 & _ & sts & Δ1 & HΔ1 & HF & _).
    destruct (step_grows _ _ _ _ Hstep) as (Hns & _ & _ & Hg).
    assert (Hws1 : ws σ1 <> Some s0).
    { intros Heq. destruct (Hg _ Heq) as [?|?]; [contradiction | lia]. }
    destruct (IH σ1 HI1 ltac:(lia) Hws1 H) as (Δ2 & HΔ2 & Hno).
    exists (Δ1 ++ Δ2). rewrite HΔ2, HΔ1, app_assoc. split; [reflexivity|].
    intros Hin. apply elem_of_app in Hin as [Hin|Hin]; [|exact (Hno Hin)].
    rewrite Forall_forall in HF. specialize (HF _ Hin). cbn in HF. contradiction.
Qed.

(** X8. A socket that is not open is replaced without being closed: a valid
    call for the current target, made while the socket held is not open
    (still connecting, reconnecting or ended), builds a new socket for the
    same target and holds that one. [close] is not called on the old socket,
    then or ever after; its state is left as it was, and so is the call
    that may wait on it. *)
Theorem unopened_socket_is_abandoned (σ : State) (t : Z) (element : RawPointedDOMElement)
  (host : string) (port : number) (s : nat) :
  reachable σ ->
  host_invalid host = false -> port_invalid port = false ->
  currentHost σ = Some host -> currentPort σ = Some port ->
  ws σ = Some s -> isConnected σ = false ->
  exists σ',
    step σ t (call_sendElement element host port) = Some σ' /\
    trace σ' = trace σ ++ cleared σ
               ++ [status_callback (next_send σ) CONNECTING no_error;
                   socket_created (next_socket σ) host port] /\
    ws σ' = Some (next_socket σ) /\ next_socket σ <> s /\
    sockets σ' = <[next_socket σ := {| socket_host := host; socket_port := port;
                                       readyState := WS_CONNECTING |}]> (sockets σ) /\
    sockets σ' !! s = sockets σ !! s /\
    waits σ' !! s = waits σ !! s /\
    forall evs σ'',
      run σ' evs = Some σ'' ->
      exists Δ, trace σ'' = trace σ' ++ Δ /\ socket_close_called s ∉ Δ.
Proof.
  intros Hr Hh Hp Hth Htp Hws Hc.
  pose proof (reachable_Inv _ Hr) as HI.
  destruct (inv_ws _ (proj1 HI) s Hws) as (Hlt & _).
  assert (Hstep : step σ t (call_sendElement element host port)
                  = Some (sendElement element host port (set_clock (Z.max (clock σ) t) σ)))
    by reflexivity.
  pose proof (reachable_Inv _ (reachable_step _ _ _ _ Hr Hstep)) as HI'.
  eexists. split; [exact Hstep|].
  set (σc := set_clock (Z.max (clock σ) t) σ) in *.
  set (σ' := sendElement element host port σc) in *.
  assert (Heq : σ'
    = set_waits (<[next_socket σ := waiting (next_send σ) element host port σc]> (waits σ))
        (new_ReconnectingWebSocket host port
           (statusCallback (next_send σ) CONNECTING no_error
              (clearIdleTimer (set_next_send (S (next_send σ)) σc))))).
  { unfold σ'. rewrite (sendElement_valid _ _ _ _ Hh Hp). cbn zeta.
    rewrite after_change_same by (rewrite clearIdleTimer_eq; assumption).
    assert (Hc0 : isConnected (clearIdleTimer (set_next_send (S (next_send σc)) σc)) = false).
    { unfold isConnected. rewrite clearIdleTimer_eq. exact Hc. }
    rewrite Hc0. rewrite !clearIdleTimer_eq. reflexivity. }
  clearbody σ'. clear Hstep.
  assert (Hne : next_socket σ <> s) by lia.
  assert (Hf : trace σ' = trace σ ++ cleared σ
               ++ [status_callback (next_send σ) CONNECTING no_error;
                   socket_created (next_socket σ) host port] /\
          ws σ' = Some (next_socket σ) /\
          sockets σ' = <[next_socket σ := {| socket_host := host; socket_port := port;
                                             readyState := WS_CONNECTING |}]> (sockets σ) /\
          waits σ' = <[next_socket σ := waiting (next_send σ) element host port σc]> (waits σ) /\
          next_socket σ' = S (next_socket σ)).
  { rewrite Heq, clearIdleTimer_eq.
    unfold new_ReconnectingWebSocket, statusCallback, cleared.
    cbn [trace ws sockets waits next_socket set_waits set_ws set_sockets emit set_clock
         set_next_send idleTimeout σc].
    rewrite <- !app_assoc. repeat split; reflexivity. }
  destruct Hf as (Htr & Hws' & Hsk' & Hw' & Hns').
  split; [exact Htr|]. split; [exact Hws'|]. split; [exact Hne|]. split; [exact Hsk'|].
  split; [rewrite Hsk'; apply lookup_insert_ne; exact Hne|].
  split; [rewrite Hw'; apply lookup_insert_ne; exact Hne|].
  intros evs σ'' Hrun.
  eapply no_close_on_dropped_socket; [exact HI' | | | exact Hrun].
  - rewrite Hns'. lia.
  - rewrite Hws'. intros [= H]. lia.
Qed.


(** *** The steps of the event loop, as a relation *)

(** What [handleConnectionChange] makes of the state when it accepts the
    target: nothing, the first target, or a change of target. *)
Definition changed (host : string) (port : number) (σ σh : State) : Prop :=
  σh = σ \/ σh = set_current host port σ \/ σh = set_current host port (disconnect σ).

Lemma after_change_changed (host : string) (port : number) (σ : State) :
  changed host port σ (after_change host port σ).
Proof. unfold changed, after_change. repeat case_match; auto. Qed.

(** [stepped σ ev σ']: the task [ev] takes [σ], with its clock set, to [σ']. *)
Inductive stepped (σ : State) : Event -> State -> Prop :=
| stepped_invalid element host port :
    host_invalid host = true \/ port_invalid port = true ->
    stepped σ (call_sendElement element host port)
      (statusCallback (next_send σ) ERROR (validation_error host)
         (clearIdleTimer (set_next_send (S (next_send σ)) σ)))
| stepped_connected element host port σh :
    host_invalid host = false -> port_invalid port = false ->
    changed host port (clearIdleTimer (set_next_send (S (next_send σ)) σ)) σh ->
    isConnected σh = true ->
    stepped σ (call_sendElement element host port)
      (sendElement_resume (next_send σ) element true
         (statusCallback (next_send σ) CONNECTED no_error σh))
| stepped_connecting element host port σh :
    host_invalid host = false -> port_invalid port = false ->
    changed host port (clearIdleTimer (set_next_send (S (next_send σ)) σ)) σh ->
    isConnected σh = false ->
    stepped σ (call_sendElement element host port)
      (set_waits
         (<[next_socket σh := waiting (next_send σ) element host port σh]> (waits σh))
         (new_ReconnectingWebSocket host port
            (statusCallback (next_send σ) CONNECTING no_error σh)))
| stepped_open_resume s sk w :
    sockets σ !! s = Some sk -> readyState sk = WS_CONNECTING -> waits σ !! s = Some w ->
    stepped σ (socket_open s)
      (sendElement_resume (wait_send w) (wait_element w) true
         (statusCallback (wait_send w) CONNECTED no_error
            (set_waits (delete s (waits σ))
               (set_sockets (<[s := with_readyState WS_OPEN sk]> (sockets σ))
                  (next_socket σ) σ))))
| stepped_open s sk :
    sockets σ !! s = Some sk -> readyState sk = WS_CONNECTING -> waits σ !! s = None ->
    stepped σ (socket_open s)
      (set_sockets (<[s := with_readyState WS_OPEN sk]> (sockets σ)) (next_socket σ) σ)
| stepped_lost s sk :
    sockets σ !! s = Some sk -> readyState sk = WS_OPEN ->
    stepped σ (socket_lost s)
      (set_sockets (<[s := with_readyState WS_CONNECTING sk]> (sockets σ)) (next_socket σ) σ)
| stepped_closed s sk :
    sockets σ !! s = Some sk -> readyState sk <> WS_OPEN ->
    stepped σ (socket_closed s)
      (set_sockets (<[s := with_readyState WS_CLOSED sk]> (sockets σ)) (next_socket σ) σ)
| stepped_idle timer due :
    timers σ !! timer = Some due -> due <= clock σ ->
    stepped σ (idle_timer timer)
      (disconnect (set_timers (delete timer (timers σ)) (next_timer σ) σ))
| stepped_timeout s w :
    waits σ !! s = Some w -> wait_due w <= clock σ ->
    stepped σ (connection_timer s)
      (disconnect
         (statusCallback (wait_send w) ERROR
            (Connection_timeout_to (wait_host w) (wait_port w))
            (set_waits (delete s (waits σ)) σ))).

Lemma step_stepped (σ σ' : State) (t : Z) (ev : Event) :
  step σ t ev = Some σ' -> stepped (set_clock (Z.max (clock σ) t) σ) ev σ'.
Proof.
  unfold step. generalize (set_clock (Z.max (clock σ) t) σ) as σc. clear σ. intros σ.
  destruct ev as [element host port|s|s|s|timer|s]; intros H.
  - injection H as <-.
    destruct (host_invalid host) eqn:Hh;
      [rewrite sendElement_invalid by auto; apply stepped_invalid; auto|].
    destruct (port_invalid port) eqn:Hp;
      [rewrite sendElement_invalid by auto; apply stepped_invalid; auto|].
    rewrite (sendElement_valid _ _ _ _ Hh Hp). cbn zeta.
    destruct (isConnected (after_change host port _)) eqn:Hc.
    + apply stepped_connected; auto using after_change_changed.
    + apply stepped_connecting; auto using after_change_changed.
  - pose proof (on_socket_open_eq _ _ _ H) as (sk & Hsk & Hr & Heq). cbn zeta in Heq.
    destruct (waits σ !! s) as [w|] eqn:Hw; subst σ'.
    + apply stepped_open_resume; assumption.
    + apply stepped_open; assumption.
  - unfold on_socket_lost in H. destruct (sockets σ !! s) as [sk|] eqn:Hsk; [|discriminate].
    case_bool_decide; [|discriminate]. injection H as <-. apply stepped_lost; assumption.
  - unfold on_socket_closed in H. destruct (sockets σ !! s) as [sk|] eqn:Hsk; [|discriminate].
    case_bool_decide; [discriminate|]. injection H as <-. apply stepped_closed; assumption.
  - apply on_idle_timer_eq in H as (due & Htm & Hd & ->). eapply stepped_idle; eassumption.
  - apply on_connection_timer_eq in H as (w & Hw & Hd & ->). apply stepped_timeout; assumption.
Qed.


(** A property that holds when the service is made and is kept by every
    step holds in every state the service reaches. *)
Lemma reachable_invariant (I : State -> Prop) :
  I new_ElementSenderService ->
  (forall σ t ev σ', Inv σ -> I σ -> step σ t ev = Some σ' -> I σ') ->
  forall σ, reachable σ -> I σ.
Proof.
  intros H0 Hstep σ [evs Hrun].
  assert (H : Inv new_ElementSenderService /\ I new_ElementSenderService)
    by (split; [apply Inv_new | exact H0]).
  revert H Hrun. generalize new_ElementSenderService as σ0.
  induction evs as [|[t ev] evs IH]; intros σ0 [HI H] Hrun.
  - injection Hrun as <-. exact H.
  - cbn in Hrun. destruct (step σ0 t ev) as [σ1|] eqn:Hs; [|discriminate].
    apply (IH σ1); [|exact Hrun]. split.
    + exact (proj1 (step_keeps_Inv_result _ _ _ _ Hs HI)).
    + exact (Hstep _ _ _ _ HI H Hs).
Qed.

(** *** What a step adds to the trace, in full *)

(** The state [handleConnectionChange] leaves, field by field: the target
    was kept or set for the first time, or it changed and the service
    disconnected. *)
Lemma changed_fields (host : string) (port : number) (n : nat) (σ σh : State) :
  changed host port (clearIdleTimer (set_next_send n σ)) σh ->
  waits σh = waits σ /\ next_socket σh = next_socket σ /\ next_timer σh = next_timer σ /\
  clock σh = clock σ /\ idleTimeout σh = None /\
  ((trace σh = trace σ ++ cleared σ /\ ws σh = ws σ /\ sockets σh = sockets σ) \/
   (trace σh = trace σ ++ cleared σ ++ closed σ /\ ws σh = None /\
    sockets σh = sockets_after_close σ)).
Proof.
  intros [H | [H | H]]; subst σh; rewrite ?disconnect_eq, clearIdleTimer_eq;
    unfold cleared, closed, sockets_after_close; cbn;
    rewrite ?app_nil_r, <- ?app_assoc; repeat split; auto.
Qed.

(** Observations that are neither statuses nor frames: a timer cleared, or
    [close] called on the socket held before the step, which is not the
    one held after it. *)
Definition quiet (σ σ' : State) (o : Obs) : Prop :=
  match o with
  | timer_cleared _ => True
  | socket_close_called s => ws σ = Some s /\ ws σ' <> Some s
  | _ => False
  end.

(** What the call [k] that runs in a step is told and hands over. *)
Definition call_part (k : nat) (σ' : State) (T : list Obs) : Prop :=
  (exists e, T = [status_callback k ERROR e]) \/
  (exists s h p, T = [status_callback k CONNECTING no_error; socket_created s h p]) \/
  (exists n due e,
     T = [status_callback k CONNECTED no_error; timer_set n due;
          status_callback k SENDING no_error; status_callback k ERROR e]) \/
  (exists n due s frame,
     ws σ' = Some s /\
     T = [status_callback k CONNECTED no_error; timer_set n due;
          status_callback k SENDING no_error; socket_send_called s k frame;
          status_callback k SENT no_error]).

Lemma quiet_cleared (σ σ' σ0 : State) : Forall (quiet σ σ') (cleared σ0).
Proof. unfold cleared. destruct (idleTimeout σ0); repeat constructor. Qed.

Lemma quiet_closed (σ σ' : State) :
  (forall s, ws σ = Some s -> ws σ' <> Some s) -> Forall (quiet σ σ') (closed σ).
Proof.
  intros H. unfold closed. destruct (ws σ) as [s|] eqn:Hws; [|constructor].
  constructor; [|constructor]. split; [exact Hws | apply H; reflexivity].
Qed.

Lemma resume_part (k : nat) (element : RawPointedDOMElement) (σ : State) :
  exists T,
    trace (sendElement_resume k element true (statusCallback k CONNECTED no_error σ))
    = trace σ ++ T /\
    call_part k (sendElement_resume k element true (statusCallback k CONNECTED no_error σ)) T.
Proof.
  rewrite resume_eq. unfold transmission, statusCallback. unfold_setters.
  destruct (ws σ) as [s|] eqn:Hws; [destruct (JSON_stringify element (clock σ)) as [frame|m]|];
    eexists; (split; [rewrite <- !app_assoc; reflexivity|]).
  - right. right. right. exists (next_timer σ), (clock σ + IDLE_DURATION), s, frame.
    split; reflexivity.
  - right. right. left. eexists _, _, _. reflexivity.
  - right. right. left. eexists _, _, _. reflexivity.
Qed.

Lemma stepped_shape (σ σ' : State) (ev : Event) :
  Inv_s σ -> stepped σ ev σ' ->
  exists Q1 T Q2,
    trace σ' = trace σ ++ Q1 ++ T ++ Q2 /\
    Forall (quiet σ σ') Q1 /\ Forall (quiet σ σ') Q2 /\
    match actor σ ev with
    | Some k => call_part k σ' T
    | None => T = []
    end.
Proof.
  intros Hs H. destruct H as
    [element host port Hinv
    |element host port σh Hh Hp Hch Hc
    |element host port σh Hh Hp Hch Hc
    |s sk w Hsk Hr Hw
    |s sk Hsk Hr Hw
    |s sk Hsk Hr
    |s sk Hsk Hr
    |timer due Htm Hd
    |s w Hw Hd]; cbn [actor].
  - exists (cleared σ), [status_callback (next_send σ) ERROR (validation_error host)], [].
    split; [|split; [apply quiet_cleared|split; [constructor|left; eauto]]].
    rewrite clearIdleTimer_eq. unfold cleared. cbn. rewrite <- ?app_assoc, ?app_nil_r.
    reflexivity.
  - destruct (changed_fields _ _ _ _ _ Hch)
      as (_ & _ & _ & _ & _ & [(Htr & Hws & _)|(_ & Hws & _)]);
      [|rewrite (isConnected_no_ws _ Hws) in Hc; discriminate].
    destruct (resume_part (next_send σ) element σh) as (T & HT & Hpart).
    exists (cleared σ), T, []. rewrite HT, Htr, ?app_nil_r, <- ?app_assoc.
    split; [reflexivity|]. split; [apply quiet_cleared|]. split; [constructor | exact Hpart].
  - destruct (changed_fields _ _ _ _ _ Hch)
      as (_ & Hns & _ & _ & _ & [(Htr & Hws & _)|(Htr & Hws & _)]).
    + exists (cleared σ),
        [status_callback (next_send σ) CONNECTING no_error;
         socket_created (next_socket σ) host port], [].
      unfold new_ReconnectingWebSocket, statusCallback. unfold_setters.
      rewrite Htr, Hns, ?app_nil_r, <- ?app_assoc.
      split; [reflexivity|]. split; [apply quiet_cleared|]. split; [constructor|].
      right. left. eauto.
    + exists (cleared σ ++ closed σ),
        [status_callback (next_send σ) CONNECTING no_error;
         socket_created (next_socket σ) host port], [].
      unfold new_ReconnectingWebSocket, statusCallback. unfold_setters.
      rewrite Htr, Hns, ?app_nil_r, <- ?app_assoc.
      split; [reflexivity|]. split; [|split; [constructor | right; left; eauto]].
      apply Forall_app. split; [apply quiet_cleared|]. apply quiet_closed.
      intros s0 Hs0 [= Heq]. destruct (inv_ws _ Hs _ Hs0) as [Hlt _]. lia.
  - rewrite Hw. cbn [fmap option_fmap option_map].
    match goal with |- context [sendElement_resume ?k ?e true (statusCallback ?k CONNECTED no_error ?s0)] =>
      destruct (resume_part k e s0) as (T & HT & Hpart) end.
    exists [], T, []. rewrite HT. cbn [trace set_waits set_sockets app].
    rewrite app_nil_r. split; [reflexivity|]. split; [constructor|].
    split; [constructor | exact Hpart].
  - rewrite Hw. exists [], [], []. cbn. rewrite app_nil_r. repeat split; constructor.
  - exists [], [], []. cbn. rewrite app_nil_r. repeat split; constructor.
  - exists [], [], []. cbn. rewrite app_nil_r. repeat split; constructor.
  - exists (cleared σ ++ closed σ), [], []. rewrite disconnect_eq. cbn [trace ws].
    unfold cleared, closed. cbn [idleTimeout ws set_timers]. fold (cleared σ) (closed σ).
    rewrite app_nil_r. split; [reflexivity|]. split; [|split; constructor].
    apply Forall_app. split; [apply quiet_cleared|]. apply quiet_closed.
    intros s0 _. discriminate.
  - rewrite Hw. cbn [fmap option_fmap option_map].
    exists [], [status_callback (wait_send w) ERROR
                  (Connection_timeout_to (wait_host w) (wait_port w))],
      (cleared σ ++ closed σ).
    rewrite disconnect_eq. cbn [trace ws app].
    unfold cleared, closed. cbn [idleTimeout ws statusCallback emit set_waits trace].
    fold (cleared σ) (closed σ). rewrite <- !app_assoc.
    split; [reflexivity|]. split; [constructor|]. split; [|left; eauto].
    apply Forall_app. split; [apply quiet_cleared|]. apply quiet_closed.
    intros s0 _. discriminate.
Qed.


(** *** One frame for each call that is told [SENT] *)

(** What the service tells one call and hands to a socket for it. *)
Inductive CallEvent : Type :=
| told (status : ConnectionStatus)
| handed (s : nat) (frame : string).

(** The statuses and the frames of the call [k], in order. *)
Definition events_of (k : nat) (l : list Obs) : list CallEvent :=
  omap (fun o =>
          match o with
          | status_callback k' st _ => if bool_decide (k' = k) then Some (told st) else None
          | socket_send_called s k' frame =>
              if bool_decide (k' = k) then Some (handed s frame) else None
          | _ => None
          end) l.

Lemma events_of_app (k : nat) (l1 l2 : list Obs) :
  events_of k (l1 ++ l2) = events_of k l1 ++ events_of k l2.
Proof. apply omap_app. Qed.

Lemma events_of_quiet (k : nat) (σ σ' : State) (Q : list Obs) :
  Forall (quiet σ σ') Q -> events_of k Q = [] /\ statuses_of k Q = [].
Proof.
  induction 1 as [|o Q Ho _ [IH1 IH2]]; [split; reflexivity|].
  destruct o; try contradiction; cbn; fold (events_of k Q) (statuses_of k Q); auto.
Qed.

Lemma handed_events_of (k s : nat) (frame : string) (l : list Obs) :
  handed s frame ∈ events_of k l <-> socket_send_called s k frame ∈ l.
Proof.
  unfold events_of. rewrite list_elem_of_omap. split.
  - intros (o & Hin & Ho). destruct o; try discriminate; case_bool_decide; try discriminate.
    + injection Ho as <- <-. subst. exact Hin.
  - intros Hin. exists (socket_send_called s k frame). split; [exact Hin|].
    rewrite bool_decide_eq_true_2 by reflexivity. reflexivity.
Qed.

Lemma told_events_of (k : nat) (st : ConnectionStatus) (l : list Obs) :
  told st ∈ events_of k l <-> st ∈ statuses_of k l.
Proof.
  unfold events_of, statuses_of. rewrite !list_elem_of_omap. split.
  - intros (o & Hin & Ho). exists o. split; [exact Hin|].
    destruct o; try discriminate; case_bool_decide; try discriminate.
    injection Ho as <-. reflexivity.
  - intros (o & Hin & Ho). exists o. split; [exact Hin|].
    destruct o; try discriminate; case_bool_decide; try discriminate.
    injection Ho as <-. reflexivity.
Qed.

(** The events of one call in the part of a step that is the call's. *)
Lemma events_of_call_part (k k' : nat) (σ' : State) (T : list Obs) :
  call_part k' σ' T ->
  (k <> k' -> events_of k T = [] /\ statuses_of k T = []) /\
  (k = k' ->
   (events_of k T = map told (statuses_of k T) /\ SENT ∉ statuses_of k T) \/
   (exists s frame,
      events_of k T = [told CONNECTED; told SENDING; handed s frame; told SENT] /\
      statuses_of k T = [CONNECTED; SENDING; SENT])).
Proof.
  intros HT. split.
  - intros Hne.
    destruct HT as [(e & ->)|[(s & h & p & ->)|[(n & due & e & ->)|(n & due & s & f & _ & ->)]]];
      cbn; rewrite !bool_decide_eq_false_2 by congruence; split; reflexivity.
  - intros ->.
    destruct HT as [(e & ->)|[(s & h & p & ->)|[(n & due & e & ->)|(n & due & s & f & _ & ->)]]];
      cbn; rewrite !bool_decide_eq_true_2 by reflexivity.
    + left. split; [reflexivity | not_in_list].
    + left. split; [reflexivity | not_in_list].
    + left. split; [reflexivity | not_in_list].
    + right. eauto.
Qed.

Lemma step_events (σ σ' : State) (t : Z) (ev : Event) :
  Inv_s σ -> step σ t ev = Some σ' ->
  exists Δ, trace σ' = trace σ ++ Δ /\
    forall k,
      (actor σ ev <> Some k -> events_of k Δ = [] /\ statuses_of k Δ = []) /\
      (actor σ ev = Some k ->
       (events_of k Δ = map told (statuses_of k Δ) /\ SENT ∉ statuses_of k Δ) \/
       (exists s frame,
          events_of k Δ = [told CONNECTED; told SENDING; handed s frame; told SENT] /\
          statuses_of k Δ = [CONNECTED; SENDING; SENT])).
Proof.
  intros Hs Hstep. apply step_stepped in Hstep.
  apply stepped_shape in Hstep as (Q1 & T & Q2 & Htr & HQ1 & HQ2 & HT);
    [|apply Inv_s_set_clock, Hs].
  exists (Q1 ++ T ++ Q2). split; [exact Htr|]. intros k.
  rewrite !events_of_app, !statuses_of_app.
  destruct (events_of_quiet k _ _ _ HQ1) as [-> ->].
  destruct (events_of_quiet k _ _ _ HQ2) as [-> ->].
  rewrite !app_nil_r. cbn [app].
  change (actor (set_clock (Z.max (clock σ) t) σ) ev) with (actor σ ev) in HT.
  destruct (actor σ ev) as [k'|].
  - destruct (events_of_call_part k k' _ _ HT) as [H1 H2]. split.
    + intros Hne. apply H1. congruence.
    + intros [= ->]. apply H2. reflexivity.
  - subst T. split; [split; reflexivity | discriminate].
Qed.

(** What one call was told and what was handed to a socket for it: no
    frame and no [SENT]; or one frame, handed over between [SENDING] and
    [SENT]. *)
Definition one_frame (k : nat) (l : list Obs) : Prop :=
  (events_of k l = map told (statuses_of k l) /\ SENT ∉ statuses_of k l) \/
  (exists pre s frame,
     (pre = [] \/ pre = [CONNECTING]) /\
     statuses_of k l = pre ++ [CONNECTED; SENDING; SENT] /\
     events_of k l = map told (pre ++ [CONNECTED; SENDING]) ++ [handed s frame; told SENT]).

Lemma actor_statuses (σ : State) (ev : Event) (k : nat) :
  Inv σ -> actor σ ev = Some k ->
  statuses_of k (trace σ) = [] \/ statuses_of k (trace σ) = [CONNECTING].
Proof.
  intros [_ Ht] Ha. destruct ev as [element host port|s| | | |s]; try discriminate.
  - injection Ha as <-. left. apply (inv_fresh _ Ht). lia.
  - cbn in Ha. destruct (waits σ !! s) as [w|] eqn:Hw; [|discriminate].
    injection Ha as <-. right. exact (inv_waiting _ Ht _ _ Hw).
  - cbn in Ha. destruct (waits σ !! s) as [w|] eqn:Hw; [|discriminate].
    injection Ha as <-. right. exact (inv_waiting _ Ht _ _ Hw).
Qed.

Lemma step_one_frame (σ σ' : State) (t : Z) (ev : Event) :
  Inv σ -> (forall k, one_frame k (trace σ)) -> step σ t ev = Some σ' ->
  forall k, one_frame k (trace σ').
Proof.
  intros HI HK Hstep k.
  destruct (step_events _ _ _ _ (proj1 HI) Hstep) as (Δ & -> & HΔ).
  destruct (HΔ k) as [Hother Hactor].
  unfold one_frame. rewrite !events_of_app, !statuses_of_app.
  destruct (decide (actor σ ev = Some k)) as [Ha|Ha].
  - assert (Hbefore : events_of k (trace σ) = map told (statuses_of k (trace σ)) /\
                      (statuses_of k (trace σ) = [] \/ statuses_of k (trace σ) = [CONNECTING])).
    { split; [|exact (actor_statuses _ _ _ HI Ha)].
      destruct (HK k) as [[H _]|(pre & s & f & _ & Hst & _)]; [exact H|].
      exfalso. destruct (actor_statuses _ _ _ HI Ha) as [H|H]; rewrite H in Hst;
        destruct pre as [|? [|? ?]]; discriminate. }
    destruct Hbefore as [Hev Hst].
    destruct (Hactor Ha) as [[He Hno]|(s & f & He & Hs)].
    + left. rewrite Hev, He, <- map_app. split; [reflexivity|].
      rewrite elem_of_app. intros [H|H]; [|exact (Hno H)].
      destruct Hst as [Hst|Hst]; rewrite Hst in H; revert H; not_in_list.
    + right. exists (statuses_of k (trace σ)), s, f. split; [exact Hst|].
      rewrite Hs, He, Hev. split; [reflexivity|].
      rewrite map_app, <- app_assoc. reflexivity.
  - destruct (Hother Ha) as [-> ->]. rewrite !app_nil_r. exact (HK k).
Qed.

(** X9. Every call that is told [SENT] has had one frame handed to a socket,
    after it was told [SENDING] and before it was told [SENT]; a call that
    is not told [SENT] has had none. So no call ever sends twice, and
    [SENT] is told for a frame that was handed over. *)
Theorem one_frame_for_each_sent_call (σ : State) (k : nat) :
  reachable σ ->
  one_frame k (trace σ) /\
  (SENT ∈ statuses_of k (trace σ) <->
   exists s frame, socket_send_called s k frame ∈ trace σ) /\
  (forall s frame s' frame',
     socket_send_called s k frame ∈ trace σ ->
     socket_send_called s' k frame' ∈ trace σ ->
     s = s' /\ frame = frame').
Proof.
  intros Hr.
  assert (HK : forall k, one_frame k (trace σ)).
  { revert σ Hr. apply (reachable_invariant (fun σ => forall k, one_frame k (trace σ))).
    - intros k0. left. split; [reflexivity | apply not_elem_of_nil].
    - intros σ t ev σ' HI HK Hstep. exact (step_one_frame _ _ _ _ HI HK Hstep). }
  split; [exact (HK k)|].
  destruct (HK k) as [[Hev Hno]|(pre & s0 & f0 & Hpre & Hst & Hev)].
  - assert (Hnone : forall s frame, socket_send_called s k frame ∉ trace σ).
    { intros s frame Hin. apply handed_events_of in Hin. rewrite Hev in Hin.
      apply list_elem_of_fmap in Hin as (st & Hst & _). discriminate Hst. }
    split.
    + split; [intros H; contradiction | intros (s & f & H); exfalso; exact (Hnone _ _ H)].
    + intros s f s' f' H. exfalso. exact (Hnone _ _ H).
  - assert (Hall : forall s frame,
              socket_send_called s k frame ∈ trace σ -> s = s0 /\ frame = f0).
    { intros s frame Hin. apply handed_events_of in Hin. rewrite Hev in Hin.
      apply elem_of_app in Hin as [Hin|Hin].
      - apply list_elem_of_fmap in Hin as (st & Hst' & _). discriminate Hst'.
      - apply elem_of_cons in Hin as [Hin|Hin]; [injection Hin as -> ->; auto|].
        apply list_elem_of_singleton in Hin. discriminate Hin. }
    split.
    + split.
      * intros _. exists s0, f0. apply handed_events_of. rewrite Hev.
        apply elem_of_app. right. apply list_elem_of_here.
      * intros _. rewrite Hst. apply elem_of_app. right. in_list.
    + intros s f s' f' H H'. destruct (Hall _ _ H) as [-> ->].
      destruct (Hall _ _ H') as [-> ->]. auto.
Qed.


(** *** Sockets that were closed, and the targets of sockets *)

(** [close] was not called on the socket held, and it was called only on
    sockets that exist. *)
Definition closed_sockets_dropped (σ : State) : Prop :=
  forall s, socket_close_called s ∈ trace σ -> ws σ <> Some s /\ (s < next_socket σ)%nat.

Lemma call_part_no_close (k s : nat) (σ' : State) (T : list Obs) :
  call_part k σ' T -> socket_close_called s ∉ T.
Proof.
  intros [(e & ->)|[(s0 & h & p & ->)|[(n & due & e & ->)|(n & due & s0 & f & _ & ->)]]];
    not_in_list.
Qed.

Lemma call_part_frame (k k' s : nat) (frame : string) (σ' : State) (T : list Obs) :
  call_part k σ' T -> socket_send_called s k' frame ∈ T -> ws σ' = Some s.
Proof.
  intros [(e & ->)|[(s0 & h & p & ->)|[(n & due & e & ->)|(n & due & s0 & f & Hws & ->)]]] Hin;
    try (exfalso; revert Hin; not_in_list).
  do 3 (apply elem_of_cons in Hin as [Hin|Hin]; [discriminate Hin|]).
  apply elem_of_cons in Hin as [Hin|Hin]; [injection Hin as -> _ _; exact Hws|].
  apply list_elem_of_singleton in Hin. discriminate Hin.
Qed.

Lemma quiet_no_frame (σ σ' : State) (Q : list Obs) (s k : nat) (frame : string) :
  Forall (quiet σ σ') Q -> socket_send_called s k frame ∉ Q.
Proof. intros HQ Hin. rewrite Forall_forall in HQ. exact (HQ _ Hin). Qed.

Lemma quiet_close (σ σ' : State) (Q : list Obs) (s : nat) :
  Forall (quiet σ σ') Q -> socket_close_called s ∈ Q -> ws σ = Some s /\ ws σ' <> Some s.
Proof. intros HQ Hin. rewrite Forall_forall in HQ. exact (HQ _ Hin). Qed.

(** In a step, frames go to the socket held after it, and [close] is
    called on the socket held before it, which is dropped. *)
Lemma step_frames_and_closes (σ σ' : State) (t : Z) (ev : Event) :
  Inv_s σ -> step σ t ev = Some σ' ->
  exists Δ, trace σ' = trace σ ++ Δ /\
    (forall s k frame, socket_send_called s k frame ∈ Δ -> ws σ' = Some s) /\
    (forall s, socket_close_called s ∈ Δ -> ws σ = Some s /\ ws σ' <> Some s).
Proof.
  intros Hs Hstep. apply step_stepped in Hstep.
  apply stepped_shape in Hstep as (Q1 & T & Q2 & Htr & HQ1 & HQ2 & HT);
    [|apply Inv_s_set_clock, Hs].
  change (actor (set_clock (Z.max (clock σ) t) σ) ev) with (actor σ ev) in HT.
  exists (Q1 ++ T ++ Q2). split; [exact Htr|]. split.
  - intros s k frame Hin. rewrite !elem_of_app in Hin.
    destruct Hin as [Hin|[Hin|Hin]];
      [exfalso; exact (quiet_no_frame _ _ _ _ _ _ HQ1 Hin)| |
       exfalso; exact (quiet_no_frame _ _ _ _ _ _ HQ2 Hin)].
    destruct (actor σ ev) as [a|]; [exact (call_part_frame _ _ _ _ _ _ HT Hin)|].
    subst T. apply elem_of_nil in Hin. contradiction.
  - intros s Hin. rewrite !elem_of_app in Hin.
    destruct Hin as [Hin|[Hin|Hin]];
      [exact (quiet_close _ _ _ _ HQ1 Hin)| | exact (quiet_close _ _ _ _ HQ2 Hin)].
    exfalso. destruct (actor σ ev) as [a|]; [exact (call_part_no_close _ _ _ _ HT Hin)|].
    subst T. apply elem_of_nil in Hin. contradiction.
Qed.

Lemma step_closed_sockets_dropped (σ σ' : State) (t : Z) (ev : Event) :
  Inv σ -> closed_sockets_dropped σ -> step σ t ev = Some σ' -> closed_sockets_dropped σ'.
Proof.
  intros HI HJ Hstep s.
  destruct (step_frames_and_closes _ _ _ _ (proj1 HI) Hstep) as (Δ & -> & _ & Hc).
  destruct (step_grows _ _ _ _ Hstep) as (Hns & _ & _ & Hg).
  rewrite elem_of_app. intros [Hin|Hin].
  - destruct (HJ s Hin) as [Hne Hlt]. split; [|lia].
    intros Heq. destruct (Hg _ Heq) as [?|?]; [contradiction | lia].
  - destruct (Hc s Hin) as [Hws Hne]. split; [exact Hne|].
    destruct (inv_ws _ (proj1 HI) s Hws) as [Hlt _]. lia.
Qed.

Lemma reachable_closed_sockets_dropped (σ : State) :
  reachable σ -> closed_sockets_dropped σ.
Proof.
  revert σ. apply (reachable_invariant closed_sockets_dropped).
  - intros s Hin. apply elem_of_nil in Hin. contradiction.
  - intros σ t ev σ' HI HJ Hstep. exact (step_closed_sockets_dropped _ _ _ _ HI HJ Hstep).
Qed.

(** Nothing is sent on a socket after [close] was called on it. *)
Definition no_frame_after_close (l : list Obs) : Prop :=
  forall l1 s l2, l = l1 ++ socket_close_called s :: l2 ->
    forall k frame, socket_send_called s k frame ∉ l2.

Lemma step_no_frame_after_close (σ σ' : State) (t : Z) (ev : Event) :
  Inv σ -> closed_sockets_dropped σ -> no_frame_after_close (trace σ) ->
  step σ t ev = Some σ' -> no_frame_after_close (trace σ').
Proof.
  intros HI HJ HN Hstep.
  pose proof (step_closed_sockets_dropped _ _ _ _ HI HJ Hstep) as HJ'.
  destruct (step_frames_and_closes _ _ _ _ (proj1 HI) Hstep) as (Δ & HΔ & Hf & _).
  intros l1 s l2 Heq k frame Hin.
  assert (Hclose : socket_close_called s ∈ trace σ').
  { rewrite Heq. apply elem_of_app. right. apply list_elem_of_here. }
  destruct (HJ' s Hclose) as [Hne _].
  rewrite HΔ in Heq. symmetry in Heq. apply app_eq_inv in Heq.
  destruct Heq as [(m & -> & Hm)|(m & Htr & Hm)].
  - apply Hne, (Hf s k frame). rewrite Hm. apply elem_of_app. right.
    apply list_elem_of_further, Hin.
  - destruct m as [|o m].
    + cbn in Hm. apply Hne, (Hf s k frame). rewrite <- Hm.
      apply list_elem_of_further, Hin.
    + injection Hm as Ho Hl. subst o l2. apply elem_of_app in Hin as [Hin|Hin].
      * exact (HN _ _ _ Htr k frame Hin).
      * apply Hne, (Hf s k frame), Hin.
Qed.

(** X10. The service never uses a socket it has closed: once [close] was called
    on a socket, no frame is handed to that socket, and the service does not
    hold it. *)
Theorem closed_socket_is_never_used (σ : State) (s : nat) (l1 l2 : list Obs) :
  reachable σ ->
  trace σ = l1 ++ socket_close_called s :: l2 ->
  ws σ <> Some s /\ forall k frame, socket_send_called s k frame ∉ l2.
Proof.
  intros Hr Heq. split.
  - apply (reachable_closed_sockets_dropped σ Hr). rewrite Heq.
    apply elem_of_app. right. apply list_elem_of_here.
  - revert l1 s l2 Heq.
    change (no_frame_after_close (trace σ)).
    assert (H : closed_sockets_dropped σ /\ no_frame_after_close (trace σ));
      [|exact (proj2 H)].
    revert σ Hr.
    apply (reachable_invariant
             (fun σ => closed_sockets_dropped σ /\ no_frame_after_close (trace σ))).
    + split.
      * intros s Hin. apply elem_of_nil in Hin. contradiction.
      * intros l1 s l2 Heq. destruct l1; discriminate Heq.
    + intros σ t ev σ' HI [HJ HN] Hstep. split.
      * exact (step_closed_sockets_dropped _ _ _ _ HI HJ Hstep).
      * exact (step_no_frame_after_close _ _ _ _ HI HJ HN Hstep).
Qed.


Lemma port_valid_spec (port : number) :
  port_invalid port = false <->
  exists q, port = Num q /\ (Q2Qc (inject_Z 0) < q)%Qc /\ (q <= Q2Qc (inject_Z 65535))%Qc.
Proof.
  split.
  - intros H. destruct port as [|q]; [discriminate H|]. exists q. split; [reflexivity|].
    split.
    + apply Qcnot_le_lt. intros Hle.
      assert (Hi : port_invalid (Num q) = true); [|congruence].
      apply port_invalid_spec. right. exists q. auto.
    + apply Qcnot_lt_le. intros Hlt.
      assert (Hi : port_invalid (Num q) = true); [|congruence].
      apply port_invalid_spec. right. exists q. auto.
  - intros (q & -> & Hlo & Hhi). destruct (port_invalid (Num q)) eqn:Hi; [|reflexivity].
    apply port_invalid_spec in Hi as [Hi|(q' & [= <-] & [Hi|Hi])]; [discriminate| |].
    + exfalso. exact (Qclt_not_le _ _ Hlo Hi).
    + exfalso. exact (Qclt_not_le _ _ Hi Hhi).
Qed.

(** The sockets after a step: those there were, each for the target it was
    built for, and the one the step built, for the valid target of the
    call. *)
Lemma stepped_sockets (σ σ' : State) (ev : Event) (s : nat) (sk' : Socket) :
  stepped σ ev σ' -> sockets σ' !! s = Some sk' ->
  (exists sk, sockets σ !! s = Some sk /\
     socket_host sk' = socket_host sk /\ socket_port sk' = socket_port sk) \/
  (s = next_socket σ /\
   host_invalid (socket_host sk') = false /\ port_invalid (socket_port sk') = false /\
   socket_created s (socket_host sk') (socket_port sk') ∈ trace σ').
Proof.
  assert (Hset : forall s0 sk0 r,
    sockets σ !! s0 = Some sk0 ->
    <[s0 := with_readyState r sk0]> (sockets σ) !! s = Some sk' ->
    exists sk, sockets σ !! s = Some sk /\
      socket_host sk' = socket_host sk /\ socket_port sk' = socket_port sk).
  { intros s0 sk0 r Hsk0. rewrite lookup_insert_Some.
    intros [[<- <-]|[_ H]]; eauto. }
  intros H. destruct H as
    [element host port Hinv
    |element host port σh Hh Hp Hch Hc
    |element host port σh Hh Hp Hch Hc
    |s0 sk w Hsk Hr Hw
    |s0 sk Hsk Hr Hw
    |s0 sk Hsk Hr
    |s0 sk Hsk Hr
    |timer due Htm Hd
    |s0 w Hw Hd].
  - rewrite clearIdleTimer_eq. cbn. eauto.
  - rewrite resume_eq. cbn [sockets statusCallback emit].
    destruct (changed_fields _ _ _ _ _ Hch)
      as (_ & _ & _ & _ & _ & [(_ & _ & ->)|(_ & _ & ->)]); [eauto|].
    intros H. left. exact (sockets_after_close_Some _ _ _ H).
  - unfold new_ReconnectingWebSocket, statusCallback. unfold_setters.
    destruct (changed_fields _ _ _ _ _ Hch)
      as (_ & Hns & _ & _ & _ & Hcase).
    rewrite Hns, lookup_insert_Some. intros [[<- <-]|[_ H]].
    + right. cbn. split; [reflexivity|]. split; [exact Hh|]. split; [exact Hp|].
      apply elem_of_app. right. apply list_elem_of_here.
    + left. destruct Hcase as [(_ & _ & Hsk)|(_ & _ & Hsk)]; rewrite Hsk in H; [eauto|].
      exact (sockets_after_close_Some _ _ _ H).
  - rewrite resume_eq. cbn [sockets statusCallback emit set_waits set_sockets].
    intros H. left. exact (Hset _ _ _ Hsk H).
  - cbn. intros H. left. exact (Hset _ _ _ Hsk H).
  - cbn. intros H. left. exact (Hset _ _ _ Hsk H).
  - cbn. intros H. left. exact (Hset _ _ _ Hsk H).
  - rewrite disconnect_eq. cbn [sockets]. intros H. left.
    exact (sockets_after_close_Some _ _ _ H).
  - rewrite disconnect_eq. cbn [sockets]. intros H. left.
    exact (sockets_after_close_Some _ _ _ H).
Qed.

(** X11. Every socket was built by the service in a call of [sendElement], for
    a target that passed the validation: a host that is not blank and a
    port above 0 and at most 65535. The socket the service holds is one
    built for the current target, and [close] was not called on it. *)
Theorem sockets_are_built_for_valid_targets (σ : State) :
  reachable σ ->
  (forall s sk, sockets σ !! s = Some sk ->
     socket_created s (socket_host sk) (socket_port sk) ∈ trace σ /\
     socket_host sk <> "" /\ trims_to_empty (socket_host sk) = false /\
     exists q, socket_port sk = Num q /\
       (Q2Qc (inject_Z 0) < q)%Qc /\ (q <= Q2Qc (inject_Z 65535))%Qc) /\
  (forall s, ws σ = Some s ->
     (socket_close_called s ∉ trace σ) /\
     exists sk, sockets σ !! s = Some sk /\
       currentHost σ = Some (socket_host sk) /\ currentPort σ = Some (socket_port sk)).
Proof.
  intros Hr. split.
  - assert (H : forall s sk, sockets σ !! s = Some sk ->
                  socket_created s (socket_host sk) (socket_port sk) ∈ trace σ /\
                  host_invalid (socket_host sk) = false /\
                  port_invalid (socket_port sk) = false).
    { revert σ Hr.
      apply (reachable_invariant
               (fun σ => forall s sk, sockets σ !! s = Some sk ->
                  socket_created s (socket_host sk) (socket_port sk) ∈ trace σ /\
                  host_invalid (socket_host sk) = false /\
                  port_invalid (socket_port sk) = false)).
      - intros s sk H. cbn in H. rewrite lookup_empty in H. discriminate H.
      - intros σ t ev σ' HI IH Hstep s sk' Hsk'.
        destruct (step_keeps_Inv_result _ _ _ _ Hstep HI) as (_ & _ & sts & Δ & HΔ & _).
        apply step_stepped in Hstep.
        destruct (stepped_sockets _ _ _ _ _ Hstep Hsk')
          as [(sk & Hsk & Hh & Hp)|(_ & Hh & Hp & Hin)].
        + destruct (IH s sk Hsk) as (Hin & Hvh & Hvp). rewrite Hh, Hp.
          split; [|split; assumption]. rewrite HΔ. apply elem_of_app. left. exact Hin.
        + auto. }
    intros s sk Hsk. destruct (H s sk Hsk) as (Hin & Hvh & Hvp).
    split; [exact Hin|].
    assert (Hn : ~ (socket_host sk = "" \/ trims_to_empty (socket_host sk) = true)).
    { rewrite <- host_invalid_spec. congruence. }
    split; [tauto|]. split; [destruct (trims_to_empty (socket_host sk)); tauto|].
    apply port_valid_spec, Hvp.
  - intros s Hws. split.
    + intros Hin. destruct (reachable_closed_sockets_dropped σ Hr s Hin) as [Hne _].
      contradiction.
    + destruct (inv_ws _ (proj1 (reachable_Inv _ Hr)) s Hws) as (_ & sk & Hsk & Hh & Hp).
      eauto.
Qed.

End SenderCases.

(** ** The order of the statuses of a call *)

Section StatusOrder.
Context {P : Platform}.

(** The order in which a call that opens a connection is told its
    statuses, and the order for a call that finds the connection open. *)
Definition status_order : list ConnectionStatus := [CONNECTING; CONNECTED; SENDING; SENT].

Definition reuse_order : list ConnectionStatus := [CONNECTED; SENDING; SENT].

(** What a call was told when it is over. *)
Definition finished_orders : list (list ConnectionStatus) :=
  [ status_order; reuse_order;
    [ERROR]; [CONNECTING; ERROR];
    [CONNECTING; CONNECTED; SENDING; ERROR]; [CONNECTED; SENDING; ERROR] ].

Lemma finished_in_order (l : list ConnectionStatus) :
  l ∈ finished_orders ->
  exists order p e,
    (order = status_order \/ order = reuse_order) /\
    p `prefix_of` order /\ l = p ++ e /\ (e = [] \/ (e = [ERROR] /\ p <> order)).
Proof.
  unfold finished_orders. intros H.
  repeat (apply elem_of_cons in H as [->|H]); [..|apply elem_of_nil in H; contradiction].
  - exists status_order, status_order, []. rewrite app_nil_r.
    split; [left; reflexivity|]. split; [reflexivity|]. split; [reflexivity | left; reflexivity].
  - exists reuse_order, reuse_order, []. rewrite app_nil_r.
    split; [right; reflexivity|]. split; [reflexivity|]. split; [reflexivity | left; reflexivity].
  - exists status_order, [], [ERROR].
    split; [left; reflexivity|]. split; [apply prefix_nil|]. split; [reflexivity|].
    right. split; [reflexivity | discriminate].
  - exists status_order, [CONNECTING], [ERROR].
    split; [left; reflexivity|]. split; [exists [CONNECTED; SENDING; SENT]; reflexivity|].
    split; [reflexivity|]. right. split; [reflexivity | discriminate].
  - exists status_order, [CONNECTING; CONNECTED; SENDING], [ERROR].
    split; [left; reflexivity|]. split; [exists [SENT]; reflexivity|].
    split; [reflexivity|]. right. split; [reflexivity | discriminate].
  - exists reuse_order, [CONNECTED; SENDING], [ERROR].
    split; [right; reflexivity|]. split; [exists [SENT]; reflexivity|].
    split; [reflexivity|]. right. split; [reflexivity | discriminate].
Qed.

(** The service is connected to the target of the call. *)
Definition connected_to (host : string) (port : number) (σ : State) : bool :=
  isConnected σ && bool_decide (currentHost σ = Some host)
  && bool_decide (currentPort σ = Some port).

Lemma statuses_of_own (k : nat) (st : ConnectionStatus) (e : StatusError) :
  statuses_of k [status_callback k st e] = [st].
Proof. cbn. rewrite bool_decide_eq_true_2 by reflexivity. reflexivity. Qed.

(** What a call is told before it returns or is suspended. *)
Lemma call_statuses (σ σ' : State) (t : Z) (element : RawPointedDOMElement)
  (host : string) (port : number) :
  Inv σ ->
  step σ t (call_sendElement element host port) = Some σ' ->
  statuses_of (next_send σ) (trace σ')
  = if host_invalid host || port_invalid port then [ERROR]
    else if connected_to host port σ then
      match JSON_stringify element (Z.max (clock σ) t) with
      | Normal _ => [CONNECTED; SENDING; SENT]
      | Throw _ => [CONNECTED; SENDING; ERROR]
      end
    else [CONNECTING].
Proof.
  intros [Hs Ht] Hstep.
  pose proof (inv_fresh _ Ht (next_send σ) (le_n _)) as Hnone.
  destruct (host_invalid host || port_invalid port) eqn:Hv.
  - apply orb_true_iff in Hv. injection Hstep as <-.
    rewrite (sendElement_invalid _ _ _ _ Hv). rewrite clearIdleTimer_eq.
    cbn [trace statusCallback emit set_idleTimeout set_timers set_next_send set_clock
         next_send].
    rewrite !statuses_of_app, statuses_of_cleared, Hnone.
    apply statuses_of_own.
  - apply orb_false_iff in Hv as [Hh Hp].
    destruct (connected_to host port σ) eqn:Hc.
    + unfold connected_to in Hc. apply andb_true_iff in Hc as [Hc Hcp].
      apply andb_true_iff in Hc as [Hc Hch].
      apply bool_decide_eq_true_1 in Hch, Hcp.
      destruct (ws σ) as [s|] eqn:Hws;
        [|rewrite (isConnected_no_ws _ Hws) in Hc; discriminate Hc].
      destruct (step_reuse σ t element host port s Hh Hp Hch Hcp Hws Hc)
        as (σ1 & Hstep1 & _ & Htr & _).
      rewrite Hstep1 in Hstep. injection Hstep as <-. rewrite Htr.
      rewrite !statuses_of_app, statuses_of_cleared, Hnone.
      destruct (JSON_stringify element (Z.max (clock σ) t)); cbn;
        rewrite !bool_decide_eq_true_2 by reflexivity; reflexivity.
    + injection Hstep as <-.
      set (σ0 := set_clock (Z.max (clock σ) t) σ).
      assert (Hn : needs_connection host port σ0).
      { unfold needs_connection. change (isConnected σ0) with (isConnected σ).
        change (currentHost σ0) with (currentHost σ).
        change (currentPort σ0) with (currentPort σ).
        unfold connected_to in Hc.
        destruct (isConnected σ); [|left; reflexivity]. right.
        destruct (bool_decide (currentHost σ = Some host)) eqn:Hch.
        - right. cbn in Hc. apply bool_decide_eq_false_1 in Hc. exact Hc.
        - left. apply bool_decide_eq_false_1 in Hch. exact Hch. }
      destruct (sendElement_attempt element host port σ0 (Inv_s_set_clock _ _ Hs) Hh Hp Hn)
        as (_ & _ & _ & _ & _ & _ & _ & Hst).
      rewrite (Hst (next_send σ)). change (trace σ0) with (trace σ). rewrite Hnone.
      change (next_send σ0) with (next_send σ).
      rewrite bool_decide_eq_true_2 by reflexivity. reflexivity.
Qed.

(** C6, as amended. The statuses one call of [sendElement] is told come in
    the order CONNECTING, CONNECTED, SENDING, SENT when the call opens a
    connection, and in the order CONNECTED, SENDING, SENT when it finds the
    service connected to its target: [CONNECTING] is told only before a
    socket is built. In every state the service reaches, a call not made
    yet was told nothing, a call that waits for its socket was told
    [CONNECTING], and a call that is over was told one of the two orders in
    full, or a start of one of them cut short by one [ERROR], after which
    it is told nothing. A call made when the service is connected to its
    target starts with [CONNECTED]; any other call with a valid target
    starts with [CONNECTING]. *)
Theorem statuses_follow_fixed_order (σ : State) (k : nat) :
  reachable σ ->
  ((next_send σ <= k)%nat -> statuses_of k (trace σ) = []) /\
  (forall s w, waits σ !! s = Some w -> wait_send w = k ->
     statuses_of k (trace σ) = [CONNECTING]) /\
  ((k < next_send σ)%nat ->
   (forall s w, waits σ !! s = Some w -> wait_send w <> k) ->
   statuses_of k (trace σ) ∈
     [ [CONNECTING; CONNECTED; SENDING; SENT]; [CONNECTED; SENDING; SENT];
       [ERROR]; [CONNECTING; ERROR];
       [CONNECTING; CONNECTED; SENDING; ERROR]; [CONNECTED; SENDING; ERROR] ]) /\
  (exists order p e,
     (order = status_order \/ order = reuse_order) /\
     p `prefix_of` order /\
     statuses_of k (trace σ) = p ++ e /\
     (e = [] \/ (e = [ERROR] /\ p <> order))) /\
  (forall t element host port σ',
     step σ t (call_sendElement element host port) = Some σ' ->
     statuses_of (next_send σ) (trace σ')
     = if host_invalid host || port_invalid port then [ERROR]
       else if connected_to host port σ then
         match JSON_stringify element (Z.max (clock σ) t) with
         | Normal _ => [CONNECTED; SENDING; SENT]
         | Throw _ => [CONNECTED; SENDING; ERROR]
         end
       else [CONNECTING]).
Proof.
  intros Hr. pose proof (reachable_Inv _ Hr) as HI. destruct HI as [Hs Ht].
  assert (Hdone : (k < next_send σ)%nat ->
                  (forall s w, waits σ !! s = Some w -> wait_send w <> k) ->
                  statuses_of k (trace σ) ∈ finished_orders).
  { intros Hk Hw.
    pose proof (inv_done _ Ht k Hk Hw) as H. unfold final_sequences in H.
    unfold finished_orders, status_order, reuse_order.
    repeat (apply elem_of_cons in H as [->|H]);
      [in_list..|apply elem_of_nil in H; contradiction]. }
  split; [exact (inv_fresh _ Ht k)|].
  split; [intros s w Hw <-; exact (inv_waiting _ Ht s w Hw)|].
  split; [exact Hdone|].
  split.
  - destruct (decide (next_send σ <= k)%nat) as [Hk|Hk].
    + rewrite (inv_fresh _ Ht k Hk). exists status_order, [], [].
      split; [left; reflexivity|]. split; [apply prefix_nil|].
      split; [reflexivity | left; reflexivity].
    + destruct (decide (map_Exists (fun _ w => wait_send w = k) (waits σ)))
        as [(s & w & Hw & <-)|Hn].
      * rewrite (inv_waiting _ Ht s w Hw). exists status_order, [CONNECTING], [].
        split; [left; reflexivity|].
        split; [exists [CONNECTED; SENDING; SENT]; reflexivity|].
        split; [reflexivity | left; reflexivity].
      * apply finished_in_order, Hdone; [lia|].
        intros s w Hw Heq. apply Hn. exists s, w. split; assumption.
  - intros t element host port σ' Hstep.
    exact (call_statuses σ σ' t element host port (conj Hs Ht) Hstep).
Qed.

End StatusOrder.

(** ** The messages of the background script *)

Section BackgroundMessages.
Context {P : Platform}.










End BackgroundMessages.

(** ** The stored configuration *)

Section StorageFacts.
Context {P : Platform} {B : Build}.

Lemma migrateConfig_configWithVersion (config : FullConfig) :
  migrateConfig (configWithVersion config) = config.
Proof.
  destruct config as [[e a w r] l]. unfold migrateConfig, configWithVersion. cbn.
  rewrite map_map. cbn. rewrite map_id. reflexivity.
Qed.

Lemma save_ok (config : FullConfig) (st : Storage) :
  set_error st = None ->
  save config st
  = Normal {| content := Some (configWithVersion config); get_error := get_error st;
              set_error := None |}.
Proof. intros H. unfold save, chrome_storage_sync_set. rewrite H. reflexivity. Qed.

Lemma save_inv (config : FullConfig) (st st' : Storage) :
  save config st = Normal st' ->
  set_error st = None /\
  st' = {| content := Some (configWithVersion config); get_error := get_error st;
           set_error := None |}.
Proof.
  unfold save, chrome_storage_sync_set. destruct (set_error st) eqn:H; [discriminate|].
  intros [= <-]. auto.
Qed.

Lemma load_saved (config : FullConfig) (g : option string) (s : option string) :
  g = None ->
  load {| content := Some (configWithVersion config); get_error := g; set_error := s |}
  = config.
Proof. intros ->. unfold load. cbn. apply migrateConfig_configWithVersion. Qed.

(** X15. What is saved is what is loaded: [save] stores the configuration with
    [_version] 3, and when reading works [load] gives back the same
    configuration, routes included, whatever was stored before. *)
Theorem saved_config_is_loaded_back (config : FullConfig) (st st' : Storage) :
  save config st = Normal st' -> get_error st = None ->
  load st' = config /\
  content st' = Some (configWithVersion config) /\
  stored_version (configWithVersion config) = Some 3.
Proof.
  intros Hs Hg. apply save_inv in Hs as [_ ->]. split; [apply load_saved, Hg|].
  split; reflexivity.
Qed.

(** [update] when writing works. *)
Lemma update_ok (updates : ConfigUpdates) (st : Storage) :
  set_error st = None ->
  update updates st
  = Normal (spread_config (load st) updates,
            {| content := Some (configWithVersion (spread_config (load st) updates));
               get_error := get_error st; set_error := None |}).
Proof. intros H. unfold update. rewrite save_ok by exact H. reflexivity. Qed.

Lemma update_inv (updates : ConfigUpdates) (st st' : Storage) (c : FullConfig) :
  update updates st = Normal (c, st') ->
  set_error st = None /\ c = spread_config (load st) updates /\
  st' = {| content := Some (configWithVersion c); get_error := get_error st;
           set_error := None |}.
Proof.
  unfold update. destruct (save _ st) as [st1|m] eqn:Hs; [|discriminate].
  cbn. intros [= <- <-]. apply save_inv in Hs as [H ->]. auto.
Qed.

Lemma spread_routes (c : FullConfig) (newRoutes : list RouteConfig) :
  spread_config c (routes_update newRoutes)
  = {| settings := {| config_enabled := config_enabled (settings c);
                      autoRouting := autoRouting (settings c);
                      websocket := websocket (settings c);
                      routes := newRoutes |};
       logger := logger c |}.
Proof. reflexivity. Qed.

Lemma spread_same_routes (c : FullConfig) :
  spread_config c (routes_update (routes (settings c))) = c.
Proof. destruct c as [[e a w r] l]. reflexivity. Qed.

(** X16. A read that fails costs the stored configuration: [load] answers a
    failed read with the default configuration, so a method that changes
    the routes then writes the default configuration, with the change made
    to its empty list of routes, over whatever was stored. *)
Theorem failed_read_overwrites_stored_config (st : Storage) (message : string) :
  get_error st = Some message -> set_error st = None ->
  let with_routes rs := spread_config defaultConfig (routes_update rs) in
  (forall route, exists st',
     addRoute route st = Normal (with_routes [route], st') /\
     content st' = Some (configWithVersion (with_routes [route]))) /\
  (forall routeId, exists st',
     removeRoute routeId st = Normal (defaultConfig, st') /\
     content st' = Some (configWithVersion defaultConfig)) /\
  (forall routeId, exists st',
     toggleRoute routeId st = Normal (defaultConfig, st') /\
     content st' = Some (configWithVersion defaultConfig)) /\
  (forall routeId updates, exists st',
     updateRoute routeId updates st = Normal (defaultConfig, st') /\
     content st' = Some (configWithVersion defaultConfig)).
Proof.
  intros Hg Hs with_routes.
  assert (Hl : load st = defaultConfig).
  { unfold load, chrome_storage_sync_get. rewrite Hg. reflexivity. }
  repeat split; intros; eexists;
    unfold addRoute, removeRoute, toggleRoute, updateRoute;
    rewrite update_ok by exact Hs; rewrite Hl; split; reflexivity.
Qed.

(** *** Routes added, removed, switched and changed *)

Lemma findMatchingRoute_app (url : string) (l1 l2 : list RouteConfig) :
  findMatchingRoute url (l1 ++ l2)
  = match findMatchingRoute url l1 with
    | Normal (Some r) => Normal (Some r)
    | Normal None => findMatchingRoute url l2
    | Throw m => Throw m
    end.
Proof.
  destruct (findMatchingRoute_normal url l1) as [[r|] H]; rewrite H.
  - apply findMatchingRoute_some in H as (before & after & -> & Hb & He & Hm).
    rewrite <- app_assoc, <- app_comm_cons.
    rewrite findMatchingRoute_skip_prefix by exact Hb.
    apply findMatchingRoute_hit; assumption.
  - apply findMatchingRoute_none in H. apply findMatchingRoute_skip_prefix, H.
Qed.

(** X17. A route that is added comes last: [addRoute] stores the routes there
    were with the new one after them, so every URL that matched a route
    still resolves to that route, and the new route is only tried for the
    URLs that matched none. *)
Theorem added_route_comes_last (route : RouteConfig) (st st' : Storage) (c : FullConfig) :
  addRoute route st = Normal (c, st') ->
  let before := routes (settings (load st)) in
  routes (settings c) = before ++ [route] /\
  content st' = Some (configWithVersion c) /\
  (get_error st = None -> load st' = c) /\
  forall url,
    findMatchingRoute url (routes (settings c))
    = match findMatchingRoute url before with
      | Normal (Some r) => Normal (Some r)
      | Normal None => findMatchingRoute url [route]
      | Throw m => Throw m
      end.
Proof.
  intros H before. unfold addRoute in H. apply update_inv in H as (_ & -> & ->).
  rewrite spread_routes. cbn [settings routes content].
  split; [reflexivity|]. split; [reflexivity|]. split; [apply load_saved|].
  intros url. apply findMatchingRoute_app.
Qed.

Lemma filter_skipped (url : string) (f : RouteConfig -> bool) (l : list RouteConfig) :
  Forall (skipped url) l -> Forall (skipped url) (List.filter f l).
Proof.
  induction 1 as [|r l Hr _ IH]; [constructor|]. cbn. destruct (f r); [constructor|]; auto.
Qed.

Lemma findMatchingRoute_filter (url : string) (f : RouteConfig -> bool)
  (l : list RouteConfig) (r : RouteConfig) :
  findMatchingRoute url l = Normal (Some r) -> f r = true ->
  findMatchingRoute url (List.filter f l) = Normal (Some r).
Proof.
  intros H Hf. apply findMatchingRoute_some in H as (before & after & -> & Hb & He & Hm).
  rewrite List.filter_app. cbn [List.filter]. rewrite Hf.
  rewrite findMatchingRoute_skip_prefix by (apply filter_skipped, Hb).
  apply findMatchingRoute_hit; assumption.
Qed.

Lemma findMatchingRoute_In (url : string) (l : list RouteConfig) (r : RouteConfig) :
  findMatchingRoute url l = Normal (Some r) -> In r l.
Proof.
  intros H. apply findMatchingRoute_some in H as (before & after & -> & _).
  apply in_or_app. right. left. reflexivity.
Qed.

(** X18. A removed route is gone for good: [removeRoute] takes out every route
    with the identifier and keeps the others in their order. No URL
    resolves to a route with that identifier any more, and a URL that
    resolved to another route still resolves to it. *)
Theorem removed_route_is_never_matched (routeId : string) (st st' : Storage)
  (c : FullConfig) :
  removeRoute routeId st = Normal (c, st') ->
  let before := routes (settings (load st)) in
  routes (settings c)
  = List.filter (fun route => negb (String.eqb (route_id route) routeId)) before /\
  Forall (fun route => route_id route <> routeId) (routes (settings c)) /\
  (get_error st = None -> load st' = c) /\
  (forall url r,
     findMatchingRoute url (routes (settings c)) = Normal (Some r) -> route_id r <> routeId) /\
  (forall url r,
     findMatchingRoute url before = Normal (Some r) -> route_id r <> routeId ->
     findMatchingRoute url (routes (settings c)) = Normal (Some r)).
Proof.
  intros H before. unfold removeRoute in H. apply update_inv in H as (_ & -> & ->).
  rewrite spread_routes. cbn [settings routes].
  assert (Hall : Forall (fun route => route_id route <> routeId)
            (List.filter (fun route => negb (String.eqb (route_id route) routeId)) before)).
  { apply Forall_forall. intros r Hin. apply list_elem_of_In, filter_In in Hin as [_ Hf].
    apply negb_true_iff, String.eqb_neq in Hf. exact Hf. }
  split; [reflexivity|]. split; [exact Hall|]. split; [apply load_saved|]. split.
  - intros url r Hm. apply findMatchingRoute_In in Hm.
    rewrite Forall_forall in Hall. apply Hall, list_elem_of_In, Hm.
  - intros url r Hm Hne. apply findMatchingRoute_filter; [exact Hm|].
    apply negb_true_iff, String.eqb_neq, Hne.
Qed.

Lemma toggled_toggled (r : RouteConfig) : toggled (toggled r) = r.
Proof. destruct r as [i n p pt m e]. unfold toggled. cbn. rewrite negb_involutive. reflexivity. Qed.

(** X19. Switching a route twice gives back what there was: after two calls of
    [toggleRoute] with the same identifier the configuration returned, and
    the one loaded from then on, is the one that was loaded before. *)
Theorem toggleRoute_twice_restores (routeId : string) (st st1 st2 : Storage)
  (c1 c2 : FullConfig) :
  toggleRoute routeId st = Normal (c1, st1) ->
  toggleRoute routeId st1 = Normal (c2, st2) ->
  get_error st = None ->
  c2 = load st /\ load st2 = load st /\
  routes (settings c1)
  = map (fun route => if String.eqb (route_id route) routeId then toggled route else route)
      (routes (settings (load st))).
Proof.
  unfold toggleRoute. intros H1 H2 Hg.
  apply update_inv in H1 as (_ & -> & ->). apply update_inv in H2 as (_ & -> & ->).
  cbn [get_error]. rewrite !load_saved by exact Hg.
  rewrite !spread_routes. cbn [settings routes logger config_enabled autoRouting websocket].
  assert (Hr : map (fun route => if String.eqb (route_id route) routeId
                                 then toggled route else route)
                 (map (fun route => if String.eqb (route_id route) routeId
                                    then toggled route else route)
                    (routes (settings (load st))))
               = routes (settings (load st))).
  { rewrite map_map. rewrite <- (map_id (routes (settings (load st)))) at 2.
    apply map_ext. intros r. destruct (String.eqb (route_id r) routeId) eqn:He.
    - change (route_id (toggled r)) with (route_id r). rewrite He. apply toggled_toggled.
    - rewrite He. reflexivity. }
  rewrite Hr. destruct (load st) as [[e a w r] l]. cbn. auto.
Qed.

Lemma filter_other_ids (routeId : string) (l : list RouteConfig) :
  Forall (fun route => route_id route <> routeId) l ->
  List.filter (fun route => negb (String.eqb (route_id route) routeId)) l = l.
Proof.
  induction 1 as [|r l Hr _ IH]; [reflexivity|]. cbn.
  rewrite (proj2 (String.eqb_neq _ _) Hr). cbn. rewrite IH. reflexivity.
Qed.

Lemma map_other_ids (routeId : string) (g : RouteConfig -> RouteConfig)
  (l : list RouteConfig) :
  Forall (fun route => route_id route <> routeId) l ->
  map (fun route => if String.eqb (route_id route) routeId then g route else route) l = l.
Proof.
  induction 1 as [|r l Hr _ IH]; [reflexivity|]. cbn.
  rewrite (proj2 (String.eqb_neq _ _) Hr). rewrite IH. reflexivity.
Qed.

(** X20. An identifier that no route has changes nothing, and nothing tells:
    [removeRoute], [toggleRoute] and [updateRoute] then return the
    configuration that was loaded, and store it again. *)
Theorem unknown_route_id_changes_nothing (routeId : string) (st : Storage) :
  Forall (fun route => route_id route <> routeId) (routes (settings (load st))) ->
  set_error st = None ->
  let st' := {| content := Some (configWithVersion (load st)); get_error := get_error st;
                set_error := None |} in
  removeRoute routeId st = Normal (load st, st') /\
  toggleRoute routeId st = Normal (load st, st') /\
  (forall updates, updateRoute routeId updates st = Normal (load st, st')).
Proof.
  intros Hall Hs st'.
  pose proof (filter_other_ids routeId _ Hall) as Hf.
  pose proof (fun g => map_other_ids routeId g _ Hall) as Hm.
  unfold removeRoute, toggleRoute, updateRoute.
  rewrite !update_ok by exact Hs. rewrite Hf, (Hm toggled).
  rewrite !spread_same_routes. split; [reflexivity|]. split; [reflexivity|].
  intros updates. rewrite update_ok by exact Hs.
  rewrite (Hm (fun route => spread_route route updates)), spread_same_routes. reflexivity.
Qed.

(** X21. A configuration that is saved reaches the background script as it is:
    the listener of [onChange] gives the callback the configuration that
    was saved, and the script resolves with it from then on, keeping the
    routes it tracks and its sender. When the key is removed, or the change
    is in another area, the callback is not called and the script keeps
    the configuration it has. A script that starts after the save loads the
    saved configuration, with no route tracked and a new sender. *)
Theorem saved_config_reaches_background (config : FullConfig) (st st' : Storage)
  (b : Background) :
  save config st = Normal st' ->
  let b' := onStorageChanged
              (Some {| oldValue := content st; newValue := content st' |}) "sync" b in
  currentConfig b' = settings config /\
  activeRoutes b' = activeRoutes b /\ elementSender b' = elementSender b /\
  (forall url, getEndpointForUrl (currentConfig b') url
               = getEndpointForUrl (settings config) url) /\
  (forall old, onStorageChanged (Some {| oldValue := old; newValue := None |}) "sync" b = b) /\
  (forall change areaName, areaName <> "sync" -> onStorageChanged change areaName b = b) /\
  onStorageChanged None "sync" b = b /\
  (get_error st = None ->
   currentConfig (initialize st') = settings config /\
   activeRoutes (initialize st') = ∅ /\
   elementSender (initialize st') = new_ElementSenderService).
Proof.
  intros Hs b'. apply save_inv in Hs as [_ ->]. subst b'.
  unfold onStorageChanged, onChange. cbn [content newValue].
  rewrite migrateConfig_configWithVersion. cbn.
  split; [reflexivity|]. split; [reflexivity|]. split; [reflexivity|].
  split; [reflexivity|]. split; [reflexivity|]. split.
  { intros change areaName Hne. apply String.eqb_neq in Hne. rewrite Hne. reflexivity. }
  split; [reflexivity|].
  intros Hg. unfold initialize. cbn [currentConfig activeRoutes elementSender].
  rewrite load_saved by exact Hg. repeat split; reflexivity.
Qed.

End StorageFacts.

(** * The properties on concrete runs *)

#[local] Existing Instance sample_platform.

Lemma sample_waiting_step :
  step new_ElementSenderService 0 (call_sendElement sample_element "10.0.0.5" (int 7022))
  = Some sample_waiting.
Proof. apply step_after. vm_compute. reflexivity. Qed.

Lemma new_reachable : reachable new_ElementSenderService.
Proof. exists []. reflexivity. Qed.

Lemma sample_waiting_reachable : reachable sample_waiting.
Proof. exact (reachable_step _ _ _ _ new_reachable sample_waiting_step). Qed.

Lemma sample_connected_step :
  step sample_waiting 5 (socket_open 0%nat) = Some sample_connected.
Proof. apply step_after. vm_compute. reflexivity. Qed.

Lemma sample_connected_reachable : reachable sample_connected.
Proof.
  exact (reachable_step _ _ _ _ sample_waiting_reachable sample_connected_step).
Qed.

Example sample_connected_statuses :
  statuses_of 0 (trace sample_connected) = [CONNECTING; CONNECTED; SENDING; SENT] /\
  idleTimeout sample_connected = Some 1%nat /\
  timers sample_connected !! 1%nat = Some 10005 /\
  isConnected sample_connected = true.
Proof. vm_compute. repeat split; reflexivity. Qed.

(** C6 as stated fails on a call that finds the connection open: the
    second call for 10.0.0.5:7022 is told [CONNECTED], [SENDING], [SENT] and
    never [CONNECTING]. What it was told is not the fixed order, nor a start
    of it, nor a start of it followed by [ERROR]. *)
Lemma reused_connection_is_not_told_connecting :
  let σ' := after sample_connected 100
              (call_sendElement sample_element "10.0.0.5" (int 7022)) in
  isConnected sample_connected = true /\
  step sample_connected 100 (call_sendElement sample_element "10.0.0.5" (int 7022))
    = Some σ' /\
  waits σ' = ∅ /\
  statuses_of 1 (trace σ') = [CONNECTED; SENDING; SENT] /\
  ~ statuses_of 1 (trace σ') `prefix_of` status_order /\
  ~ (exists p, p `prefix_of` status_order /\ statuses_of 1 (trace σ') = p ++ [ERROR]).
Proof.
  intros σ'.
  assert (Hst : statuses_of 1 (trace σ') = [CONNECTED; SENDING; SENT])
    by (vm_compute; reflexivity).
  split; [vm_compute; reflexivity|].
  split; [unfold σ'; apply step_after; vm_compute; reflexivity|].
  split; [apply map_size_empty_iff; vm_compute; reflexivity|].
  split; [exact Hst|]. rewrite Hst. split.
  - intros [l Hl]. discriminate Hl.
  - intros (p & _ & Hp). apply (f_equal (@rev ConnectionStatus)) in Hp.
    rewrite rev_app_distr in Hp. discriminate Hp.
Qed.

Lemma statuses_follow_fixed_order_witness :
  reachable sample_connected /\
  statuses_of 0 (trace sample_connected) ∈
    [ [CONNECTING; CONNECTED; SENDING; SENT]; [CONNECTED; SENDING; SENT];
      [ERROR]; [CONNECTING; ERROR];
      [CONNECTING; CONNECTED; SENDING; ERROR]; [CONNECTED; SENDING; ERROR] ].
Proof.
  split; [exact sample_connected_reachable|].
  destruct (statuses_follow_fixed_order sample_connected 0 sample_connected_reachable)
    as (_ & _ & Hover & _).
  assert (Hw : waits sample_connected = ∅)
    by (apply map_size_empty_iff; vm_compute; reflexivity).
  apply Hover.
  - assert (Hn : next_send sample_connected = 1%nat) by (vm_compute; reflexivity).
    rewrite Hn. lia.
  - intros s w H. rewrite Hw, lookup_empty in H. discriminate H.
Defined.

Lemma target_switch_tears_down_first_witness :
  exists σ',
    step sample_connected 100 (call_sendElement sample_element "10.0.0.5" (int 7033))
      = Some σ' /\
    trace σ' = trace sample_connected ++ cleared sample_connected
               ++ [socket_close_called 0;
                   status_callback (next_send sample_connected) CONNECTING no_error;
                   socket_created (next_socket sample_connected) "10.0.0.5" (int 7033)].
Proof.
  destruct (target_switch_tears_down_first sample_connected 100 sample_element
              "10.0.0.5" "10.0.0.5" (int 7022) (int 7033) 0%nat)
    as (σ' & Hstep & _ & Htrace & _).
  - exact sample_connected_reachable.
  - vm_compute. reflexivity.
  - vm_compute. reflexivity.
  - vm_compute. reflexivity.
  - vm_compute. reflexivity.
  - vm_compute. reflexivity.
  - right. intros H. discriminate H.
  - exists σ'. split; assumption.
Defined.

Lemma sample_overlapping_reachable : reachable sample_overlapping.
Proof.
  unfold sample_overlapping.
  eapply reachable_step; [|apply step_after; vm_compute; reflexivity].
  eapply reachable_step; [|apply step_after; vm_compute; reflexivity].
  eapply reachable_step; [exact sample_connected_reachable|].
  apply step_after. vm_compute. reflexivity.
Qed.

Lemma sample_misrouted_reachable : reachable sample_misrouted.
Proof.
  unfold sample_misrouted.
  eapply reachable_step; [|apply step_after; vm_compute; reflexivity].
  eapply reachable_step; [exact sample_overlapping_reachable|].
  apply step_after. vm_compute. reflexivity.
Qed.

Lemma sample_doubled_reachable : reachable sample_doubled.
Proof.
  unfold sample_doubled.
  eapply reachable_step; [|apply step_after; vm_compute; reflexivity].
  eapply reachable_step; [|apply step_after; vm_compute; reflexivity].
  eapply reachable_step; [exact sample_waiting_reachable|].
  apply step_after. vm_compute. reflexivity.
Qed.

Lemma sample_stale_reachable : reachable sample_stale.
Proof.
  unfold sample_stale.
  eapply reachable_step; [|apply step_after; vm_compute; reflexivity].
  eapply reachable_step; [exact sample_doubled_reachable|].
  apply step_after. vm_compute. reflexivity.
Qed.

(** C3. The claim fails when calls overlap, in two runs.

    In the first, an element was sent to A = 10.0.0.5:7022; then come a
    call for B = 10.0.0.9:7033 (call 1, socket 1), a second call for B
    (call 2, socket 2) and a call for A (call 3, socket 3), before any of
    their sockets opens. Socket 3 opens and carries the element of call 3.
    Then socket 1 opens: call 1, a call for B, goes on and hands its frame
    to the socket in [ws], which is socket 3, open and built for A.

    In the second, two calls for A overlap (sockets 0 and 1, both open,
    idle timers 1 and 2 both pending, the service holding socket 1 and
    timer 2); then comes a call for B. It cancels timer 2 and closes socket
    1 only: socket 0, built for A, stays open, and timer 1, started by a
    call for A, stays pending. The socket for B opens and carries the
    element at time 3050; at time 10800 timer 1 fires and closes the
    connection to B. *)
Lemma overlapping_calls_cross_targets :
  (reachable sample_misrouted /\
   trace sample_misrouted
   = trace sample_connected
     ++ [timer_cleared 1; socket_close_called 0;
         status_callback 1 CONNECTING no_error;
         socket_created 1 "10.0.0.9" (int 7033);
         status_callback 2 CONNECTING no_error;
         socket_created 2 "10.0.0.9" (int 7033);
         socket_close_called 2;
         status_callback 3 CONNECTING no_error;
         socket_created 3 "10.0.0.5" (int 7022);
         status_callback 3 CONNECTED no_error; timer_set 2 13050;
         status_callback 3 SENDING no_error;
         socket_send_called 3 3 "DOM_ELEMENT_POINTED button#save";
         status_callback 3 SENT no_error;
         status_callback 1 CONNECTED no_error; timer_set 3 14000;
         status_callback 1 SENDING no_error;
         socket_send_called 3 1 "DOM_ELEMENT_POINTED a#pricing";
         status_callback 1 SENT no_error] /\
   sockets sample_misrouted !! 3%nat
   = Some {| socket_host := "10.0.0.5"; socket_port := int 7022; readyState := WS_OPEN |} /\
   sockets sample_misrouted !! 1%nat
   = Some {| socket_host := "10.0.0.9"; socket_port := int 7033; readyState := WS_OPEN |}) /\
  (reachable sample_doubled /\
   currentHost sample_doubled = Some "10.0.0.5" /\
   currentPort sample_doubled = Some (int 7022) /\
   ws sample_doubled = Some 1%nat /\
   idleTimeout sample_doubled = Some 2%nat /\
   timers sample_doubled !! 1%nat = Some 10800 /\
   timers sample_doubled !! 2%nat = Some 10900 /\
   sockets sample_doubled !! 0%nat
   = Some {| socket_host := "10.0.0.5"; socket_port := int 7022; readyState := WS_OPEN |} /\
   let σB := after sample_doubled 3000 (call_sendElement sample_link "10.0.0.9" (int 7033)) in
   step sample_doubled 3000 (call_sendElement sample_link "10.0.0.9" (int 7033)) = Some σB /\
   trace σB
   = trace sample_doubled
     ++ [timer_cleared 2; socket_close_called 1;
         status_callback 2 CONNECTING no_error;
         socket_created 2 "10.0.0.9" (int 7033)] /\
   timers σB !! 1%nat = Some 10800 /\
   sockets σB !! 0%nat
   = Some {| socket_host := "10.0.0.5"; socket_port := int 7022; readyState := WS_OPEN |} /\
   step σB 3050 (socket_open 2%nat) = Some sample_stale /\
   ws sample_stale = Some 2%nat /\
   isConnected sample_stale = true /\
   trace sample_stale
   = trace σB
     ++ [status_callback 2 CONNECTED no_error; timer_set 3 13050;
         status_callback 2 SENDING no_error;
         socket_send_called 2 2 "DOM_ELEMENT_POINTED a#pricing";
         status_callback 2 SENT no_error] /\
   step sample_stale 10799 (idle_timer 1%nat) = None /\
   let σT := after sample_stale 10800 (idle_timer 1%nat) in
   step sample_stale 10800 (idle_timer 1%nat) = Some σT /\
   trace σT = trace sample_stale ++ [timer_cleared 3; socket_close_called 2] /\
   ws σT = None /\
   sockets σT !! 2%nat
   = Some {| socket_host := "10.0.0.9"; socket_port := int 7033; readyState := WS_CLOSING |} /\
   sockets σT !! 0%nat
   = Some {| socket_host := "10.0.0.5"; socket_port := int 7022; readyState := WS_OPEN |}).
Proof.
  split.
  - split; [exact sample_misrouted_reachable|].
    split; [vm_compute; reflexivity|]. split; vm_compute; reflexivity.
  - split; [exact sample_doubled_reachable|].
    do 7 (split; [vm_compute; reflexivity|]).
    intros σB.
    split; [unfold σB; apply step_after; vm_compute; reflexivity|].
    do 3 (split; [vm_compute; reflexivity|]).
    split; [unfold σB, sample_stale; apply step_after; vm_compute; reflexivity|].
    do 3 (split; [vm_compute; reflexivity|]).
    split; [apply step_cannot; vm_compute; reflexivity|].
    intros σT.
    split; [unfold σT; apply step_after; vm_compute; reflexivity|].
    do 3 (split; [vm_compute; reflexivity|]). vm_compute. reflexivity.
Qed.


Lemma idle_timer_tears_down_once_witness :
  idleTimeout sample_connected = Some 1%nat /\
  timers sample_connected !! 1%nat = Some (clock sample_connected + IDLE_DURATION) /\
  step sample_connected 9999 (idle_timer 1%nat) = None.
Proof.
  destruct (idle_timer_tears_down_once sample_waiting sample_connected sample_connected
              5 (socket_open 0%nat) [])
    as (Hi & Htm & _ & Hearly & _).
  - exact sample_waiting_reachable.
  - exact sample_connected_step.
  - apply is_Some_alt. vm_compute. exact I.
  - apply map_size_empty_iff. vm_compute. reflexivity.
  - reflexivity.
  - constructor.
  - split; [exact Hi|]. split; [exact Htm|]. apply Hearly. vm_compute. reflexivity.
Defined.

(** C8. The claim fails on a call with an invalid target made while the
    connection is open and its idle timer is pending: the call cancels the
    timer, is told [ERROR] and starts no timer. The socket stays in [ws],
    open, with no timer left: as long as no other call is made, no timer
    fires, [close] is never called and nothing more happens, however much
    time passes. *)
Lemma invalid_call_stops_idle_timer :
  let σ' := after sample_connected 100 (call_sendElement sample_element "10.0.0.5" (int 0)) in
  idleTimeout sample_connected = Some 1%nat /\
  timers sample_connected !! 1%nat = Some 10005 /\
  isConnected sample_connected = true /\
  step sample_connected 100 (call_sendElement sample_element "10.0.0.5" (int 0)) = Some σ' /\
  trace σ' = trace sample_connected
             ++ [timer_cleared 1; status_callback 1 ERROR Invalid_port_number] /\
  statuses_of 1 (trace σ') = [ERROR] /\
  ws σ' = Some 0%nat /\
  isConnected σ' = true /\
  idleTimeout σ' = None /\
  timers σ' = ∅ /\
  (forall t timer, step σ' t (idle_timer timer) = None) /\
  (forall evs σ'',
     run σ' evs = Some σ'' ->
     Forall (fun tev => is_call (snd tev) = false) evs ->
     ws σ'' = Some 0%nat /\ idleTimeout σ'' = None /\ timers σ'' = ∅ /\
     trace σ'' = trace σ').
Proof.
  intros σ'.
  assert (Htm : timers σ' = ∅) by (apply map_size_empty_iff; vm_compute; reflexivity).
  assert (Hw : waits σ' = ∅) by (apply map_size_empty_iff; vm_compute; reflexivity).
  assert (Hws : ws σ' = Some 0%nat) by (vm_compute; reflexivity).
  assert (Hi : idleTimeout σ' = None) by (vm_compute; reflexivity).
  split; [vm_compute; reflexivity|]. split; [vm_compute; reflexivity|].
  split; [vm_compute; reflexivity|].
  split; [unfold σ'; apply step_after; vm_compute; reflexivity|].
  split; [vm_compute; reflexivity|]. split; [vm_compute; reflexivity|].
  split; [exact Hws|]. split; [vm_compute; reflexivity|]. split; [exact Hi|].
  split; [exact Htm|]. split.
  - intros t timer. apply no_timer_never_fires. rewrite Htm. apply lookup_empty.
  - intros evs σ'' Hrun Hnc.
    destruct (run_nothing_pending _ _ _ Hrun Hnc Htm Hw) as (H1 & H2 & H3 & _ & H5).
    rewrite H1, H2. repeat split; assumption.
Qed.

(** C7 as stated fails on a port that is not an integer: 80.5 is accepted,
    the call is told [CONNECTING], the port becomes the current one and a
    socket is built. *)
Lemma fractional_port_is_accepted :
  let port := Num (Q2Qc (161 # 2)) in
  let σ' := after new_ElementSenderService 0 (call_sendElement sample_element "localhost" port) in
  number_is_integer port = false /\
  step new_ElementSenderService 0 (call_sendElement sample_element "localhost" port)
    = Some σ' /\
  statuses_of 0 (trace σ') = [CONNECTING] /\
  currentHost σ' = Some "localhost" /\
  currentPort σ' = Some port /\
  ws σ' = Some 0%nat.
Proof.
  intros port σ'. split; [reflexivity|].
  split; [unfold σ'; apply step_after; vm_compute; reflexivity|].
  split; [vm_compute; reflexivity|]. split; [vm_compute; reflexivity|].
  split; vm_compute; reflexivity.
Qed.

Lemma invalid_target_is_rejected_witness :
  exists σ' Δ,
    step sample_connected 100 (call_sendElement sample_element "10.0.0.5" (int 70000))
      = Some σ' /\
    trace σ' = trace sample_connected ++ Δ /\
    statuses_of (next_send sample_connected) Δ = [ERROR] /\
    currentHost σ' = currentHost sample_connected /\
    currentPort σ' = currentPort sample_connected /\
    ws σ' = ws sample_connected /\
    sockets σ' = sockets sample_connected /\
    isConnected σ' = isConnected sample_connected /\
    waits σ' = waits sample_connected.
Proof.
  destruct (invalid_target_is_rejected sample_connected 100 sample_element
              "10.0.0.5" (int 70000))
    as (σ' & Δ & Hstep & Htr & Hst & _ & _ & Hrest).
  - right. right. exists (Q2Qc (inject_Z 70000)). split; [reflexivity|].
    right. reflexivity.
  - exists σ', Δ. split; [exact Hstep|]. split; [exact Htr|]. split; [exact Hst|].
    exact Hrest.
Defined.


(** ** More concrete runs *)

#[local] Existing Instance sample_build.

Lemma sample_switched_step :
  step sample_connected 100 (call_sendElement sample_element "10.0.0.9" (int 7033))
  = Some sample_switched.
Proof. unfold sample_switched. apply step_after. vm_compute. reflexivity. Qed.

Lemma sample_switched_reachable : reachable sample_switched.
Proof.
  exact (reachable_step _ _ _ _ sample_connected_reachable sample_switched_step).
Qed.

Lemma sample_crossed_reachable : reachable sample_crossed.
Proof.
  unfold sample_crossed.
  eapply reachable_step; [|apply step_after; vm_compute; reflexivity].
  eapply reachable_step; [exact sample_waiting_reachable|].
  apply step_after. vm_compute. reflexivity.
Qed.

Lemma port_rule_matches_longer_ports_witness :
  findMatchingRoute "http://localhost:30001/app"
    [{| route_id := "a"; route_name := "A"; pattern := "3000";
        patternType := port_pattern; mcpPort := int 7001; enabled := true |};
     {| route_id := "b"; route_name := "B"; pattern := "30001";
        patternType := port_pattern; mcpPort := int 7002; enabled := true |}]
  = Normal (Some {| route_id := "a"; route_name := "A"; pattern := "3000";
                    patternType := port_pattern; mcpPort := int 7001; enabled := true |}).
Proof.
  apply (proj2 (proj2 (port_rule_matches_longer_ports "http://localhost:30001/app"
           {| route_id := "a"; route_name := "A"; pattern := "3000";
              patternType := port_pattern; mcpPort := int 7001; enabled := true |}
           [{| route_id := "b"; route_name := "B"; pattern := "30001";
               patternType := port_pattern; mcpPort := int 7002; enabled := true |}]
           eq_refl eq_refl)) "http://localhost" "1" "/app").
  reflexivity.
Defined.

Lemma open_connection_is_reused_witness :
  exists σ',
    step sample_connected 100 (call_sendElement sample_element "10.0.0.5" (int 7022))
      = Some σ' /\
    ws σ' = Some 0%nat /\ sockets σ' = sockets sample_connected /\
    next_socket σ' = next_socket sample_connected.
Proof.
  destruct (open_connection_is_reused sample_connected 100 sample_element
              "10.0.0.5" (int 7022) 0 "DOM_ELEMENT_POINTED button#save")
    as (σ' & Hstep & _ & Hws & Hsk & Hns & _).
  - reflexivity.
  - vm_compute. reflexivity.
  - vm_compute. reflexivity.
  - vm_compute. reflexivity.
  - vm_compute. reflexivity.
  - vm_compute. reflexivity.
  - vm_compute. reflexivity.
  - exists σ'. auto.
Defined.

Lemma serialization_failure_is_reported_witness :
  exists σ',
    step sample_connected 100 (call_sendElement sample_circular "10.0.0.5" (int 7022))
      = Some σ' /\
    ws σ' = Some 0%nat /\ isConnected σ' = true /\
    idleTimeout σ' = Some (next_timer sample_connected).
Proof.
  destruct (serialization_failure_is_reported sample_connected 100 sample_circular
              "10.0.0.5" (int 7022) 0 "Converting circular structure to JSON")
    as (σ' & Hstep & _ & Hws & _ & Hc & Hi & _).
  - reflexivity.
  - vm_compute. reflexivity.
  - vm_compute. reflexivity.
  - vm_compute. reflexivity.
  - vm_compute. reflexivity.
  - vm_compute. reflexivity.
  - vm_compute. reflexivity.
  - exists σ'. auto.
Defined.

(** The first call, made for 10.0.0.5:7022, is handed to the socket built
    for 10.0.0.9:7033 when its own socket opens. *)
Lemma resumed_call_sends_on_held_socket_witness :
  socket_host <$> sockets sample_crossed !! 2%nat = Some "10.0.0.9" /\
  wait_host <$> waits sample_crossed !! 0%nat = Some "10.0.0.5" /\
  exists σ',
    step sample_crossed 3 (socket_open 0%nat) = Some σ' /\
    socket_send_called 2 0 "DOM_ELEMENT_POINTED button#save" ∈ trace σ'.
Proof.
  split; [vm_compute; reflexivity|]. split; [vm_compute; reflexivity|].
  destruct (resumed_call_sends_on_held_socket sample_crossed 3 0
              {| wait_send := 0; wait_element := sample_element; wait_host := "10.0.0.5";
                 wait_port := int 7022; wait_due := 10000 |}
              {| socket_host := "10.0.0.5"; socket_port := int 7022;
                 readyState := WS_CONNECTING |})
    as (σ' & Hstep & Htr & _).
  - reflexivity.
  - vm_compute. reflexivity.
  - reflexivity.
  - exists σ'. split; [exact Hstep|]. rewrite Htr.
    assert (Hws : ws sample_crossed = Some 2%nat) by (vm_compute; reflexivity).
    rewrite Hws. cbn [wait_send wait_element].
    assert (Hj : JSON_stringify sample_element (Z.max (clock sample_crossed) 3)
                 = Normal "DOM_ELEMENT_POINTED button#save") by (vm_compute; reflexivity).
    rewrite Hj. rewrite !elem_of_app. right. right. apply list_elem_of_here.
Defined.

(** The first call times out: the socket closed is the one built for
    10.0.0.9:7033, and its own socket stays as it is. *)
Lemma timed_out_call_closes_held_socket_witness :
  exists σ',
    step sample_crossed 10000 (connection_timer 0%nat) = Some σ' /\
    ws σ' = None /\
    readyState <$> sockets σ' !! 2%nat = Some WS_CLOSING /\
    sockets σ' !! 0%nat = sockets sample_crossed !! 0%nat.
Proof.
  destruct (timed_out_call_closes_held_socket sample_crossed 10000 0
              {| wait_send := 0; wait_element := sample_element; wait_host := "10.0.0.5";
                 wait_port := int 7022; wait_due := 10000 |})
    as (σ' & Hstep & _ & Hws & _ & _ & Hheld & Hown).
  - reflexivity.
  - vm_compute. discriminate.
  - exists σ'. split; [exact Hstep|]. split; [exact Hws|]. split.
    + rewrite (Hheld 2%nat) by (vm_compute; reflexivity). vm_compute. reflexivity.
    + apply Hown. vm_compute. discriminate.
Defined.

Lemma new_connection_sends_on_open_witness :
  exists σ2,
    step sample_waiting 5 (socket_open 0%nat) = Some σ2 /\
    statuses_of 0 (trace σ2) = [CONNECTING; CONNECTED; SENDING; SENT] /\
    isConnected σ2 = true.
Proof.
  destruct (new_connection_sends_on_open new_ElementSenderService sample_waiting 0 5
              sample_element "10.0.0.5" (int 7022) "DOM_ELEMENT_POINTED button#save")
    as (_ & σ2 & Hstep & _ & Hst & _ & Hc & _).
  - exact new_reachable.
  - reflexivity.
  - vm_compute. reflexivity.
  - left. reflexivity.
  - exact sample_waiting_step.
  - vm_compute. reflexivity.
  - exists σ2. auto.
Defined.

Lemma unopened_socket_is_abandoned_witness :
  exists σ',
    step sample_waiting 1 (call_sendElement sample_element "10.0.0.5" (int 7022)) = Some σ' /\
    ws σ' = Some 1%nat /\
    sockets σ' !! 0%nat = sockets sample_waiting !! 0%nat.
Proof.
  destruct (unopened_socket_is_abandoned sample_waiting 1 sample_element
              "10.0.0.5" (int 7022) 0)
    as (σ' & Hstep & _ & Hws & _ & _ & Hsk & _).
  - exact sample_waiting_reachable.
  - reflexivity.
  - vm_compute. reflexivity.
  - vm_compute. reflexivity.
  - vm_compute. reflexivity.
  - vm_compute. reflexivity.
  - vm_compute. reflexivity.
  - exists σ'. split; [exact Hstep|]. split; [exact Hws | exact Hsk].
Defined.

Lemma sockets_are_built_for_valid_targets_witness :
  socket_created 0 "10.0.0.5" (int 7022) ∈ trace sample_connected /\
  socket_close_called 0 ∉ trace sample_connected.
Proof.
  destruct (sockets_are_built_for_valid_targets sample_connected sample_connected_reachable)
    as [Hall Hheld].
  split.
  - apply (Hall 0%nat {| socket_host := "10.0.0.5"; socket_port := int 7022;
                        readyState := WS_OPEN |}).
    vm_compute. reflexivity.
  - apply (Hheld 0%nat). vm_compute. reflexivity.
Defined.

Lemma closed_socket_is_never_used_witness :
  ws sample_switched <> Some 0%nat /\
  forall k frame,
    socket_send_called 0 k frame ∉
      [status_callback 1 CONNECTING no_error; socket_created 1 "10.0.0.9" (int 7033)].
Proof.
  apply (closed_socket_is_never_used sample_switched 0
           [status_callback 0 CONNECTING no_error;
            socket_created 0 "10.0.0.5" (int 7022);
            status_callback 0 CONNECTED no_error; timer_set 1 10005;
            status_callback 0 SENDING no_error;
            socket_send_called 0 0 "DOM_ELEMENT_POINTED button#save";
            status_callback 0 SENT no_error; timer_cleared 1]).
  - exact sample_switched_reachable.
  - vm_compute. reflexivity.
Defined.

Lemma one_frame_for_each_sent_call_witness :
  SENT ∈ statuses_of 0 (trace sample_connected) <->
  exists s frame, socket_send_called s 0 frame ∈ trace sample_connected.
Proof.
  exact (proj1 (proj2 (one_frame_for_each_sent_call sample_connected 0
                         sample_connected_reachable))).
Defined.



Lemma saved_config_is_loaded_back_witness :
  load {| content := Some (configWithVersion sample_full_config);
          get_error := None; set_error := None |}
  = sample_full_config.
Proof.
  apply (saved_config_is_loaded_back sample_full_config sample_storage); reflexivity.
Defined.

Lemma failed_read_overwrites_stored_config_witness :
  exists st',
    addRoute sample_route sample_unreadable
    = Normal (spread_config defaultConfig (routes_update [sample_route]), st') /\
    content st'
    = Some (configWithVersion (spread_config defaultConfig (routes_update [sample_route]))).
Proof.
  apply (failed_read_overwrites_stored_config sample_unreadable "read failed");
    reflexivity.
Defined.

Lemma added_route_comes_last_witness :
  exists c st',
    addRoute sample_route sample_storage = Normal (c, st') /\
    routes (settings c) = routes (settings (load sample_storage)) ++ [sample_route].
Proof.
  eexists _, _. split; [reflexivity|].
  exact (proj1 (added_route_comes_last sample_route sample_storage _ _ eq_refl)).
Defined.

Lemma removed_route_is_never_matched_witness :
  exists c st',
    removeRoute "kommu" sample_storage = Normal (c, st') /\
    Forall (fun route => route_id route <> "kommu") (routes (settings c)).
Proof.
  eexists _, _. split; [reflexivity|].
  exact (proj1 (proj2 (removed_route_is_never_matched "kommu" sample_storage _ _ eq_refl))).
Defined.

Lemma toggleRoute_twice_restores_witness :
  exists c1 st1 c2 st2,
    toggleRoute "kommu" sample_storage = Normal (c1, st1) /\
    toggleRoute "kommu" st1 = Normal (c2, st2) /\
    c2 = load sample_storage /\ load st2 = load sample_storage.
Proof.
  eexists _, _, _, _. split; [reflexivity|]. split; [reflexivity|].
  destruct (toggleRoute_twice_restores "kommu" sample_storage _ _ _ _ eq_refl eq_refl eq_refl)
    as (H1 & H2 & _).
  split; [exact H1 | exact H2].
Defined.

Lemma unknown_route_id_changes_nothing_witness :
  exists st', removeRoute "none" sample_storage = Normal (load sample_storage, st').
Proof.
  eexists.
  refine (proj1 (unknown_route_id_changes_nothing "none" sample_storage _ eq_refl)).
  repeat (constructor; [discriminate|]). constructor.
Defined.

Lemma saved_config_reaches_background_witness :
  currentConfig
    (onStorageChanged
       (Some {| oldValue := content sample_storage;
                newValue := Some (configWithVersion sample_full_config) |})
       "sync" sample_background)
  = settings sample_full_config.
Proof.
  exact (proj1 (saved_config_reaches_background sample_full_config sample_storage
                  {| content := Some (configWithVersion sample_full_config);
                     get_error := None; set_error := None |}
                  sample_background eq_refl)).
Defined.
